(** * ZLMediaKit, src/Rtsp/Rtsp.cpp: RTP header view, SDP parsing, port pool

    A shallow embedding of the functions of [Rtsp.cpp] and the properties
    of its specification.  Machine integers are [Z] with the C++
    conversions written out; byte buffers are memories addressed relative
    to the object that overlays them; [std::string] is [string];
    [std::multimap<string,string>] is an association list kept in the
    container's iteration order; [std::deque] and [std::vector] are
    lists. *)

From Stdlib Require Import ZArith Lia Strings.Byte Strings.Ascii Strings.String.
From Stdlib Require Import Numbers.DecimalString Numbers.DecimalPos.
From stdpp Require Import base numbers list strings gmap sorting.

Local Open Scope Z_scope.

(** ** Machine integers *)

Module CInt.

Definition wrap (bits x : Z) : Z := x mod 2 ^ bits.

Definition to_signed (bits x : Z) : Z :=
  let u := wrap bits x in
  if u <? 2 ^ (bits - 1) then u else u - 2 ^ bits.

(** [size_t] and [ssize_t] of the LP64 targets the project builds for. *)
Definition size_t (x : Z) : Z := wrap 64 x.
Definition ssize_t (x : Z) : Z := to_signed 64 x.
Definition uint16_t (x : Z) : Z := wrap 16 x.
Definition int (x : Z) : Z := to_signed 32 x.

Definition SIZE_MAX : Z := 2 ^ 64 - 1.
Definition SSIZE_MAX : Z := 2 ^ 63 - 1.

End CInt.

(** ** RTP header view *)

Module Rtp.

Import CInt.

(** The value of an octet read through [uint8_t]. *)
Definition u8 (b : byte) : Z := Z.of_N (Byte.to_N b).

(** [RtpHeader] is a view laid over bytes it does not own: the object is
    the memory it reads, addressed relative to [this].  A read outside
    the buffer the caller had in mind finds whatever the memory holds. *)
Definition RtpHeader : Type := Z -> byte.

(** [RtpPacket]'s enumerators. *)
Definition kRtpVersion : Z := 2.
Definition kRtpHeaderSize : Z := 12.
Definition kRtpTcpHeaderSize : Z := 4.

Section Fields.

Variable h : RtpHeader.

(** Modelled from the spec: the bit-field declarations of [RtpHeader] are
    in Rtsp.h; the positions are those of the data model -- version(2b),
    padding-flag(1b), extension-flag(1b), csrcCount(4b) in byte 0;
    marker(1b), payloadType(7b) in byte 1. *)
Definition version : Z := Z.shiftr (u8 (h 0)) 6.
Definition padding : Z := Z.land (Z.shiftr (u8 (h 0)) 5) 1.
Definition ext : Z := Z.land (Z.shiftr (u8 (h 0)) 4) 1.
Definition csrc : Z := Z.land (u8 (h 0)) 15.
Definition mark : Z := Z.shiftr (u8 (h 1)) 7.
Definition pt : Z := Z.land (u8 (h 1)) 127.

(** Address of the member [payload], the first byte after the 12 fixed
    ones. *)
Definition payload : Z := 12.

(** [#define AV_RB16(x) ((x[0] << 8) | x[1])] *)
Definition AV_RB16 (x : Z) : Z :=
  Z.lor (Z.shiftl (u8 (h x)) 8) (u8 (h (x + 1))).

Definition getCsrcSize : Z := size_t (Z.shiftl csrc 2).

Definition getExtSize : Z :=
  if ext =? 0 then 0
  else
    let ext_ptr := payload + getCsrcSize in
    size_t (Z.shiftl (AV_RB16 (ext_ptr + 2)) 2).

Definition getExtReserved : Z :=
  if ext =? 0 then 0
  else
    let ext_ptr := payload + getCsrcSize in
    uint16_t (AV_RB16 ext_ptr).

Definition getPayloadOffset : Z :=
  size_t (getCsrcSize + (if ext =? 0 then 0 else size_t (4 + getExtSize))).

Definition getPaddingSize (rtp_size : Z) : Z :=
  if padding =? 0 then 0
  else
    let end_ := rtp_size - 1 in
    u8 (h end_).

(** The operands of the two subtractions are converted to [size_t]; the
    result is converted to the return type [ssize_t]. *)
Definition getPayloadSize (rtp_size : Z) : Z :=
  let invalid_size := size_t (getPayloadOffset + getPaddingSize rtp_size) in
  ssize_t (size_t (size_t (size_t (ssize_t rtp_size) - invalid_size)
                   - size_t kRtpHeaderSize)).

(** The number of 32-bit words announced by the extension sub-header. *)
Definition extLenWords : Z := AV_RB16 (payload + 4 * csrc + 2).

End Fields.

(** A memory holding [l] from address 0 on, for concrete packets. *)
Definition buffer (l : list byte) : Z -> byte :=
  fun a => if a <? 0 then x00 else nth (Z.to_nat a) l x00.

(** [isRtp] and [isRtcp] overlay the header on [buf]. *)
Definition isRtp (buf : Z -> byte) (size : Z) : bool :=
  if size <? 2 then false
  else
    let header : RtpHeader := buf in
    ((pt header <? 64) || (pt header >=? 96)) && (version header =? kRtpVersion).

Definition isRtcp (buf : Z -> byte) (size : Z) : bool :=
  if size <? 2 then false
  else
    let header : RtpHeader := buf in
    (pt header >=? 64) && (pt header <? 96).

(** [RtpPacket]: the owned buffer [data()], [size()] bytes long, starts
    with the four bytes of the interleaved prefix. *)
Record RtpPacket : Type := mk_RtpPacket {
  data : Z -> byte;
  size : Z
}.

Definition getHeader (p : RtpPacket) : RtpHeader :=
  fun a => data p (a + kRtpTcpHeaderSize).

(** [size_t RtpPacket::getPayloadSize() const] *)
Definition RtpPacket_getPayloadSize (p : RtpPacket) : Z :=
  size_t (getPayloadSize (getHeader p) (size_t (size p - kRtpTcpHeaderSize))).

(** A padded packet with one CSRC and a one-word extension: 12 + 4 + 8
    bytes of header, 3 of payload, 2 of padding. *)
Definition padded_packet : list byte :=
  [ xb1; x60; x00; x01;  x00; x00; x00; x00;  x00; x00; x00; x2a;
    x00; x00; x00; x07;
    xbe; xde; x00; x01;  x10; x00; x00; x00;
    x01; x02; x03;  x00; x02 ]%byte.

End Rtp.

(** ** The [sscanf] conversions the file uses *)

Module Scan.

Import CInt.

Definition code (c : ascii) : Z := Z.of_N (N_of_ascii c).

(** [isspace] and [isdigit] of the C locale. *)
Definition isspace (c : ascii) : bool :=
  (code c =? 32) || ((9 <=? code c) && (code c <=? 13)).

Definition isdigit (c : ascii) : bool := (48 <=? code c) && (code c <=? 57).

(** [std::string::data()] read as a C string ends at the first NUL. *)
Fixpoint c_str (s : string) : string :=
  match s with
  | EmptyString => EmptyString
  | String c s' => if Ascii.eqb c zero then EmptyString else String c (c_str s')
  end.

Fixpoint skip_space (s : string) : string :=
  match s with
  | String c s' => if isspace c then skip_space s' else s
  | EmptyString => s
  end.

Fixpoint read_digits (acc : Z) (s : string) : Z * string :=
  match s with
  | String c s' =>
      if isdigit c then read_digits (10 * acc + (code c - 48)) s' else (acc, s)
  | EmptyString => (acc, s)
  end.

(** The subject sequence of a decimal conversion: white space, an optional
    sign, at least one digit.  The result is the sign, the magnitude and
    the unread input. *)
Definition read_number (s : string) : option (bool * Z * string) :=
  let s0 := skip_space s in
  let '(neg, s1) :=
    match s0 with
    | String c r =>
        if Ascii.eqb c "-" then (true, r)
        else if Ascii.eqb c "+" then (false, r) else (false, s0)
    | EmptyString => (false, s0)
    end in
  match s1 with
  | String c _ =>
      if isdigit c then let '(mag, rest) := read_digits 0 s1 in Some (neg, mag, rest)
      else None
  | EmptyString => None
  end.

Definition LONG_MAX : Z := 2 ^ 63 - 1.
Definition LONG_MIN : Z := - 2 ^ 63.
Definition ULONG_MAX : Z := 2 ^ 64 - 1.

(** [%d] stores [(int) strtol(..)] and [%hu] stores
    [(unsigned short) strtoul(..)], as glibc does: the [long] saturates,
    the store truncates. *)
Definition conv_d (neg : bool) (mag : Z) : Z :=
  int (if neg then Z.max (- mag) LONG_MIN else Z.min mag LONG_MAX).

Definition conv_hu (neg : bool) (mag : Z) : Z :=
  uint16_t (if ULONG_MAX <? mag then ULONG_MAX
            else if neg then wrap 64 (- mag) else mag).

(** [%<width>[^stop]]: the longest prefix of at most [width] characters
    without [stop]. *)
Fixpoint read_scanset (width : nat) (stop : ascii) (s : string) : string * string :=
  match width, s with
  | S w, String c s' =>
      if Ascii.eqb c stop then (EmptyString, s)
      else let '(tok, rest) := read_scanset w stop s' in (String c tok, rest)
  | _, _ => (EmptyString, s)
  end.

Inductive directive : Type :=
| D_space
| D_char (c : ascii)
| D_d
| D_hu
| D_notin (width : nat) (stop : ascii).

Inductive value : Type :=
| V_int (n : Z)
| V_str (s : string).

(** The values assigned, in order, until the first directive that fails;
    the integer [sscanf] returns is their number whenever one was
    assigned. *)
Fixpoint run (fmt : list directive) (s : string) : list value :=
  match fmt with
  | [] => []
  | D_space :: fmt' => run fmt' (skip_space s)
  | D_char c :: fmt' =>
      match s with
      | String c' s' => if Ascii.eqb c c' then run fmt' s' else []
      | EmptyString => []
      end
  | D_d :: fmt' =>
      match read_number s with
      | Some (neg, mag, rest) => V_int (conv_d neg mag) :: run fmt' rest
      | None => []
      end
  | D_hu :: fmt' =>
      match read_number s with
      | Some (neg, mag, rest) => V_int (conv_hu neg mag) :: run fmt' rest
      | None => []
      end
  | D_notin w stop :: fmt' =>
      match read_scanset w stop s with
      | (EmptyString, _) => []
      | (tok, rest) => V_str tok :: run fmt' rest
      end
  end.

Definition sscanf (str : string) (fmt : list directive) : list value :=
  run fmt (c_str str).

End Scan.

(** ** SDP tracks and the payload-type table *)

Module Sdp.

Import CInt Scan.

Inductive TrackType : Type :=
| TrackInvalid
| TrackVideo
| TrackAudio
| TrackTitle.

Definition TrackType_eqb (a b : TrackType) : bool :=
  match a, b with
  | TrackInvalid, TrackInvalid | TrackVideo, TrackVideo
  | TrackAudio, TrackAudio | TrackTitle, TrackTitle => true
  | _, _ => false
  end.

(** [std::multimap<string,string>] in iteration order: keys ascending,
    equal keys in insertion order. *)
Definition multimap : Type := list (string * string).

(** [emplace] puts the pair after the last key not greater than its own. *)
Fixpoint mm_emplace (k v : string) (m : multimap) : multimap :=
  match m with
  | [] => [(k, v)]
  | (k', v') :: m' =>
      if String.ltb k k' then (k, v) :: m else (k', v') :: mm_emplace k v m'
  end.

(** [find]: the entries before the first one with the key, and the entries
    from it on ([end()] is the empty rest). *)
Fixpoint mm_find (k : string) (m : multimap) : multimap * multimap :=
  match m with
  | [] => ([], [])
  | (k', v') :: m' =>
      if String.eqb k' k then ([], m)
      else let '(before, it) := mm_find k m' in ((k', v') :: before, it)
  end.

(** The members of [SdpTrack] the parser resolves.  The range members
    [_start], [_end] and [_duration] are floating point and are left
    out, with the range step of [load] that writes nothing else. *)
Record SdpTrack : Type := mkSdpTrack {
  _t : string;
  _b : string;
  _port : Z;
  _pt : Z;
  _channel : Z;
  _samplerate : Z;
  _type : TrackType;
  _codec : string;
  _fmtp : string;
  _control : string;
  _attr : multimap;
  _other : gmap ascii string
}.

(** The assignment to one member. *)
Definition set_t (x : string) (tr : SdpTrack) : SdpTrack :=
  mkSdpTrack x (_b tr) (_port tr) (_pt tr) (_channel tr) (_samplerate tr)
    (_type tr) (_codec tr) (_fmtp tr) (_control tr) (_attr tr) (_other tr).

Definition set_b (x : string) (tr : SdpTrack) : SdpTrack :=
  mkSdpTrack (_t tr) x (_port tr) (_pt tr) (_channel tr) (_samplerate tr)
    (_type tr) (_codec tr) (_fmtp tr) (_control tr) (_attr tr) (_other tr).

Definition set_port (x : Z) (tr : SdpTrack) : SdpTrack :=
  mkSdpTrack (_t tr) (_b tr) x (_pt tr) (_channel tr) (_samplerate tr)
    (_type tr) (_codec tr) (_fmtp tr) (_control tr) (_attr tr) (_other tr).

Definition set_pt (x : Z) (tr : SdpTrack) : SdpTrack :=
  mkSdpTrack (_t tr) (_b tr) (_port tr) x (_channel tr) (_samplerate tr)
    (_type tr) (_codec tr) (_fmtp tr) (_control tr) (_attr tr) (_other tr).

Definition set_channel (x : Z) (tr : SdpTrack) : SdpTrack :=
  mkSdpTrack (_t tr) (_b tr) (_port tr) (_pt tr) x (_samplerate tr)
    (_type tr) (_codec tr) (_fmtp tr) (_control tr) (_attr tr) (_other tr).

Definition set_samplerate (x : Z) (tr : SdpTrack) : SdpTrack :=
  mkSdpTrack (_t tr) (_b tr) (_port tr) (_pt tr) (_channel tr) x
    (_type tr) (_codec tr) (_fmtp tr) (_control tr) (_attr tr) (_other tr).

Definition set_type (x : TrackType) (tr : SdpTrack) : SdpTrack :=
  mkSdpTrack (_t tr) (_b tr) (_port tr) (_pt tr) (_channel tr) (_samplerate tr)
    x (_codec tr) (_fmtp tr) (_control tr) (_attr tr) (_other tr).

Definition set_codec (x : string) (tr : SdpTrack) : SdpTrack :=
  mkSdpTrack (_t tr) (_b tr) (_port tr) (_pt tr) (_channel tr) (_samplerate tr)
    (_type tr) x (_fmtp tr) (_control tr) (_attr tr) (_other tr).

Definition set_fmtp (x : string) (tr : SdpTrack) : SdpTrack :=
  mkSdpTrack (_t tr) (_b tr) (_port tr) (_pt tr) (_channel tr) (_samplerate tr)
    (_type tr) (_codec tr) x (_control tr) (_attr tr) (_other tr).

Definition set_control (x : string) (tr : SdpTrack) : SdpTrack :=
  mkSdpTrack (_t tr) (_b tr) (_port tr) (_pt tr) (_channel tr) (_samplerate tr)
    (_type tr) (_codec tr) (_fmtp tr) x (_attr tr) (_other tr).

Definition set_attr (x : multimap) (tr : SdpTrack) : SdpTrack :=
  mkSdpTrack (_t tr) (_b tr) (_port tr) (_pt tr) (_channel tr) (_samplerate tr)
    (_type tr) (_codec tr) (_fmtp tr) (_control tr) x (_other tr).

Definition set_other (x : gmap ascii string) (tr : SdpTrack) : SdpTrack :=
  mkSdpTrack (_t tr) (_b tr) (_port tr) (_pt tr) (_channel tr) (_samplerate tr)
    (_type tr) (_codec tr) (_fmtp tr) (_control tr) (_attr tr) x.

(** Modelled from the spec: the member initialisers of [SdpTrack] are in
    Rtsp.h; the payload type starts at the sentinel 0xFF (unset), the
    numbers at zero ("unset" for the sample rate), the texts and
    containers empty.  [_type] is assigned before a track is stored. *)
Definition SdpTrack_new : SdpTrack :=
  {| _t := ""; _b := ""; _port := 0; _pt := 255; _channel := 0;
     _samplerate := 0; _type := TrackInvalid; _codec := ""; _fmtp := "";
     _control := ""; _attr := []; _other := ∅ |}.

(** Modelled from the spec: [findSubString] is defined in
    Common/Parser.cpp.  With a start marker it yields the text after the
    marker's first occurrence, with an end marker the text before the
    first occurrence of that, and the empty text when a marker is
    absent. *)
Definition findSubString (buf : string) (start end_ : option string) : string :=
  let buf := c_str buf in
  let msg_start :=
    match start with
    | None => Some buf
    | Some st =>
        match String.index 0 st buf with
        | Some i =>
            let from := (i + String.length st)%nat in
            Some (String.substring from (String.length buf - from) buf)
        | None => None
        end
    end in
  match msg_start with
  | None => ""%string
  | Some msg =>
      match end_ with
      | None => msg
      | Some e =>
          match String.index 0 e msg with
          | Some j => String.substring 0 j msg
          | None => ""%string
          end
      end
  end.

(** Modelled from the spec: [split] and [trim] are the toolkit's; lines
    are split on the line feed and trimmed of surrounding white space
    (blank, carriage return, line feed, tab).  [load] takes the two
    functions as parameters; these are the ones of the examples. *)
Fixpoint split_lines (cur : string) (s : string) : list string :=
  match s with
  | EmptyString => [String.rev cur]
  | String c s' =>
      if Ascii.eqb c "010" then String.rev cur :: split_lines EmptyString s'
      else split_lines (String c cur) s'
  end.

Definition toolkit_split (s : string) : list string := split_lines EmptyString s.

Definition trim_char (c : ascii) : bool :=
  Ascii.eqb c " " || Ascii.eqb c "013" || Ascii.eqb c "010" || Ascii.eqb c "009".

Fixpoint trim_front (s : string) : string :=
  match s with
  | String c s' => if trim_char c then trim_front s' else s
  | EmptyString => s
  end.

Definition toolkit_trim (s : string) : string :=
  trim_front (String.rev (trim_front (String.rev s))).

Definition toTrackType (str : string) : TrackType :=
  if String.eqb str "" then TrackTitle
  else if String.eqb str "video" then TrackVideo
  else if String.eqb str "audio" then TrackAudio
  else TrackInvalid.

Section PayloadTable.

Context {CodecId : Type} `{Countable CodecId}.

(** One [XX(name, type, value, clock_rate, channel, codec_id)] line of the
    macro [RTP_PT_MAP]. *)
Record pt_entry : Type := XX {
  pt_name : string;
  pt_type : TrackType;
  pt_value : Z;
  pt_clock_rate : Z;
  pt_channel : Z;
  pt_codec_id : CodecId
}.

(** The macro is defined in Rtsp.h: the table is a parameter. *)
Variable RTP_PT_MAP : list pt_entry.

(** [switch (pt) { case value: ... }] over the lines of the table. *)
Definition switch_pt (pt : Z) : option pt_entry :=
  List.find (fun e => pt_value e =? pt) RTP_PT_MAP.

Definition RtpPayload_getClockRate (pt : Z) : Z :=
  match switch_pt pt with
  | Some e => pt_clock_rate e
  | None => 90000
  end.

Definition RtpPayload_getAudioChannel (pt : Z) : Z :=
  match switch_pt pt with
  | Some e => pt_channel e
  | None => 1
  end.

Definition RtpPayload_getTrackType (pt : Z) : TrackType :=
  match switch_pt pt with
  | Some e => pt_type e
  | None => TrackInvalid
  end.

Definition RtpPayload_getName (pt : Z) : string :=
  match switch_pt pt with
  | Some e => pt_name e
  | None => "unknown payload type"
  end.

(** [struct info] of [getPayloadType]. *)
Record info : Type := mk_info {
  clock_rate : Z;
  channels : Z;
  pt : Z
}.

(** [std::map]'s constructor from an initializer list inserts the pairs in
    order; an insertion whose key is present changes nothing. *)
Definition map_insert {V : Type} (m : gmap CodecId V) (kv : CodecId * V) :
  gmap CodecId V :=
  match m !! kv.1 with
  | Some _ => m
  | None => <[kv.1 := kv.2]> m
  end.

(** [#define XX(..) { codec_id, info { clock_rate, channel, value } },] *)
Definition info_of (e : pt_entry) : info :=
  mk_info (pt_clock_rate e) (pt_channel e) (pt_value e).

Definition s_map : gmap CodecId info :=
  fold_left map_insert (map (fun e => (pt_codec_id e, info_of e)) RTP_PT_MAP) ∅.

(** The interface [Track], with the two accessors of [AudioTrack] the
    function reaches through its cast. *)
Class Track (T : Type) : Type := {
  getCodecId : T -> CodecId;
  getTrackType : T -> TrackType;
  getAudioSampleRate : T -> Z;
  getAudioChannel : T -> Z
}.

Definition RtpPayload_getPayloadType {T : Type} `{Track T} (track : T) : Z :=
  match s_map !! getCodecId track with
  | None => -1
  | Some it =>
      if TrackType_eqb (getTrackType track) TrackAudio then
        if negb (getAudioSampleRate track =? clock_rate it)
           || negb (getAudioChannel track =? channels it)
        then -1
        else pt it
      else pt it
  end.

End PayloadTable.

Section Load.

Context {CodecId : Type} `{Countable CodecId}.
Context {T : Type} `{!Track (CodecId := CodecId) T}.

(** The toolkit's [split(sdp, "\n")] and [trim(line)]. *)
Variable split : string -> list string.
Variable trim : string -> string.

Variable RTP_PT_MAP : list (pt_entry (CodecId := CodecId)).

(** [Factory::getTrackBySdp], the codec-construction collaborator: the
    track it builds from a description, if any. *)
Variable getTrackBySdp : SdpTrack -> option T.

(** The local [int pt] of the two pruning loops is not initialised: a
    turn whose [sscanf] assigns nothing reads what the slot of [pt] holds.
    Within a loop nothing else is stored there, so that is the number the
    turn before left.  What the slot holds when a loop is entered the
    program does not determine: [indeterminate i key] is that value for
    the loop over [key] on the track at index [i] of the vector. *)
Variable indeterminate : nat -> string -> Z.

(** The formats of [load]. *)
Definition fmt_media : list directive :=
  [D_space; D_notin 15 " "; D_space; D_d; D_space; D_notin 15 " "; D_space; D_d].

Definition fmt_media_count : list directive :=
  [D_space; D_notin 15 " "; D_space; D_d; D_char "/"; D_d;
   D_space; D_notin 15 " "; D_space; D_d].

Definition fmt_pt : list directive := [D_d].

Definition fmt_rtpmap_channels : list directive :=
  [D_d; D_space; D_notin 15 "/"; D_char "/"; D_d; D_char "/"; D_d].

Definition fmt_rtpmap : list directive :=
  [D_d; D_space; D_notin 15 "/"; D_char "/"; D_d].

(** The two attempts on a media line: what ends up in [type], [port] and
    [pt] when one of them fills all its arguments. *)
Definition scan_media (opt_val : string) : option (string * Z * Z) :=
  match sscanf opt_val fmt_media with
  | [V_str type; V_int port; V_str rtp; V_int pt] => Some (type, port, pt)
  | _ =>
      match sscanf opt_val fmt_media_count with
      | [V_str type; V_int port; V_int port_count; V_str rtp; V_int pt] =>
          Some (type, port, pt)
      | _ => None
      end
  end.

(** The first block of [load] keeps a shared pointer [track] next to
    [_track_vec]; it points to the last element of the vector, or, after
    a media line that did not parse, to a track that is in no vector.
    [pushed] is the vector without the track [track] points to. *)
Record load_state : Type := mk_load_state {
  pushed : list SdpTrack;
  track : SdpTrack;
  track_in_vec : bool
}.

Definition track_vec (st : load_state) : list SdpTrack :=
  pushed st ++ (if track_in_vec st then [track st] else []).

Definition on_track (f : SdpTrack -> SdpTrack) (st : load_state) : load_state :=
  {| pushed := pushed st; track := f (track st); track_in_vec := track_in_vec st |}.

Definition load_line (st : load_state) (line : string) : load_state :=
  match trim line with
  | String opt (String c1 opt_val) =>
      if negb (Ascii.eqb c1 "=") then st
      else if Ascii.eqb opt "t" then on_track (set_t opt_val) st
      else if Ascii.eqb opt "b" then on_track (set_b opt_val) st
      else if Ascii.eqb opt "m" then
        match scan_media opt_val with
        | Some (type, port, pt) =>
            {| pushed := track_vec st;
               track :=
                 set_port (uint16_t port)
                   (set_type (toTrackType type)
                      (set_channel (RtpPayload_getAudioChannel RTP_PT_MAP pt)
                         (set_samplerate (RtpPayload_getClockRate RTP_PT_MAP pt)
                            (set_pt pt SdpTrack_new))));
               track_in_vec := true |}
        | None =>
            {| pushed := track_vec st; track := SdpTrack_new; track_in_vec := false |}
        end
      else if Ascii.eqb opt "a" then
        let attr := findSubString opt_val None (Some ":"%string) in
        if String.eqb attr "" then
          on_track (fun tr => set_attr (mm_emplace opt_val "" (_attr tr)) tr) st
        else
          on_track
            (fun tr =>
               set_attr
                 (mm_emplace attr (findSubString opt_val (Some ":"%string) None)
                    (_attr tr)) tr) st
      else on_track (fun tr => set_other (<[opt := opt_val]> (_other tr)) tr) st
  | _ => st
  end.

Definition load_lines (sdp : string) : load_state :=
  fold_left load_line (split sdp)
    {| pushed := []; track := set_type TrackTitle SdpTrack_new; track_in_vec := true |}.

(** The number [sscanf(.., "%d", &pt)] assigns to [pt], if any. *)
Definition leading_pt (value : string) : option Z :=
  match sscanf value fmt_pt with
  | [V_int pt] => Some pt
  | _ => None
  end.

(** What [pt] holds after [sscanf(.., "%d", &pt)], its slot having held
    [slot] before. *)
Definition scanned_pt (slot : Z) (value : string) : Z :=
  match leading_pt value with
  | Some pt => pt
  | None => slot
  end.

(** The test both pruning loops start with,
    [track._pt != pt && track._pt != 0xff]. *)
Definition pt_mismatch (slot : Z) (tr : SdpTrack) (value : string) : bool :=
  let pt := scanned_pt slot value in
  negb (_pt tr =? pt) && negb (_pt tr =? 255).

(** One turn of the [rtpmap] loop, entered with [slot] in the slot of
    [pt]: the track after it, and whether the entry is erased.  The two
    later [sscanf] calls assign to [pt] the number the first one did. *)
Definition rtpmap_body (slot : Z) (tr : SdpTrack) (rtpmap : string) : SdpTrack * bool :=
  if pt_mismatch slot tr rtpmap then (tr, true)
  else
    match sscanf rtpmap fmt_rtpmap_channels with
    | [V_int pt; V_str codec; V_int samplerate; V_int channel] =>
        (set_channel channel (set_samplerate samplerate (set_codec codec tr)), false)
    | _ =>
        match sscanf rtpmap fmt_rtpmap with
        | [V_int pt; V_str codec; V_int samplerate] =>
            (set_samplerate samplerate (set_codec codec (set_pt pt tr)), false)
        | _ => (tr, false)
        end
    end.

(** One turn of the [fmtp] loop. *)
Definition fmtp_body (slot : Z) (tr : SdpTrack) (fmtp : string) : SdpTrack * bool :=
  if pt_mismatch slot tr fmtp then (tr, true)
  else (set_fmtp (findSubString fmtp (Some " "%string) None) tr, false).

(** [for (it = ..; it != end() && it->first == key;)] with a body that
    either erases the entry or steps over it: the track after the loop,
    and the entries from the starting position on.  [slot] is what the
    slot of the body's [pt] holds when the turn starts; the turn leaves
    there the number its [sscanf] read, or what it found. *)
Fixpoint prune_from (key : string) (body : Z -> SdpTrack -> string -> SdpTrack * bool)
    (slot : Z) (tr : SdpTrack) (it : multimap) : SdpTrack * multimap :=
  match it with
  | [] => (tr, [])
  | (k, v) :: rest =>
      if String.eqb k key then
        let '(tr', erase) := body slot tr v in
        let slot' := scanned_pt slot v in
        if erase then prune_from key body slot' tr' rest
        else
          let '(tr'', rest') := prune_from key body slot' tr' rest in
          (tr'', (k, v) :: rest')
      else (tr, it)
  end.

Definition prune_loop (key : string) (body : Z -> SdpTrack -> string -> SdpTrack * bool)
    (slot : Z) (tr : SdpTrack) : SdpTrack :=
  let '(before, it) := mm_find key (_attr tr) in
  let '(tr', it') := prune_from key body slot tr it in
  set_attr (before ++ it') tr'.

Definition rtpmap_loop : Z -> SdpTrack -> SdpTrack := prune_loop "rtpmap" rtpmap_body.

Definition fmtp_loop : Z -> SdpTrack -> SdpTrack := prune_loop "fmtp" fmtp_body.

Definition control_step (tr : SdpTrack) : SdpTrack :=
  match mm_find "control" (_attr tr) with
  | (_, (_, second) :: _) => set_control second tr
  | (_, []) => tr
  end.

Definition samplerate_fallback (tr : SdpTrack) : SdpTrack :=
  if (_samplerate tr =? 0) && TrackType_eqb (_type tr) TrackVideo then
    set_samplerate 90000 tr
  else if (_samplerate tr =? 0) && TrackType_eqb (_type tr) TrackAudio then
    match getTrackBySdp tr with
    | Some t => set_samplerate (getAudioSampleRate t) tr
    | None => tr
    end
  else tr.

(** The second block of [load], for the track at index [i].  Its first
    step, on the [range] attribute, writes the floating-point members
    only. *)
Definition resolve (i : nat) (tr : SdpTrack) : SdpTrack :=
  samplerate_fallback
    (control_step
       (fmtp_loop (indeterminate i "fmtp") (rtpmap_loop (indeterminate i "rtpmap") tr))).

(** [SdpParser::load]: the track vector it leaves in [_track_vec]. *)
Definition load (sdp : string) : list SdpTrack :=
  imap resolve (track_vec (load_lines sdp)).

End Load.

(** [SdpParser::getAvailableTrack] *)
Definition getAvailableTrack_step (acc : list SdpTrack * bool * bool) (tr : SdpTrack) :
  list SdpTrack * bool * bool :=
  let '(ret, audio_added, video_added) := acc in
  if TrackType_eqb (_type tr) TrackAudio then
    if negb audio_added then (ret ++ [tr], true, video_added) else acc
  else if TrackType_eqb (_type tr) TrackVideo then
    if negb video_added then (ret ++ [tr], audio_added, true) else acc
  else acc.

(** The loop from any state of the three locals. *)
Definition available_from (ret : list SdpTrack) (audio_added video_added : bool)
    (_track_vec : list SdpTrack) : list SdpTrack :=
  (fold_left getAvailableTrack_step _track_vec (ret, audio_added, video_added)).1.1.

Definition getAvailableTrack (_track_vec : list SdpTrack) : list SdpTrack :=
  available_from [] false false _track_vec.

(** [SdpParser::getTrack] *)
Definition getTrack (_track_vec : list SdpTrack) (type : TrackType) : option SdpTrack :=
  List.find (fun tr => TrackType_eqb (_type tr) type) _track_vec.

(** The decimal text [operator<<] writes for an integer. *)
Definition print_int (n : Z) : string := NilEmpty.string_of_int (Z.to_int n).

Definition CRLF : string := String "013" (String "010" "").

(** [getAttrSdp]: one turn of the loop over the attributes, on the pointer
    [ptr] to the remembered [control] entry and the text printed so far. *)
Definition getAttrSdp_step (st : option (string * string) * string)
    (pr : string * string) : option (string * string) * string :=
  let '(ptr, printer) := st in
  if String.eqb pr.1 "control" then (Some pr, printer)
  else if String.eqb pr.2 "" then (ptr, printer +:+ "a=" +:+ pr.1 +:+ CRLF)
  else (ptr, printer +:+ "a=" +:+ pr.1 +:+ ":" +:+ pr.2 +:+ CRLF).

Definition getAttrSdp (attr : multimap) (printer : string) : string :=
  let '(ptr, printer) := fold_left getAttrSdp_step attr (None, printer) in
  match ptr with
  | Some pr => printer +:+ "a=" +:+ pr.1 +:+ ":" +:+ pr.2 +:+ CRLF
  | None => printer
  end.

(** [SdpTrack::toString].  The title text comes from [TitleSdp] and the
    floating-point duration: it is a parameter. *)
Definition toString (title : SdpTrack -> string) (tr : SdpTrack) (port : Z) : string :=
  match _type tr with
  | TrackTitle => title tr
  | TrackAudio | TrackVideo =>
      let _printer :=
        if TrackType_eqb (_type tr) TrackAudio then
          "m=audio " +:+ print_int port +:+ " RTP/AVP " +:+ print_int (_pt tr) +:+ CRLF
        else
          "m=video " +:+ print_int port +:+ " RTP/AVP " +:+ print_int (_pt tr) +:+ CRLF in
      let _printer :=
        if negb (String.eqb (_b tr) "") then _printer +:+ "b=" +:+ _b tr +:+ CRLF
        else _printer in
      getAttrSdp (_attr tr) _printer
  | TrackInvalid => ""
  end.

End Sdp.

(** ** The port-pair pool and the socket-pair allocator *)

Module Port.

Import CInt Scan.

(** [PortManager<type>]: the deque [_port_pair_pool], front first.  The
    mutex serialises the member functions; each is one step here. *)
Record PortManager : Type := mk_PortManager {
  _port_pair_pool : list Z
}.

(** The lambda [func] of the constructor: the two numbers of the
    configured range, 30000 and 35000 where the text gives none. *)
Definition func (str : string) (index : nat) : Z :=
  let port : list Z :=
    match sscanf str [D_hu; D_char "-"; D_hu] with
    | [V_int p0; V_int p1] => [p0; p1]
    | [V_int p0] => [p0; 35000]
    | _ => [30000; 35000]
    end in
  nth index port 0.

(** [deque::insert(it, x)] with the iterator [begin() + it]. *)
Definition deque_insert (it : nat) (x : Z) (pool : list Z) : list Z :=
  take it pool ++ x :: drop it pool.

(** The loop of [setRange]; [rng k] is the [k]-th number drawn from the
    generator.  The loop counts a 16-bit position upwards, so it ends
    before the fuel of [setRange] does. *)
Fixpoint setRange_loop (fuel : nat) (rng : nat -> Z) (k : nat)
    (start_pos end_pos : Z) (it : nat) (pool : list Z) : list Z :=
  match fuel with
  | O => pool
  | S fuel' =>
      if start_pos <? end_pos then
        let pool' := deque_insert it start_pos pool in
        let it' := Z.to_nat (rng k mod (1 + Z.of_nat (length pool'))) in
        setRange_loop fuel' rng (S k) (uint16_t (start_pos + 1)) end_pos it' pool'
      else pool
  end.

Definition setRange (rng : nat -> Z) (start_pos end_pos : Z) (pm : PortManager) :
  PortManager :=
  {| _port_pair_pool :=
       setRange_loop (Z.to_nat 65536) rng 0 (uint16_t start_pos) (uint16_t end_pos) 0
         (_port_pair_pool pm) |}.

(** The constructor, for the text configured under [RtpProxy::kPortRange].
    The [assert] is compiled out under [NDEBUG]; otherwise a range of
    fewer than 36 ports ends the construction. *)
Definition PortManager_new (NDEBUG : bool) (kPortRange : string) (rng : nat -> Z) :
  option PortManager :=
  let s_min_port := func kPortRange 0 in
  let s_max_port := func kPortRange 1 in
  if negb NDEBUG && negb (s_max_port >=? s_min_port + 36 - 1) then None
  else
    Some (setRange rng ((s_min_port + 1) / 2) (s_max_port / 2)
            {| _port_pair_pool := [] |}).

(** [getPortPair]: nothing on an empty pool, else the front position,
    owned by the returned handle, and the pool without it. *)
Definition getPortPair (pm : PortManager) : option (Z * PortManager) :=
  match _port_pair_pool pm with
  | [] => None
  | pos :: rest => Some (pos, {| _port_pair_pool := rest |})
  end.

(** The deleter of the handle, run when its last owner goes away:
    [weak_self.lock()] fails once the pool is gone. *)
Definition handle_deleter (weak_self : option PortManager) (pos : Z) :
  option PortManager :=
  match weak_self with
  | None => None
  | Some strong_self =>
      Some {| _port_pair_pool := _port_pair_pool strong_self ++ [pos] |}
  end.

(** The ports [makeSockPair_l] binds for a handle, as the [uint16_t]
    parameters of [bindUdpSock] and [listen] receive them. *)
Definition sock0_port (sock_pair : Z) : Z := uint16_t (2 * sock_pair).
Definition sock1_port (sock_pair : Z) : Z := uint16_t (2 * sock_pair + 1).

(** A pool together with the handles that are alive. *)
Record pool_state : Type := mk_pool_state {
  instance : PortManager;
  handles : list Z
}.

Inductive pool_op : Type :=
| Acquire
| Release (h : nat).

(** [Acquire] calls [getPortPair] and keeps the handle; [Release h] drops
    the last owner of the [h]-th live handle, which runs its deleter on
    the pool.  The result of an [Acquire] is reported. *)
Definition pool_step (st : pool_state) (o : pool_op) : pool_state * option (option Z) :=
  match o with
  | Acquire =>
      match getPortPair (instance st) with
      | None => (st, Some None)
      | Some (pos, pm) =>
          ({| instance := pm; handles := handles st ++ [pos] |}, Some (Some pos))
      end
  | Release h =>
      match handles st !! h with
      | None => (st, None)
      | Some pos =>
          match handle_deleter (Some (instance st)) pos with
          | Some pm => ({| instance := pm; handles := delete h (handles st) |}, None)
          | None => (st, None)
          end
      end
  end.

Definition pool_run (ops : list pool_op) (st : pool_state) : pool_state :=
  fold_left (fun st o => (pool_step st o).1) ops st.

Section Retry.

(** The process state the allocator works on, and the exceptions derived
    from [std::exception] it may see. *)
Variables World Exn : Type.

(** [PortManager<0>::Instance().makeSockPair(..)] for [true] and
    [PortManager<1>::Instance().makeSockPair(..)] for [false]: the state
    it leaves, and the exception if it throws. *)
Variable PortManager_makeSockPair : bool -> World -> World * option Exn.

(** [WarnL << "open socket failed:" << ex.what() << ", retry: " << try_count] *)
Variable WarnL : Exn -> Z -> World -> World.

(** [while (true)] of the free function [makeSockPair], from a given
    [try_count] on; without fuel the loop has no result. *)
Fixpoint makeSockPair_loop (fuel : nat) (is_udp : bool) (try_count : Z) (w : World) :
  option (World * option Exn) :=
  match fuel with
  | O => None
  | S fuel' =>
      match PortManager_makeSockPair is_udp w with
      | (w', None) => Some (w', None)
      | (w', Some ex) =>
          let try_count := int (try_count + 1) in
          if try_count =? 3 then Some (w', Some ex)
          else makeSockPair_loop fuel' is_udp try_count (WarnL ex try_count w')
      end
  end.

Definition makeSockPair (fuel : nat) (is_udp : bool) (w : World) :
  option (World * option Exn) :=
  makeSockPair_loop fuel is_udp 0 w.

End Retry.

End Port.

(** ** [PortManager::makeSockPair] *)

Module Sock.

Import CInt Scan Port.

(** The sockets of one call: the two of the caller's [pair], and the two
    of [new_pair], made for the other protocol. *)
Inductive socket : Type :=
| pair_first
| pair_second
| new_pair_first
| new_pair_second.

Section Sockets.

(** The system the sockets live in, with [Socket::bindUdpSock(port,
    local_ip, re_use_port)] and [Socket::listen(port, local_ip)] of the
    toolkit: the state they leave and whether they succeeded. *)
Context {OS : Type}.
Variable bindUdpSock : socket -> Z -> string -> bool -> OS -> OS * bool.
Variable listen : socket -> Z -> string -> OS -> OS * bool.

(** [makeSockPair_l]: the state it leaves and [what()] of the
    [runtime_error] it throws, if it throws.  When it returns, the
    callbacks it has set on the two sockets own a copy of the handle
    [sock_pair]. *)
Definition makeSockPair_l (sock_pair : Z) (sock0 sock1 : socket) (local_ip : string)
    (re_use_port is_udp : bool) (os : OS) : OS * option string :=
  if is_udp then
    let '(os, ok) := bindUdpSock sock0 (sock0_port sock_pair) local_ip re_use_port os in
    if negb ok then (os, Some "open udp socket[0] failed"%string)
    else
      let '(os, ok) := bindUdpSock sock1 (sock1_port sock_pair) local_ip re_use_port os in
      if negb ok then (os, Some "open udp socket[1] failed"%string)
      else (os, None)
  else
    let '(os, ok) := listen sock0 (sock0_port sock_pair) local_ip os in
    if negb ok then (os, Some "listen tcp socket[0] failed"%string)
    else
      let '(os, ok) := listen sock1 (sock1_port sock_pair) local_ip os in
      if negb ok then (os, Some "listen tcp socket[1] failed"%string)
      else (os, None).

(** What a call of the member [makeSockPair] leaves: the system, the
    pool, the exception thrown, and the pair index whose handle the
    callbacks of the caller's sockets own. *)
Record outcome : Type := mk_outcome {
  os_after : OS;
  pool_after : PortManager;
  thrown : option string;
  owned : option Z
}.

(** [PortManager::makeSockPair], called with a [pair] of sockets whose
    callbacks own no handle yet.  An exception from the first
    [makeSockPair_l] unwinds through the only owner of the handle, the
    local [sock_pair], whose deleter then runs on this pool; after the
    first [makeSockPair_l] has returned, the sockets of [pair] own the
    handle, whatever becomes of [new_pair]. *)
Definition PortManager_makeSockPair (pm : PortManager) (local_ip : string)
    (re_use_port is_udp : bool) (os : OS) : outcome :=
  match getPortPair pm with
  | None =>
      {| os_after := os; pool_after := pm;
         thrown := Some "none reserved port in pool"%string; owned := None |}
  | Some (sock_pair, pm) =>
      match makeSockPair_l sock_pair pair_first pair_second local_ip re_use_port
              is_udp os with
      | (os, Some what) =>
          {| os_after := os;
             pool_after :=
               match handle_deleter (Some pm) sock_pair with
               | Some pm' => pm'
               | None => pm
               end;
             thrown := Some what; owned := None |}
      | (os, None) =>
          match makeSockPair_l sock_pair new_pair_first new_pair_second local_ip
                  re_use_port (negb is_udp) os with
          | (os, what) =>
              {| os_after := os; pool_after := pm; thrown := what;
                 owned := Some sock_pair |}
          end
      end
  end.

End Sockets.

End Sock.

(** ** RTP on the wire: byte order, SSRC, interleaved prefix, accessors *)

Module Wire.

Import CInt Rtp Scan.

Definition uint8_t (x : Z) : Z := wrap 8 x.
Definition uint32_t (x : Z) : Z := wrap 32 x.
Definition uint64_t (x : Z) : Z := wrap 64 x.

(** The octet with a given value, as a [char] of a buffer holds it. *)
Definition to_byte (x : Z) : byte :=
  match Byte.of_N (Z.to_N (uint8_t x)) with
  | Some b => b
  | None => x00
  end.

(** The byte order of the host. *)
Inductive byte_order : Type :=
| LittleEndian
| BigEndian.

(** Octet [k] of a value, counted from the least significant one. *)
Definition octet (x k : Z) : Z := (x / 2 ^ (8 * k)) mod 256.

Section Host.

Variable host : byte_order.

(** [*(uint16_t * )(m + a)] and [*(uint32_t * )(m + a)]: the value a host
    reads from the bytes at an address. *)
Definition load16 (m : Z -> byte) (a : Z) : Z :=
  match host with
  | LittleEndian => u8 (m a) + 2 ^ 8 * u8 (m (a + 1))
  | BigEndian => 2 ^ 8 * u8 (m a) + u8 (m (a + 1))
  end.

Definition load32 (m : Z -> byte) (a : Z) : Z :=
  match host with
  | LittleEndian =>
      u8 (m a) + 2 ^ 8 * u8 (m (a + 1)) + 2 ^ 16 * u8 (m (a + 2))
      + 2 ^ 24 * u8 (m (a + 3))
  | BigEndian =>
      2 ^ 24 * u8 (m a) + 2 ^ 16 * u8 (m (a + 1)) + 2 ^ 8 * u8 (m (a + 2))
      + u8 (m (a + 3))
  end.

(** The four bytes of a [uint32_t] object, lowest address first. *)
Definition store32 (x : Z) : list Z :=
  match host with
  | LittleEndian => [octet x 0; octet x 1; octet x 2; octet x 3]
  | BigEndian => [octet x 3; octet x 2; octet x 1; octet x 0]
  end.

(** [htonl], [ntohl] and [ntohs] of the C library: the octets are turned
    round on a little-endian host and left alone on a big-endian one. *)
Definition htonl (x : Z) : Z :=
  match host with
  | LittleEndian =>
      2 ^ 24 * octet x 0 + 2 ^ 16 * octet x 1 + 2 ^ 8 * octet x 2 + octet x 3
  | BigEndian => x
  end.

Definition ntohl (x : Z) : Z := htonl x.

Definition ntohs (x : Z) : Z :=
  match host with
  | LittleEndian => 2 ^ 8 * octet x 0 + octet x 1
  | BigEndian => x
  end.

(** The digit [%X] writes for a value below sixteen. *)
Definition hex (n : Z) : ascii :=
  ascii_of_N (Z.to_N (if n <? 10 then 48 + n else 55 + n)).

(** [sprintf(p, "%02X", b)] for an octet [b]: two digits and the
    terminator. *)
Definition sprintf_02X (b : Z) : list ascii := [hex (b / 16); hex (b mod 16); zero].

(** The characters [s] written into [buf] from index [at_] on. *)
Definition write (buf : list ascii) (at_ : nat) (s : list ascii) : list ascii :=
  take at_ buf ++ s ++ drop (at_ + length s) buf.

(** [printSSRC]; the result is the C string in [tmp]. *)
Definition printSSRC (ui32Ssrc : Z) : string :=
  let tmp := replicate 9 zero in
  let ui32Ssrc := htonl (uint32_t ui32Ssrc) in
  let pSsrc := store32 ui32Ssrc in
  let tmp :=
    fold_left (fun tmp i => write tmp (2 * i) (sprintf_02X (nth i pSsrc 0)))
      [0; 1; 2; 3]%nat tmp in
  c_str (string_of_list_ascii tmp).

(** [getSSRC]: the result, and the value of the reference [ssrc] after
    the call. *)
Definition getSSRC (data : Z -> byte) (data_len : Z) (ssrc : Z) : bool * Z :=
  if data_len <? 12 then (false, ssrc)
  else
    let ssrc_ptr := 8 in
    (true, ntohl (load32 data ssrc_ptr)).

(** Modelled from the spec: the members [seq], [stamp] and [ssrc] of
    [RtpHeader] are declared in Rtsp.h; a 16-bit and two 32-bit fields
    follow the two bytes of bit fields and complete the twelve fixed
    bytes. *)
Definition seq (h : RtpHeader) : Z := load16 h 2.
Definition stamp (h : RtpHeader) : Z := load32 h 4.
Definition ssrc (h : RtpHeader) : Z := load32 h 8.

Definition RtpPacket_getSeq (p : RtpPacket) : Z := ntohs (seq (getHeader p)).
Definition RtpPacket_getStamp (p : RtpPacket) : Z := ntohl (stamp (getHeader p)).
Definition RtpPacket_getSSRC (p : RtpPacket) : Z := ntohl (ssrc (getHeader p)).

(** [RtpPacket::getStampMS], for the members [ntp_stamp] and
    [sample_rate] of the packet; the division has no result when the
    sample rate is zero. *)
Definition RtpPacket_getStampMS (ntp_stamp sample_rate : Z) (p : RtpPacket)
    (ntp : bool) : option Z :=
  if ntp then Some (uint64_t ntp_stamp)
  else if uint64_t sample_rate =? 0 then None
  else Some (uint64_t (RtpPacket_getStamp p * uint64_t 1000) / uint64_t sample_rate).

End Host.

(** [makeRtpOverTcpPrefix]: the four bytes of the buffer it returns. *)
Definition makeRtpOverTcpPrefix (size interleaved : Z) : list byte :=
  let size := uint16_t size in
  let interleaved := uint8_t interleaved in
  [ to_byte 36;
    to_byte interleaved;
    to_byte (Z.land (Z.shiftr size 8) 255);
    to_byte (Z.land size 255) ].

(** The pointers into the packet, as addresses relative to the header;
    [nullptr] is [None]. *)
Definition getCsrcData (h : RtpHeader) : option Z :=
  if csrc h =? 0 then None else Some payload.

Definition getExtData (h : RtpHeader) : option Z :=
  if ext h =? 0 then None
  else
    let ext_ptr := payload + getCsrcSize h in
    Some (ext_ptr + 4).

Definition getPayloadData (h : RtpHeader) : Z := payload + getPayloadOffset h.

(** [RtpPacket::getPayload], as an address in [data()]. *)
Definition RtpPacket_getPayload (p : RtpPacket) : Z :=
  kRtpTcpHeaderSize + getPayloadData (getHeader p).

End Wire.

(** ** The other members of [SdpTrack] and [SdpParser] *)

Module Parser.

Import CInt Scan Sdp.

(** [s.find(pat) != string::npos] *)
Definition contains (pat s : string) : bool :=
  match String.index 0 pat s with
  | Some _ => true
  | None => false
  end.

(** A shared pointer tested as a condition. *)
Definition non_null {A : Type} (p : option A) : bool :=
  match p with
  | Some _ => true
  | None => false
  end.

(** [SdpTrack::getControlUrl] *)
Definition SdpTrack_getControlUrl (tr : SdpTrack) (base_url : string) : string :=
  if contains "://" (_control tr) then _control tr
  else base_url +:+ "/" +:+ _control tr.

(** [SdpParser::available] *)
Definition SdpParser_available (_track_vec : list SdpTrack) : bool :=
  non_null (getTrack _track_vec TrackAudio) || non_null (getTrack _track_vec TrackVideo).

(** [SdpParser::getControlUrl] *)
Definition SdpParser_getControlUrl (_track_vec : list SdpTrack) (url : string) : string :=
  match getTrack _track_vec TrackTitle with
  | Some title_track =>
      if contains "://" (_control title_track) then _control title_track else url
  | None => url
  end.

Section Text.

(** [track->toString()]: the text of one track, with the default port of
    the declaration in Rtsp.h. *)
Variable SdpTrack_toString : SdpTrack -> string.

(** [SdpParser::toString]: one turn of the loop on the three locals
    [title], [audio] and [video]. *)
Definition SdpParser_toString_step (acc : string * string * string) (tr : SdpTrack) :
  string * string * string :=
  let '(title, audio, video) := acc in
  match _type tr with
  | TrackTitle => (SdpTrack_toString tr, audio, video)
  | TrackVideo => (title, audio, SdpTrack_toString tr)
  | TrackAudio => (title, SdpTrack_toString tr, video)
  | TrackInvalid => acc
  end.

Definition SdpParser_toString (_track_vec : list SdpTrack) : string :=
  let '(title, audio, video) :=
    fold_left SdpParser_toString_step _track_vec (""%string, ""%string, ""%string) in
  title +:+ video +:+ audio.

End Text.

End Parser.

(** ** The payload-type table by number and by codec *)

Module Table.

Import CInt Sdp.

Section ByCodec.

Context {CodecId : Type} `{Countable CodecId}.

Variable RTP_PT_MAP : list (pt_entry (CodecId := CodecId)).

(** The enumerator [CodecInvalid] and the function [getCodecName] of the
    codec declarations. *)
Variable CodecInvalid : CodecId.
Variable getCodecName : CodecId -> string.

Definition RtpPayload_getCodecId (pt : Z) : CodecId :=
  match switch_pt RTP_PT_MAP pt with
  | Some e => pt_codec_id e
  | None => CodecInvalid
  end.

(** [#define XX(..) { codec_id, clock_rate },] *)
Definition clock_rate_map : gmap CodecId Z :=
  fold_left map_insert (map (fun e => (pt_codec_id e, pt_clock_rate e)) RTP_PT_MAP) ∅.

(** [getClockRateByCodec]: the rate, and the line it writes to the warning
    log, if it writes one. *)
Definition RtpPayload_getClockRateByCodec (codec : CodecId) : Z * option string :=
  match clock_rate_map !! codec with
  | None => (90000, Some ("Unsupported codec: " +:+ getCodecName codec))
  | Some second => (second, None)
  end.

(** [SdpTrack::getName] *)
Definition SdpTrack_getName (tr : SdpTrack) : string :=
  RtpPayload_getName RTP_PT_MAP (_pt tr).

End ByCodec.

End Table.

(** ** [DefaultSdp] *)

Module Builder.

Import CInt Scan Sdp.

Section Default.

Context {CodecId : Type} `{Countable CodecId}.
Context {T : Type} `{!Track (CodecId := CodecId) T}.

(** The other members of the interface [Track] the constructor calls. *)
Variable getTrackTypeStr : T -> string.
Variable getBitRate : T -> Z.
Variable getCodecName : T -> string.

(** [DefaultSdp::DefaultSdp]: the text in [_printer] when the constructor
    returns.  The base class [Sdp] of Rtsp.h keeps the sample rate it is
    constructed with as a [uint32_t], which [getSampleRate()] returns. *)
Definition DefaultSdp (payload_type : Z) (track : T) : string :=
  let _sample_rate :=
    Wire.uint32_t
      (if TrackType_eqb (getTrackType track) TrackVideo then 9000
       else getAudioSampleRate track) in
  let _printer :=
    "m=" +:+ getTrackTypeStr track +:+ " 0 RTP/AVP " +:+ print_int payload_type
    +:+ CRLF in
  let bitrate := Z.shiftr (getBitRate track) 10 in
  let _printer :=
    if negb (bitrate =? 0) then _printer +:+ "b=AS:" +:+ print_int bitrate +:+ CRLF
    else _printer in
  if payload_type <? 96 then _printer
  else
    let _printer :=
      _printer +:+ "a=rtpmap:" +:+ print_int payload_type +:+ " "
      +:+ getCodecName track +:+ "/" +:+ print_int _sample_rate in
    let _printer :=
      if TrackType_eqb (getTrackType track) TrackAudio then
        _printer +:+ "/" +:+ print_int (getAudioChannel track)
      else _printer in
    _printer +:+ CRLF.

End Default.

End Builder.

(** ** Vocabulary of the specification *)

Module Spec.

Import Sdp.

Local Open Scope Z_scope.

Section PayloadTable.

Context {CodecId : Type} `{Countable CodecId}.

(** "Lookups by codec pick the first match": the table entry of a codec. *)
Definition first_entry (table : list (pt_entry (CodecId := CodecId)))
    (codec : CodecId) : option pt_entry :=
  List.find (fun e => bool_decide (pt_codec_id e = codec)) table.

End PayloadTable.

(** The text after the first occurrence of a character, empty without
    one. *)
Fixpoint after_first (c : ascii) (s : string) : string :=
  match s with
  | EmptyString => EmptyString
  | String b s' => if Ascii.eqb c b then s' else after_first c s'
  end.

(** An attribute value whose leading number is not the payload type. *)
Definition other_pt (pt : Z) (value : string) : bool :=
  match leading_pt value with
  | Some n => negb (n =? pt)
  | None => false
  end.

(** An attribute value whose leading number is the payload type. *)
Definition has_pt (pt : Z) (value : string) : bool :=
  match leading_pt value with
  | Some n => n =? pt
  | None => false
  end.

Definition keys (m : multimap) : list string := map fst m.

(** The kinds of a track vector that starts with its only title. *)
Definition title_first (kinds : list TrackType) : Prop :=
  exists rest, kinds = TrackTitle :: rest /\ Forall (fun k => k <> TrackTitle) rest.

(** A conversion that assigned a text assigned a non-empty one. *)
Definition assigned_text (v : Scan.value) : Prop :=
  match v with
  | Scan.V_str tok => tok <> ""%string
  | Scan.V_int _ => True
  end.

(** The text of the attribute lines of a track. *)
Fixpoint lines (l : list string) : string :=
  match l with
  | [] => ""
  | x :: l' => x +:+ lines l'
  end.

Definition is_control (pr : string * string) : bool := String.eqb pr.1 "control".

(** "An attribute with an empty value is emitted as [a=<name>] with no
    colon, all others as [a=<name>:<value>]". *)
Definition attr_line (pr : string * string) : string :=
  if String.eqb pr.2 "" then "a=" +:+ pr.1 +:+ CRLF
  else "a=" +:+ pr.1 +:+ ":" +:+ pr.2 +:+ CRLF.

(** The line with its colon, whatever the value. *)
Definition control_line (pr : string * string) : string :=
  "a=" +:+ pr.1 +:+ ":" +:+ pr.2 +:+ CRLF.

Definition media_line (tr : SdpTrack) (port : Z) : string :=
  (if TrackType_eqb (_type tr) TrackAudio then "m=audio " else "m=video ")
  +:+ print_int port +:+ " RTP/AVP " +:+ print_int (_pt tr) +:+ CRLF.

(** The attribute lines as the claim words them: the attributes other
    than [control] in the multimap's order, then the last [control]
    attribute, every one of them by the rule of [attr_line]. *)
Definition attribute_lines_as_claimed (attr : multimap) : string :=
  lines (map attr_line (List.filter (fun pr => negb (is_control pr)) attr))
  +:+ match last (List.filter is_control attr) with
      | Some pr => attr_line pr
      | None => ""
      end.

(** The pair indices in the deque of a pool state. *)
Definition available (st : Port.pool_state) : list Z :=
  Port._port_pair_pool (Port.instance st).

(** [%hu] only ever hands over 16-bit values. *)
Definition hu_values (vs : list Scan.value) : Prop :=
  Forall (fun v => match v with Scan.V_int n => 0 <= n <= 65535 | Scan.V_str _ => True end) vs.

(** The invariant of the multimap: keys in ascending order. *)
Definition mm_sorted (m : multimap) : Prop := StronglySorted String.le (keys m).

(** A multimap without the entries of a key whose number is another
    payload type. *)
Definition without_other (key : string) (pt : Z) (m : multimap) : multimap :=
  List.filter (fun kv => negb (String.eqb kv.1 key && other_pt pt kv.2)) m.


(** What a pruning loop over [key] may leave of a multimap [m] when the
    payload type is [pt]: entries of [m] in their order, none of the key
    that starts with another number, and every entry of another key, or
    of the key and starting with [pt]. *)
Definition pruned (key : string) (pt : Z) (m left : multimap) : Prop :=
  sublist left m
  /\ without_other key pt left = left
  /\ List.filter (fun kv => negb (String.eqb kv.1 key) || has_pt pt kv.2) left
     = List.filter (fun kv => negb (String.eqb kv.1 key) || has_pt pt kv.2) m.

Definition is_audio (tr : SdpTrack) : bool := TrackType_eqb (_type tr) TrackAudio.
Definition is_video (tr : SdpTrack) : bool := TrackType_eqb (_type tr) TrackVideo.
Definition is_title (tr : SdpTrack) : bool := TrackType_eqb (_type tr) TrackTitle.

(** The body of a trimmed line that [load] treats as a media line. *)
Definition media_body (trimmed : string) : option string :=
  match trimmed with
  | String opt (String c1 opt_val) =>
      if Ascii.eqb c1 "=" && Ascii.eqb opt "m" then Some opt_val else None
  | _ => None
  end.

(** A media line that one of the two patterns scans: it opens a track. *)
Definition opens_track (trimmed : string) : bool :=
  match media_body trimmed with
  | Some opt_val => Parser.non_null (scan_media opt_val)
  | None => false
  end.

(** A media line that neither pattern scans. *)
Definition fails_media (trimmed : string) : bool :=
  match media_body trimmed with
  | Some opt_val => negb (Parser.non_null (scan_media opt_val))
  | None => false
  end.

(** The value of the first [control] entry of a multimap, and the text of
    a track that may be missing. *)
Definition first_control (attr : multimap) : option string :=
  snd <$> head (List.filter is_control attr).

Definition text_of (f : SdpTrack -> string) (o : option SdpTrack) : string :=
  match o with
  | Some tr => f tr
  | None => ""
  end.

(** The value of four octets in network order, most significant first. *)
Definition network_order32 (m : Z -> byte) (a : Z) : Z :=
  2 ^ 24 * Rtp.u8 (m a) + 2 ^ 16 * Rtp.u8 (m (a + 1)) + 2 ^ 8 * Rtp.u8 (m (a + 2))
  + Rtp.u8 (m (a + 3)).

Definition network_order16 (m : Z -> byte) (a : Z) : Z :=
  2 ^ 8 * Rtp.u8 (m a) + Rtp.u8 (m (a + 1)).

(** The two upper-case hexadecimal digits of an octet, and the number a
    text of such digits stands for. *)
Definition hex2 (b : Z) : string :=
  String (Wire.hex (b / 16)) (String (Wire.hex (b mod 16)) "").

Definition hex_digit_value (c : ascii) : Z :=
  if Scan.isdigit c then Scan.code c - 48 else Scan.code c - 55.

Definition hex_value (s : string) : Z :=
  fold_left (fun acc c => 16 * acc + hex_digit_value c) (list_ascii_of_string s) 0.

(** A text that holds a given character. *)
Fixpoint has_char (c : ascii) (s : string) : bool :=
  match s with
  | EmptyString => false
  | String b s' => Ascii.eqb c b || has_char c s'
  end.

(** The line [getAttrSdp] writes for an attribute, without its end: the
    name alone for an empty value, unless the name is [control]. *)
Definition attr_body (pr : string * string) : string :=
  if String.eqb pr.1 "control" then pr.1 +:+ ":" +:+ pr.2
  else if String.eqb pr.2 "" then pr.1
  else pr.1 +:+ ":" +:+ pr.2.

Definition attr_text (pr : string * string) : string := "a=" +:+ attr_body pr.

(** The entries of a name, in the order of the multimap. *)
Definition entries_of (key : string) (m : multimap) : multimap :=
  List.filter (fun pr => String.eqb pr.1 key) m.

(** The number the digits of a decimal stand for, after [acc]. *)
Fixpoint digits_value (acc : Z) (d : Decimal.uint) : Z :=
  match d with
  | Decimal.Nil => acc
  | Decimal.D0 d => digits_value (10 * acc + 0) d
  | Decimal.D1 d => digits_value (10 * acc + 1) d
  | Decimal.D2 d => digits_value (10 * acc + 2) d
  | Decimal.D3 d => digits_value (10 * acc + 3) d
  | Decimal.D4 d => digits_value (10 * acc + 4) d
  | Decimal.D5 d => digits_value (10 * acc + 5) d
  | Decimal.D6 d => digits_value (10 * acc + 6) d
  | Decimal.D7 d => digits_value (10 * acc + 7) d
  | Decimal.D8 d => digits_value (10 * acc + 8) d
  | Decimal.D9 d => digits_value (10 * acc + 9) d
  end.

Definition starts_with_digit (s : string) : bool :=
  match s with
  | String c _ => Scan.isdigit c
  | EmptyString => false
  end.

(** A text that a pattern [%15[^stop]] after white space reads whole:
    not empty, of at most 15 characters, without the stop character or a
    NUL, and not starting with white space. *)
Definition scan_token (stop : ascii) (s : string) : bool :=
  match s with
  | String c _ =>
      negb (Scan.isspace c) && (String.length s <=? 15)%nat
      && negb (has_char stop s) && negb (has_char zero s)
  | EmptyString => false
  end.

(** A codec name for [%15[^/]] and a media type for [%15[^ ]]. *)
Definition codec_token (s : string) : bool := scan_token "/" s.
Definition type_token (s : string) : bool := scan_token " " s.

(** A track as a media line leaves it: no codec name, and the clock rate
    and the channel count the table has for its payload type. *)
Definition table_defaults {CodecId : Type} (table : list (pt_entry (CodecId := CodecId)))
    (tr : SdpTrack) : Prop :=
  _codec tr = ""%string
  /\ _samplerate tr = RtpPayload_getClockRate table (_pt tr)
  /\ _channel tr = RtpPayload_getAudioChannel table (_pt tr).

(** The format parameters the last of some [fmtp] entries gives. *)
Definition last_fmtp (entries : multimap) : string :=
  match last entries with
  | Some pr => findSubString pr.2 (Some " "%string) None
  | None => ""
  end.

(** The body of a media line: the type, the port, the transport and the
    payload type. *)
Definition media_value (type : string) (port pt : Z) : string :=
  type +:+ " " +:+ print_int port +:+ " RTP/AVP " +:+ print_int pt.

(** The value of the [rtpmap] attribute for a payload type, a codec name,
    a sample rate and, for audio, a channel count. *)
Definition rtpmap_value (pt : Z) (codec : string) (rate : Z) (channels : option Z) :
  string :=
  print_int pt +:+ " " +:+ codec +:+ "/" +:+ print_int rate
  +:+ match channels with
      | Some n => "/" +:+ print_int n
      | None => ""
      end.

(** An attribute whose line [load] reads back as written: a name that is
    not empty and holds no colon, and no NUL in the name or the value. *)
Definition attr_valid (pr : string * string) : bool :=
  negb (String.eqb pr.1 "") && negb (has_char ":" pr.1)
  && negb (has_char zero pr.1) && negb (has_char zero pr.2).

(** The attributes [getAttrSdp] writes, in the order it writes them. *)
Definition written_attrs (attr : multimap) : multimap :=
  List.filter (fun pr => negb (is_control pr)) attr
  ++ match last (List.filter is_control attr) with
     | Some pr => [pr]
     | None => []
     end.

(** A line of fewer than two characters. *)
Definition short_line (line : string) : bool := (String.length line <? 2)%nat.

(** The lines [SdpTrack::toString] writes for an audio or a video track,
    without their ends. *)
Definition track_lines (tr : SdpTrack) (port : Z) : list string :=
  ("m=" +:+ media_value (if is_audio tr then "audio" else "video") port (_pt tr))
  :: (if String.eqb (_b tr) "" then [] else ["b=" +:+ _b tr])
  ++ map attr_text (written_attrs (_attr tr)).

End Spec.

(** ** Sample values *)

Module Samples.

Import Sdp Port.

(** A video track as the first block of [load] leaves it, with attributes
    for its own payload type and for another one. *)
Definition video_track : SdpTrack :=
  set_attr
    [("control", "trackID=0"); ("fmtp", "96 packetization-mode=1");
     ("fmtp", "97 profile-id=1"); ("rtpmap", "96 H264/90000");
     ("rtpmap", "97 H265/90000")]%string
    (set_type TrackVideo (set_samplerate 90000 (set_channel 1 (set_pt 96 SdpTrack_new)))).

(** A title record with session-level [rtpmap] attributes: its payload
    type is the sentinel. *)
Definition session_track : SdpTrack :=
  set_attr [("rtpmap", "96 opus/48000/2"); ("rtpmap", "8 PCMA/8000/1")]%string
    (set_type TrackTitle SdpTrack_new).

(** A video track whose [control] attribute has no value. *)
Definition bare_control_track : SdpTrack :=
  set_attr [("control", ""); ("recvonly", "")]%string
    (set_type TrackVideo (set_pt 96 SdpTrack_new)).

(** Four lines of a payload-type table, the first being the PCMU line of
    the specification's example; the codec identifiers are numbered for
    the example. *)
Definition sample_table : list (pt_entry (CodecId := Z)) :=
  [XX "PCMU" TrackAudio 0 8000 1 1; XX "GSM" TrackAudio 3 8000 1 0;
   XX "PCMA" TrackAudio 8 8000 1 2; XX "JPEG" TrackVideo 26 90000 1 3].

(** A track descriptor: codec, kind, sample rate, channels. *)
Record sample_descriptor : Type := mk_descriptor {
  d_codec : Z;
  d_kind : TrackType;
  d_rate : Z;
  d_channels : Z
}.

#[export] Instance sample_descriptor_Track : Track (CodecId := Z) sample_descriptor :=
  {| getCodecId := d_codec; getTrackType := d_kind;
     getAudioSampleRate := d_rate; getAudioChannel := d_channels |}.

Definition sample_sdp : string :=
  "v=0" +:+ CRLF +:+ "a=control:*" +:+ CRLF
  +:+ "m=audio 0 RTP/AVP 0" +:+ CRLF
  +:+ "m=video 0 RTP/AVP 96" +:+ CRLF
  +:+ "a=rtpmap:96 H264/90000" +:+ CRLF
  +:+ "a=rtpmap:97 H265/90000" +:+ CRLF
  +:+ "a=fmtp:96 packetization-mode=1" +:+ CRLF
  +:+ "m=audio 0 RTP/AVP 8" +:+ CRLF
  +:+ "m=broken" +:+ CRLF.

(** A video track as [load] leaves it. *)
Definition loaded_track : SdpTrack :=
  {| _t := ""; _b := "AS:500"; _port := 5000; _pt := 96; _channel := 1;
     _samplerate := 90000; _type := TrackVideo; _codec := "H264";
     _fmtp := "packetization-mode=1"; _control := "trackID=0";
     _attr := [("control", "trackID=0"); ("fmtp", "96 packetization-mode=1");
               ("rtpmap", "96 H264/90000")]%string;
     _other := ∅ |}.

(** Slots of [pt] that hold 0 whenever a pruning loop is entered. *)
Definition zero_slots (i : nat) (key : string) : Z := 0.

(** A description whose second [fmtp] attribute starts with no number, and
    the same with an attribute of another payload type before it. *)
Definition numberless_sdp : string :=
  "m=video 0 RTP/AVP 96" +:+ CRLF +:+ "a=fmtp:96 a=1" +:+ CRLF
  +:+ "a=fmtp:yy c=3" +:+ CRLF.

Definition numberless_sdp_97 : string :=
  "m=video 0 RTP/AVP 96" +:+ CRLF +:+ "a=fmtp:96 a=1" +:+ CRLF
  +:+ "a=fmtp:97 b=2" +:+ CRLF +:+ "a=fmtp:yy c=3" +:+ CRLF.

Definition sample_rng (k : nat) : Z := Z.of_nat k * 7 + 3.

(** A description with a media line that does not scan, and the same
    without that line and the attribute that follows it. *)
Definition LF : string := String "010" "".

Definition broken_sdp : string :=
  "v=0" +:+ LF +:+ "m=broken" +:+ LF +:+ "a=control:lost" +:+ LF
  +:+ "m=video 0 RTP/AVP 96" +:+ LF +:+ "a=control:kept".

Definition mended_sdp : string :=
  "v=0" +:+ LF +:+ "m=video 0 RTP/AVP 96" +:+ LF +:+ "a=control:kept".

(** The padded packet behind its interleaved prefix. *)
Definition sample_packet : Rtp.RtpPacket :=
  {| Rtp.data := Rtp.buffer (Wire.makeRtpOverTcpPrefix 29 0 ++ Rtp.padded_packet);
     Rtp.size := 33 |}.

(** The members of a descriptor that [DefaultSdp] asks for: the text of
    its kind, no bit rate, and a codec name by number. *)
Definition sample_type_str (d : sample_descriptor) : string :=
  match d_kind d with
  | TrackVideo => "video"
  | TrackAudio => "audio"
  | _ => "invalid"
  end.

Definition sample_bit_rate (d : sample_descriptor) : Z := 0.

Definition sample_codec_name (d : sample_descriptor) : string :=
  if d_codec d =? 7 then "H264" else "opus".

Definition h264_track : sample_descriptor := mk_descriptor 7 TrackVideo 0 0.
Definition opus_track : sample_descriptor := mk_descriptor 9 TrackAudio 48000 2.
Definition pcma_track : sample_descriptor := mk_descriptor 2 TrackAudio 8000 1.

Definition sample_pool : PortManager :=
  Eval vm_compute in
    match PortManager_new false "30000-30040" sample_rng with
    | Some pm => pm
    | None => {| _port_pair_pool := [] |}
    end.

End Samples.

(** * Properties *)

Import CInt Rtp.

(** ** Machine integers *)

Lemma size_t_range x : 0 <= size_t x <= SIZE_MAX.
Proof.
  unfold size_t, wrap, SIZE_MAX.
  pose proof (Z.mod_pos_bound x (2 ^ 64) ltac:(lia)). lia.
Qed.

Lemma size_t_small x : 0 <= x <= SIZE_MAX -> size_t x = x.
Proof. unfold size_t, wrap, SIZE_MAX. intros. apply Z.mod_small. lia. Qed.

Lemma ssize_t_range x : - 2 ^ 63 <= ssize_t x <= SSIZE_MAX.
Proof.
  unfold ssize_t, to_signed, wrap, SSIZE_MAX.
  pose proof (Z.mod_pos_bound x (2 ^ 64) ltac:(lia)).
  change (64 - 1) with 63. destruct (Z.ltb_spec (x mod 2 ^ 64) (2 ^ 63)); lia.
Qed.

Lemma ssize_t_small x : - 2 ^ 63 <= x <= SSIZE_MAX -> ssize_t x = x.
Proof.
  unfold ssize_t, to_signed, wrap, SSIZE_MAX. intros Hx.
  change (64 - 1) with 63.
  destruct (Z_lt_le_dec x 0) as [Hneg | Hpos].
  - replace (x mod 2 ^ 64) with (x + 2 ^ 64).
    + destruct (Z.ltb_spec (x + 2 ^ 64) (2 ^ 63)); lia.
    + apply Z.mod_unique with (q := -1); lia.
  - rewrite Z.mod_small by lia.
    destruct (Z.ltb_spec x (2 ^ 63)); lia.
Qed.

(** Conversion to the unsigned type discards the sign information only. *)
Lemma size_t_ssize_t x : size_t (ssize_t x) = size_t x.
Proof.
  unfold size_t, ssize_t, to_signed, wrap. change (64 - 1) with 63.
  destruct (Z.ltb_spec (x mod 2 ^ 64) (2 ^ 63)).
  - apply Z.mod_mod. lia.
  - rewrite <- (Z.mod_mod x (2 ^ 64)) at 2 by lia.
    rewrite <- Zminus_mod_idemp_r, Z.mod_same, Z.sub_0_r by lia. reflexivity.
Qed.

Lemma ssize_t_size_t x : ssize_t (size_t x) = ssize_t x.
Proof.
  unfold ssize_t, to_signed, size_t, wrap. rewrite Z.mod_mod by lia. reflexivity.
Qed.

Lemma size_t_idemp_sub_l a b : size_t (size_t a - b) = size_t (a - b).
Proof. unfold size_t, wrap. apply Zminus_mod_idemp_l. Qed.

Lemma size_t_idemp_add_r a b : size_t (a + size_t b) = size_t (a + b).
Proof. unfold size_t, wrap. apply Zplus_mod_idemp_r. Qed.

Lemma u8_range b : 0 <= u8 b <= 255.
Proof. unfold u8. pose proof (Byte.to_N_bounded b). lia. Qed.


(** ** RTP header view: field ranges *)

Lemma land_mask_mod a k : 0 <= k -> Z.land a (2 ^ k - 1) = a mod 2 ^ k.
Proof.
  intros Hk. rewrite <- Z.land_ones by assumption.
  unfold Z.ones. rewrite Z.shiftl_1_l. f_equal; lia.
Qed.

Lemma csrc_range h : 0 <= csrc h <= 15.
Proof.
  unfold csrc. change 15 with (2 ^ 4 - 1).
  rewrite land_mask_mod by lia.
  pose proof (Z.mod_pos_bound (u8 (h 0)) (2 ^ 4) ltac:(lia)). lia.
Qed.

Lemma pt_range h : 0 <= pt h <= 127.
Proof.
  unfold pt. change 127 with (2 ^ 7 - 1).
  rewrite land_mask_mod by lia.
  pose proof (Z.mod_pos_bound (u8 (h 1)) (2 ^ 7) ltac:(lia)). lia.
Qed.

Lemma version_range h : 0 <= version h <= 3.
Proof.
  unfold version. rewrite Z.shiftr_div_pow2 by lia.
  pose proof (u8_range (h 0)).
  split; [apply Z.div_pos; lia | ].
  apply Z.lt_succ_r, Z.div_lt_upper_bound; lia.
Qed.

(** The two octets of a big-endian 16-bit field do not overlap, so the
    [|] of the macro is an addition. *)
Lemma AV_RB16_value h x : AV_RB16 h x = 256 * u8 (h x) + u8 (h (x + 1)).
Proof.
  unfold AV_RB16.
  pose proof (u8_range (h x)) as Ha. pose proof (u8_range (h (x + 1))) as Hb.
  rewrite Z.shiftl_mul_pow2 by lia.
  rewrite <- Z.add_nocarry_lor; [lia | ].
  apply Z.bits_inj'. intros n Hn.
  rewrite Z.land_spec, Z.bits_0.
  destruct (Z_lt_le_dec n 8) as [Hlt | Hge].
  - rewrite Z.mul_pow2_bits_low by lia. reflexivity.
  - rewrite (Z.bits_above_log2 (u8 (h (x + 1)))); [apply andb_false_r | lia | ].
    destruct (Z.eq_dec (u8 (h (x + 1))) 0) as [-> | Hnz]; [simpl; lia | ].
    apply Z.lt_le_trans with 8; [ | assumption].
    apply Z.log2_lt_pow2; lia.
Qed.

Lemma AV_RB16_range h x : 0 <= AV_RB16 h x <= 65535.
Proof.
  rewrite AV_RB16_value.
  pose proof (u8_range (h x)). pose proof (u8_range (h (x + 1))). lia.
Qed.

Lemma getCsrcSize_value h : getCsrcSize h = 4 * csrc h.
Proof.
  unfold getCsrcSize. rewrite Z.shiftl_mul_pow2 by lia.
  pose proof (csrc_range h). rewrite size_t_small; unfold SIZE_MAX; lia.
Qed.

Lemma getExtSize_value h :
  getExtSize h = if ext h =? 0 then 0 else 4 * extLenWords h.
Proof.
  unfold getExtSize, extLenWords. destruct (ext h =? 0); [reflexivity | ].
  rewrite getCsrcSize_value, Z.shiftl_mul_pow2 by lia.
  pose proof (AV_RB16_range h (payload + 4 * csrc h + 2)).
  rewrite size_t_small; unfold SIZE_MAX; lia.
Qed.

Lemma getPayloadOffset_value h :
  getPayloadOffset h =
  csrc h * 4 + (if ext h =? 0 then 0 else 4 + 4 * extLenWords h).
Proof.
  unfold getPayloadOffset. rewrite getCsrcSize_value, getExtSize_value.
  pose proof (csrc_range h).
  pose proof (AV_RB16_range h (payload + 4 * csrc h + 2)) as Hw.
  fold (extLenWords h) in Hw.
  destruct (ext h =? 0).
  - rewrite size_t_small; unfold SIZE_MAX; lia.
  - rewrite (size_t_small (4 + _)) by (unfold SIZE_MAX; lia).
    rewrite size_t_small; unfold SIZE_MAX; lia.
Qed.

Lemma getPayloadOffset_range h : 0 <= getPayloadOffset h <= 262204.
Proof.
  rewrite getPayloadOffset_value.
  pose proof (csrc_range h).
  pose proof (AV_RB16_range h (payload + 4 * csrc h + 2)) as Hw.
  fold (extLenWords h) in Hw.
  destruct (ext h =? 0); lia.
Qed.

Lemma getPaddingSize_range h rtp_size : 0 <= getPaddingSize h rtp_size <= 255.
Proof.
  unfold getPaddingSize. destruct (padding h =? 0); [lia | apply u8_range].
Qed.

(** The unsigned arithmetic of [getPayloadSize] computes the difference
    modulo [2^64]; the conversion of the result to [ssize_t] reads it back
    as a signed number. *)
Lemma getPayloadSize_wrapped h rtp_size :
  getPayloadSize h rtp_size =
  ssize_t (rtp_size - getPayloadOffset h - getPaddingSize h rtp_size - 12).
Proof.
  unfold getPayloadSize, kRtpHeaderSize.
  rewrite size_t_ssize_t.
  rewrite (size_t_idemp_sub_l rtp_size).
  rewrite (size_t_small 12) by (unfold SIZE_MAX; lia).
  rewrite size_t_idemp_sub_l.
  pose proof (getPayloadOffset_range h). pose proof (getPaddingSize_range h rtp_size).
  rewrite (size_t_small (getPayloadOffset h + _)) by (unfold SIZE_MAX; lia).
  rewrite ssize_t_size_t. f_equal; lia.
Qed.

(** ** C1: payload accounting *)

(** The same identity as the C++ expression evaluates it, in [size_t]
    arithmetic, for every value of the parameter. *)
Lemma accounting_in_size_t (h : RtpHeader) (rtp_size : Z) :
  0 <= rtp_size <= SIZE_MAX ->
  size_t (getPayloadOffset h + getPaddingSize h rtp_size + 12
          + getPayloadSize h rtp_size) = rtp_size.
Proof.
  intros Hsize. rewrite getPayloadSize_wrapped.
  rewrite <- size_t_idemp_add_r, size_t_ssize_t, size_t_idemp_add_r.
  transitivity (size_t rtp_size); [f_equal; lia | now apply size_t_small].
Qed.

(** For the size of an object the difference needs no wrap-around. *)
Lemma getPayloadSize_exact (h : RtpHeader) (rtp_size : Z) :
  0 <= rtp_size <= SSIZE_MAX ->
  getPayloadSize h rtp_size
  = rtp_size - getPayloadOffset h - getPaddingSize h rtp_size - 12.
Proof.
  intros Hsize.
  pose proof (getPayloadOffset_range h) as Hoff.
  pose proof (getPaddingSize_range h rtp_size) as Hpad.
  rewrite getPayloadSize_wrapped. apply ssize_t_small.
  unfold SSIZE_MAX in *. lia.
Qed.

(** C1.  For every value [rtp_size] of the [size_t] parameter (the size
    left once a 4-byte interleaved prefix is stripped):
    [getPayloadOffset() + getPaddingSize(rtp_size) + 12 +
    getPayloadSize(rtp_size) == rtp_size] as C++ evaluates it, and
    [getPayloadOffset()] is [csrcCount*4 + (ext ? 4 + 4*extLenWords : 0)].
    For every size a buffer can have, that is up to [SSIZE_MAX], the
    identity holds over the integers and [getPayloadSize] is the exact
    signed difference: negative -- not clamped to zero -- exactly when the
    variable regions and the fixed header exceed the buffer. *)
Theorem payload_accounting (h : RtpHeader) (rtp_size : Z) :
  0 <= rtp_size <= SIZE_MAX ->
  size_t (getPayloadOffset h + getPaddingSize h rtp_size + 12
          + getPayloadSize h rtp_size) = rtp_size
  /\ getPayloadOffset h
     = csrc h * 4 + (if ext h =? 0 then 0 else 4 + 4 * extLenWords h)
  /\ (rtp_size <= SSIZE_MAX ->
      getPayloadOffset h + getPaddingSize h rtp_size + 12 + getPayloadSize h rtp_size
        = rtp_size
      /\ getPayloadSize h rtp_size
         = rtp_size - getPayloadOffset h - getPaddingSize h rtp_size - 12
      /\ (getPayloadSize h rtp_size < 0 <->
          rtp_size < getPayloadOffset h + getPaddingSize h rtp_size + 12)).
Proof.
  intros Hsize.
  split; [now apply accounting_in_size_t | ].
  split; [apply getPayloadOffset_value | ].
  intros Hobject.
  pose proof (getPayloadSize_exact h rtp_size ltac:(lia)) as Hexact.
  repeat split; lia.
Qed.

Lemma payload_accounting_witness :
  getPayloadOffset (buffer padded_packet)
  + getPaddingSize (buffer padded_packet) 29 + 12
  + getPayloadSize (buffer padded_packet) 29 = 29
  /\ getPayloadSize (buffer padded_packet) 29
     = 29 - getPayloadOffset (buffer padded_packet)
       - getPaddingSize (buffer padded_packet) 29 - 12.
Proof.
  assert (Hsize : 0 <= 29 <= SIZE_MAX) by (unfold SIZE_MAX; lia).
  assert (Hobject : 29 <= SSIZE_MAX) by (unfold SSIZE_MAX; lia).
  destruct (payload_accounting (buffer padded_packet) 29 Hsize)
    as (_ & _ & Hexact).
  destruct (Hexact Hobject) as (Hsum & Hdiff & _).
  split; [exact Hsum | exact Hdiff].
Defined.

(** A packet with its prefix: the header starts after the four bytes, and
    the size it is given is the size of the rest. *)
Lemma RtpPacket_payload_accounting (p : RtpPacket) :
  4 <= size p <= SSIZE_MAX ->
  getPayloadOffset (getHeader p) + getPaddingSize (getHeader p) (size p - 4) + 12
  + getPayloadSize (getHeader p) (size p - 4) = size p - 4
  /\ RtpPacket_getPayloadSize p
     = size_t (getPayloadSize (getHeader p) (size p - 4)).
Proof.
  intros Hsize. unfold RtpPacket_getPayloadSize, kRtpTcpHeaderSize.
  rewrite (size_t_small (size p - 4)) by (unfold SIZE_MAX, SSIZE_MAX in *; lia).
  split; [ | reflexivity].
  rewrite getPayloadSize_exact by lia. lia.
Qed.

Example padded_packet_regions :
  getPayloadOffset (buffer padded_packet) = 12
  /\ getPaddingSize (buffer padded_packet) 29 = 2
  /\ getPayloadSize (buffer padded_packet) 29 = 3.
Proof. repeat split. Qed.

(** A header announcing fifteen CSRCs in a buffer of twelve bytes: the
    result is negative. *)
Example getPayloadSize_truncated :
  getPayloadSize (buffer [x8f; x60]%byte) 12 = -60.
Proof. reflexivity. Qed.

(** An empty [RtpPacket] has no prefix to strip: the header sees the size
    [2^64 - 4], and the unsigned return type turns the negative result
    into a large one. *)
Example RtpPacket_getPayloadSize_empty :
  RtpPacket_getPayloadSize {| data := buffer []; size := 0 |} = 2 ^ 64 - 16.
Proof. reflexivity. Qed.

(** ** C2: RTP / RTCP discrimination *)

(** C2.  [isRtp] and [isRtcp] are never both true.  [isRtcp] is true
    exactly when the size is at least 2 and the 7-bit payload type of
    byte 1 is in [64,96) -- the version is not looked at; [isRtp] is true
    exactly when the size is at least 2, the payload type is below 64 or
    at least 96, and the 2-bit version field is [kRtpVersion].  Both are
    false below 2 bytes. *)
Theorem rtp_rtcp_classification (buf : Z -> byte) (size : Z) :
  (isRtp buf size && isRtcp buf size = false)
  /\ (isRtcp buf size = true <-> 2 <= size /\ 64 <= pt buf < 96)
  /\ (isRtp buf size = true <->
      2 <= size /\ (pt buf < 64 \/ 96 <= pt buf) /\ version buf = kRtpVersion)
  /\ ((size <? 2) && (isRtp buf size || isRtcp buf size) = false)
  /\ pt buf = u8 (buf 1) mod 128
  /\ version buf = u8 (buf 0) / 64.
Proof.
  assert (Hpt : pt buf = u8 (buf 1) mod 128).
  { unfold pt. change 127 with (2 ^ 7 - 1). apply land_mask_mod. lia. }
  assert (Hv : version buf = u8 (buf 0) / 64).
  { unfold version. apply Z.shiftr_div_pow2. lia. }
  unfold isRtp, isRtcp, kRtpVersion. rewrite !Z.geb_leb.
  destruct (Z.ltb_spec size 2) as [Hs | Hs];
    destruct (Z.ltb_spec (pt buf) 64) as [H64 | H64];
    destruct (Z.ltb_spec (pt buf) 96) as [H96 | H96];
    destruct (Z.leb_spec 64 (pt buf)) as [G64 | G64];
    destruct (Z.leb_spec 96 (pt buf)) as [G96 | G96];
    destruct (Z.eqb_spec (version buf) 2) as [H2 | H2];
    simpl; try lia;
    (split; [reflexivity | ]);
    (split; [split; [discriminate || (intros _; lia) | try reflexivity; lia] | ]);
    (split; [split; [discriminate || (intros _; lia) | try reflexivity; lia] | ]);
    (split; [reflexivity | ]); split; assumption.
Qed.

(** * Properties of the SDP parser and of the port pool *)

Import Scan Sdp Port Spec.

(** ** Texts *)

Lemma substring_all s : String.substring 0 (String.length s) s = s.
Proof. induction s as [ | c s IH]; simpl; [reflexivity | now rewrite IH]. Qed.

Lemma index_char_cons c b s :
  String.index 0 (String c "") (String b s) =
  if Ascii.eqb c b then Some 0%nat
  else option_map S (String.index 0 (String c "") s).
Proof.
  simpl. destruct (ascii_dec c b) as [-> | Hne].
  - rewrite Ascii.eqb_refl. destruct s; reflexivity.
  - apply Ascii.eqb_neq in Hne. rewrite Hne.
    destruct (String.index 0 (String c "") s); reflexivity.
Qed.

Lemma index_char_after c s :
  match String.index 0 (String c "") s with
  | Some i => String.substring (i + 1) (String.length s - (i + 1)) s
  | None => ""%string
  end = after_first c s.
Proof.
  induction s as [ | b s IH]; [reflexivity | ].
  rewrite index_char_cons. cbn [after_first].
  destruct (Ascii.eqb c b).
  - cbn. rewrite Nat.sub_0_r. apply substring_all.
  - destruct (String.index 0 (String c "") s) as [i | ]; cbn - [Nat.sub]; exact IH.
Qed.

Lemma findSubString_after c buf :
  findSubString buf (Some (String c "")) None = after_first c (c_str buf).
Proof.
  unfold findSubString. rewrite <- index_char_after.
  destruct (String.index 0 (String c "") (c_str buf)) as [i | ]; reflexivity.
Qed.

(** ** C7: payload type of a track *)

Section PayloadTableFacts.

Context {CodecId : Type} `{Countable CodecId}.
Context {T : Type} `{!Track (CodecId := CodecId) T}.
Variable RTP_PT_MAP : list (pt_entry (CodecId := CodecId)).

Lemma fold_map_insert_lookup (l : list (pt_entry (CodecId := CodecId)))
    (m : gmap CodecId info) (k : CodecId) :
  fold_left map_insert (map (fun e => (pt_codec_id e, info_of e)) l) m !! k =
  match m !! k with
  | Some v => Some v
  | None => info_of <$> List.find (fun e => bool_decide (pt_codec_id e = k)) l
  end.
Proof.
  revert m. induction l as [ | e l IH]; intros m; simpl.
  - destruct (m !! k); reflexivity.
  - rewrite IH. unfold map_insert at 1. simpl.
    destruct (decide (pt_codec_id e = k)) as [-> | Hne].
    + rewrite bool_decide_eq_true_2 by reflexivity.
      destruct (m !! k) eqn:Hm; [rewrite Hm; reflexivity | ].
      rewrite lookup_insert_eq. reflexivity.
    + rewrite bool_decide_eq_false_2 by assumption.
      destruct (m !! pt_codec_id e); [reflexivity | ].
      rewrite lookup_insert_ne by assumption. reflexivity.
Qed.

Lemma s_map_lookup (k : CodecId) :
  s_map RTP_PT_MAP !! k = info_of <$> first_entry RTP_PT_MAP k.
Proof.
  unfold s_map, first_entry.
  rewrite fold_map_insert_lookup, lookup_empty. reflexivity.
Qed.

Lemma first_entry_None (k : CodecId) :
  first_entry RTP_PT_MAP k = None <-> Forall (fun e => pt_codec_id e <> k) RTP_PT_MAP.
Proof.
  unfold first_entry. induction RTP_PT_MAP as [ | e l IH]; simpl.
  - split; [constructor | reflexivity].
  - destruct (decide (pt_codec_id e = k)) as [Heq | Hne].
    + rewrite bool_decide_eq_true_2 by assumption.
      split; [discriminate | ]. intros Hall. inversion Hall; subst. contradiction.
    + rewrite bool_decide_eq_false_2 by assumption. rewrite IH.
      split; [constructor; assumption | ]. intros Hall. inversion Hall; assumption.
Qed.

(** C7.  [getPayloadType] looks the codec of the track up among the table
    entries, the first entry of a codec standing for it.  Without an
    entry the result is -1.  With the entry [e]: for an audio track whose
    sample rate or channel count is not the entry's the result is -1;
    in every other case it is the payload type of [e]. *)
Theorem getPayloadType_by_track (track : T) :
  match first_entry RTP_PT_MAP (getCodecId track) with
  | None =>
      Forall (fun e => pt_codec_id e <> getCodecId track) RTP_PT_MAP
      /\ RtpPayload_getPayloadType RTP_PT_MAP track = -1
  | Some e =>
      pt_codec_id e = getCodecId track
      /\ (getTrackType track = TrackAudio
          /\ (getAudioSampleRate track <> pt_clock_rate e
              \/ getAudioChannel track <> pt_channel e)
          /\ RtpPayload_getPayloadType RTP_PT_MAP track = -1
          \/ ~ (getTrackType track = TrackAudio
                /\ (getAudioSampleRate track <> pt_clock_rate e
                    \/ getAudioChannel track <> pt_channel e))
             /\ RtpPayload_getPayloadType RTP_PT_MAP track = pt_value e)
  end.
Proof.
  unfold RtpPayload_getPayloadType. rewrite s_map_lookup.
  destruct (first_entry RTP_PT_MAP (getCodecId track)) as [e | ] eqn:Hfind; simpl.
  - split.
    { unfold first_entry in Hfind. apply find_some in Hfind as [_ Hc].
      apply bool_decide_eq_true in Hc. exact Hc. }
    destruct (getTrackType track); simpl;
      try (right; split; [intros [Hty _]; discriminate | reflexivity]).
    destruct (Z.eqb_spec (getAudioSampleRate track) (pt_clock_rate e)) as [Hr | Hr];
      destruct (Z.eqb_spec (getAudioChannel track) (pt_channel e)) as [Hc | Hc]; simpl.
    + right. split; [ | reflexivity]. intros [_ [Hn | Hn]]; contradiction.
    + left. auto.
    + left. auto.
    + left. auto.
  - split; [ | reflexivity]. apply first_entry_None. exact Hfind.
Qed.

End PayloadTableFacts.

(** ** C6: available tracks *)

Lemma TrackType_eqb_eq a b : TrackType_eqb a b = true <-> a = b.
Proof. destruct a, b; simpl; split; congruence. Qed.

Lemma available_from_app ret a v vec :
  available_from ret a v vec = ret ++ available_from [] a v vec.
Proof.
  unfold available_from. revert ret a v.
  induction vec as [ | tr vec IH]; intros ret a v; simpl.
  - now rewrite app_nil_r.
  - destruct (TrackType_eqb (_type tr) TrackAudio); [destruct a | ];
      simpl; try apply IH.
    + rewrite IH, (IH [tr]), app_assoc. reflexivity.
    + destruct (TrackType_eqb (_type tr) TrackVideo); [destruct v | ];
        simpl; try apply IH.
      rewrite IH, (IH [tr]), app_assoc. reflexivity.
Qed.

Lemma available_from_cons a v tr vec :
  available_from [] a v (tr :: vec) =
  if is_audio tr then
    if a then available_from [] a v vec else tr :: available_from [] true v vec
  else if is_video tr then
    if v then available_from [] a v vec else tr :: available_from [] a true vec
  else available_from [] a v vec.
Proof.
  unfold is_audio, is_video. unfold available_from at 1. simpl.
  destruct (TrackType_eqb (_type tr) TrackAudio); [destruct a | ]; simpl;
    try reflexivity.
  - fold (available_from [tr] true v vec). apply available_from_app.
  - destruct (TrackType_eqb (_type tr) TrackVideo); [destruct v | ]; simpl;
      try reflexivity.
    fold (available_from [tr] a true vec). apply available_from_app.
Qed.

Lemma audio_not_video tr : is_audio tr = true -> is_video tr = false.
Proof. unfold is_audio, is_video. destruct (_type tr); simpl; congruence. Qed.

(** Once a kind has been added, the tracks of that kind are skipped. *)
Lemma available_from_audio_added v vec :
  available_from [] true v vec
  = available_from [] true v (List.filter (fun tr => negb (is_audio tr)) vec).
Proof.
  revert v. induction vec as [ | tr vec IH]; intros v; [reflexivity | ].
  rewrite available_from_cons. simpl.
  destruct (is_audio tr) eqn:Ha; simpl; [apply IH | ].
  rewrite available_from_cons, Ha.
  destruct (is_video tr); [destruct v | ]; rewrite <- ?IH; reflexivity.
Qed.

Lemma available_from_video_added a vec :
  available_from [] a true vec
  = available_from [] a true (List.filter (fun tr => negb (is_video tr)) vec).
Proof.
  revert a. induction vec as [ | tr vec IH]; intros a; [reflexivity | ].
  rewrite available_from_cons. simpl.
  destruct (is_video tr) eqn:Hv; simpl.
  - destruct (is_audio tr) eqn:Ha; [ | apply IH].
    apply audio_not_video in Ha. congruence.
  - rewrite available_from_cons, Hv.
    destruct (is_audio tr); [destruct a | ]; rewrite <- ?IH; reflexivity.
Qed.

(** Without a track of a kind, the flag of that kind is not read. *)
Lemma available_from_no_audio a a' v vec :
  Forall (fun tr => is_audio tr = false) vec ->
  available_from [] a v vec = available_from [] a' v vec.
Proof.
  intros Hall. revert v. induction Hall as [ | tr vec Ha _ IH]; intros v; [reflexivity | ].
  rewrite !available_from_cons, Ha.
  destruct (is_video tr); [destruct v | ]; rewrite ?IH; auto.
Qed.

Lemma available_from_no_video a v v' vec :
  Forall (fun tr => is_video tr = false) vec ->
  available_from [] a v vec = available_from [] a v' vec.
Proof.
  intros Hall. revert a. induction Hall as [ | tr vec Hv _ IH]; intros a; [reflexivity | ].
  rewrite !available_from_cons, Hv.
  destruct (is_audio tr); [destruct a | ]; rewrite ?IH; auto.
Qed.

Lemma Forall_filter_negb (f : SdpTrack -> bool) vec :
  Forall (fun tr => f tr = false) (List.filter (fun tr => negb (f tr)) vec).
Proof.
  apply List.Forall_forall. intros tr Hin. apply filter_In in Hin as [_ Hf].
  now apply negb_true_iff.
Qed.

Lemma available_from_filter_audio a v vec :
  List.filter is_audio (available_from [] a v vec)
  = if a then [] else take 1 (List.filter is_audio vec).
Proof.
  revert a v. induction vec as [ | tr vec IH]; intros a v.
  - destruct a; reflexivity.
  - rewrite available_from_cons. simpl.
    destruct (is_audio tr) eqn:Ha.
    + destruct a; [apply IH | ]. simpl. rewrite Ha, IH. reflexivity.
    + destruct (is_video tr); [destruct v | ]; simpl; rewrite ?Ha; apply IH.
Qed.

Lemma available_from_filter_video a v vec :
  List.filter is_video (available_from [] a v vec)
  = if v then [] else take 1 (List.filter is_video vec).
Proof.
  revert a v. induction vec as [ | tr vec IH]; intros a v.
  - destruct v; reflexivity.
  - rewrite available_from_cons. simpl.
    destruct (is_audio tr) eqn:Ha.
    + rewrite (audio_not_video _ Ha).
      destruct a; [apply IH | ]. simpl. rewrite (audio_not_video _ Ha). apply IH.
    + destruct (is_video tr) eqn:Hv; [ | apply IH].
      destruct v; [apply IH | ]. simpl. rewrite Hv, IH. reflexivity.
Qed.

Lemma available_from_kinds a v vec :
  Forall (fun tr => _type tr = TrackAudio \/ _type tr = TrackVideo)
    (available_from [] a v vec).
Proof.
  revert a v. induction vec as [ | tr vec IH]; intros a v; [constructor | ].
  rewrite available_from_cons.
  destruct (is_audio tr) eqn:Ha.
  - destruct a; [apply IH | ]. constructor; [ | apply IH].
    left. now apply TrackType_eqb_eq.
  - destruct (is_video tr) eqn:Hv; [ | apply IH].
    destruct v; [apply IH | ]. constructor; [ | apply IH].
    right. now apply TrackType_eqb_eq.
Qed.

Lemma available_from_sublist a v vec : sublist (available_from [] a v vec) vec.
Proof.
  revert a v. induction vec as [ | tr vec IH]; intros a v; [constructor | ].
  rewrite available_from_cons.
  destruct (is_audio tr); [destruct a | destruct (is_video tr); [destruct v | ]];
    (apply sublist_skip, IH) || (apply sublist_cons, IH).
Qed.

(** C6.  [getAvailableTrack] returns, in the order of the track vector,
    only audio and video tracks; its audio tracks are the first audio
    track of the vector alone (none if there is none), and likewise for
    video; a track that follows one of its own kind is ignored: the result
    is the same as on the vector without it. *)
Theorem getAvailableTrack_first_of_each_kind (vec : list SdpTrack) :
  List.filter is_audio (getAvailableTrack vec) = take 1 (List.filter is_audio vec)
  /\ List.filter is_video (getAvailableTrack vec) = take 1 (List.filter is_video vec)
  /\ Forall (fun tr => _type tr = TrackAudio \/ _type tr = TrackVideo)
       (getAvailableTrack vec)
  /\ sublist (getAvailableTrack vec) vec
  /\ match vec with
     | [] => getAvailableTrack vec = []
     | tr :: rest =>
         getAvailableTrack vec =
         if is_audio tr then
           tr :: getAvailableTrack (List.filter (fun x => negb (is_audio x)) rest)
         else if is_video tr then
           tr :: getAvailableTrack (List.filter (fun x => negb (is_video x)) rest)
         else getAvailableTrack rest
     end.
Proof.
  unfold getAvailableTrack. repeat split.
  - apply available_from_filter_audio.
  - apply available_from_filter_video.
  - apply available_from_kinds.
  - apply available_from_sublist.
  - destruct vec as [ | tr rest]; [reflexivity | ].
    rewrite available_from_cons.
    destruct (is_audio tr).
    + rewrite available_from_audio_added. f_equal.
      apply available_from_no_audio, Forall_filter_negb.
    + destruct (is_video tr); [ | reflexivity].
      rewrite available_from_video_added. f_equal.
      apply available_from_no_video, Forall_filter_negb.
Qed.

(** ** Tracks and scans *)

Lemma toTrackType_title str : toTrackType str = TrackTitle -> str = ""%string.
Proof.
  unfold toTrackType. destruct (String.eqb_spec str ""); [auto | ].
  destruct (String.eqb str "video"); [discriminate | ].
  destruct (String.eqb str "audio"); discriminate.
Qed.

(** A scan-set conversion never assigns the empty text. *)
Lemma run_assigned_text fmt s : Forall assigned_text (run fmt s).
Proof.
  revert s. induction fmt as [ | d fmt IH]; intros s; simpl; [constructor | ].
  destruct d as [ | c | | | w stop].
  - apply IH.
  - destruct s as [ | c' s']; [constructor | ].
    destruct (Ascii.eqb c c'); [apply IH | constructor].
  - destruct (read_number s) as [[[neg mag] rest] | ]; constructor; [exact I | apply IH].
  - destruct (read_number s) as [[[neg mag] rest] | ]; constructor; [exact I | apply IH].
  - destruct (read_scanset w stop s) as [[ | c tok] rest]; constructor;
      [discriminate | apply IH].
Qed.

Lemma scan_media_type opt_val type port pt :
  scan_media opt_val = Some (type, port, pt) -> type <> ""%string.
Proof.
  unfold scan_media, sscanf.
  pose proof (run_assigned_text fmt_media (c_str opt_val)) as Hfirst.
  pose proof (run_assigned_text fmt_media_count (c_str opt_val)) as Hsecond.
  repeat case_match; intros Hscan; simplify_eq;
    match goal with
    | Hall : Forall assigned_text (V_str type :: _) |- _ =>
        inversion Hall; assumption
    end.
Qed.

Lemma setters_keep_type :
  forall tr,
    (forall x, _type (set_t x tr) = _type tr)
    /\ (forall x, _type (set_b x tr) = _type tr)
    /\ (forall x, _type (set_attr x tr) = _type tr)
    /\ (forall x, _type (set_other x tr) = _type tr)
    /\ (forall x, _type (set_pt x tr) = _type tr)
    /\ (forall x, _type (set_codec x tr) = _type tr)
    /\ (forall x, _type (set_samplerate x tr) = _type tr)
    /\ (forall x, _type (set_channel x tr) = _type tr)
    /\ (forall x, _type (set_fmtp x tr) = _type tr)
    /\ (forall x, _type (set_control x tr) = _type tr).
Proof. intros tr. repeat split. Qed.

Lemma title_first_app kinds more :
  title_first kinds -> Forall (fun k => k <> TrackTitle) more ->
  title_first (kinds ++ more).
Proof.
  intros (rest & -> & Hrest) Hmore. exists (rest ++ more). split; [reflexivity | ].
  apply Forall_app. split; assumption.
Qed.

Lemma on_track_kinds f st :
  (forall tr, _type (f tr) = _type tr) ->
  map _type (track_vec (on_track f st)) = map _type (track_vec st).
Proof.
  intros Hf. unfold track_vec, on_track. simpl. rewrite !map_app. f_equal.
  destruct (track_in_vec st); simpl; [rewrite Hf | ]; reflexivity.
Qed.

(** What every turn keeps, the loop keeps, whatever the slot holds. *)
Lemma prune_from_kept {A : Type} (f : SdpTrack -> A) key body slot tr it :
  (forall slot tr v, f (body slot tr v).1 = f tr) ->
  f (prune_from key body slot tr it).1 = f tr.
Proof.
  intros Hbody. revert slot tr.
  induction it as [ | [k v] rest IH]; intros slot tr; [reflexivity | ].
  simpl. destruct (String.eqb k key); [ | reflexivity].
  specialize (Hbody slot tr v). destruct (body slot tr v) as [tr' erase].
  simpl in Hbody. destruct erase.
  - rewrite IH. exact Hbody.
  - specialize (IH (scanned_pt slot v) tr').
    destruct (prune_from key body (scanned_pt slot v) tr' rest) as [tr'' rest'].
    simpl in *. congruence.
Qed.

Lemma prune_from_type key body slot tr it :
  (forall slot tr v, _type (body slot tr v).1 = _type tr) ->
  _type (prune_from key body slot tr it).1 = _type tr.
Proof. apply prune_from_kept. Qed.

Lemma prune_loop_type key body slot tr :
  (forall slot tr v, _type (body slot tr v).1 = _type tr) ->
  _type (prune_loop key body slot tr) = _type tr.
Proof.
  intros Hbody. unfold prune_loop.
  destruct (mm_find key (_attr tr)) as [before it].
  pose proof (prune_from_type key body slot tr it Hbody) as Hfrom.
  destruct (prune_from key body slot tr it) as [tr' it']. exact Hfrom.
Qed.


(** ** C3: pruning of [rtpmap] and [fmtp] *)

Lemma rtpmap_body_type slot tr v : _type (rtpmap_body slot tr v).1 = _type tr.
Proof.
  unfold rtpmap_body. repeat case_match; reflexivity.
Qed.

Lemma fmtp_body_type slot tr v : _type (fmtp_body slot tr v).1 = _type tr.
Proof.
  unfold fmtp_body. repeat case_match; reflexivity.
Qed.

Section PruneFacts.

(** What the slot of [pt] holds when a turn, or a loop, starts. *)
Variable slot : Z.

#[local] Abbreviation rtpmap_body := (rtpmap_body slot).
#[local] Abbreviation fmtp_body := (fmtp_body slot).
#[local] Abbreviation rtpmap_loop := (rtpmap_loop slot).
#[local] Abbreviation fmtp_loop := (fmtp_loop slot).
#[local] Abbreviation pt_mismatch := (pt_mismatch slot).
#[local] Abbreviation scanned_pt := (scanned_pt slot).

Lemma leading_pt_of_scan v fmt n vs :
  sscanf v (D_d :: fmt) = V_int n :: vs -> leading_pt v = Some n.
Proof.
  unfold leading_pt, sscanf, fmt_pt. simpl.
  destruct (read_number (c_str v)) as [[[neg mag] rest] | ]; [ | discriminate].
  intros [= <- _]. reflexivity.
Qed.

Lemma scanned_pt_leading v n : leading_pt v = Some n -> scanned_pt v = n.
Proof. unfold scanned_pt. now intros ->. Qed.

Lemma rtpmap_body_pt_mismatch tr v : (rtpmap_body tr v).2 = pt_mismatch tr v.
Proof.
  unfold Sdp.rtpmap_body.
  destruct (Sdp.pt_mismatch _ _ _); [reflexivity | ]. repeat case_match; reflexivity.
Qed.

Lemma fmtp_body_pt_mismatch tr v : (fmtp_body tr v).2 = pt_mismatch tr v.
Proof. unfold Sdp.fmtp_body. destruct (Sdp.pt_mismatch _ _ _); reflexivity. Qed.

Lemma rtpmap_body_erased tr v : pt_mismatch tr v = true -> rtpmap_body tr v = (tr, true).
Proof. unfold Sdp.rtpmap_body. now intros ->. Qed.

Lemma fmtp_body_erased tr v : pt_mismatch tr v = true -> fmtp_body tr v = (tr, true).
Proof. unfold Sdp.fmtp_body. now intros ->. Qed.

Lemma pt_mismatch_false tr v :
  pt_mismatch tr v = false <-> scanned_pt v = _pt tr \/ _pt tr = 255.
Proof.
  unfold Sdp.pt_mismatch.
  destruct (Z.eqb_spec (_pt tr) (scanned_pt v));
    destruct (Z.eqb_spec (_pt tr) 255); simpl; split; intros Hcase;
    try discriminate; try tauto; auto; destruct Hcase; congruence.
Qed.

Lemma rtpmap_body_pt tr v : _pt tr <> 255 -> _pt (rtpmap_body tr v).1 = _pt tr.
Proof.
  intros Hset. unfold Sdp.rtpmap_body.
  destruct (Sdp.pt_mismatch _ _ _) eqn:Herase; [reflexivity | ].
  apply pt_mismatch_false in Herase as [Hpt | ?]; [ | contradiction].
  destruct (sscanf v fmt_rtpmap_channels)
    as [ | [n1 | ?] [ | [? | c1] [ | [r1 | ?] [ | [ch1 | ?] [ | ? ?]]]]] eqn:Hfour;
    try reflexivity;
    destruct (sscanf v fmt_rtpmap)
      as [ | [n2 | ?] [ | [? | c2] [ | [r2 | ?] [ | ? ?]]]] eqn:Hthree;
    try reflexivity;
    apply leading_pt_of_scan, scanned_pt_leading in Hthree; simpl; congruence.
Qed.

Lemma fmtp_body_pt tr v : _pt (fmtp_body tr v).1 = _pt tr.
Proof. unfold Sdp.fmtp_body. destruct (Sdp.pt_mismatch _ _ _); reflexivity. Qed.




Lemma other_pt_scanned pt0 v : other_pt pt0 v = true -> scanned_pt v <> pt0.
Proof.
  unfold other_pt, Sdp.scanned_pt. destruct (leading_pt v) as [n | ]; [ | discriminate].
  intros Hne Heq. subst. now rewrite Z.eqb_refl in Hne.
Qed.

Lemma pt_mismatch_set_attr m tr v : pt_mismatch (set_attr m tr) v = pt_mismatch tr v.
Proof. reflexivity. Qed.

Lemma rtpmap_body_set_attr tr v m :
  rtpmap_body (set_attr m tr) v
  = (set_attr m (rtpmap_body tr v).1, (rtpmap_body tr v).2).
Proof.
  unfold Sdp.rtpmap_body. rewrite pt_mismatch_set_attr.
  destruct (pt_mismatch tr v); [reflexivity | ].
  repeat case_match; reflexivity.
Qed.

Lemma fmtp_body_set_attr tr v m :
  fmtp_body (set_attr m tr) v = (set_attr m (fmtp_body tr v).1, (fmtp_body tr v).2).
Proof.
  unfold Sdp.fmtp_body. rewrite pt_mismatch_set_attr.
  destruct (pt_mismatch tr v); reflexivity.
Qed.

Lemma rtpmap_body_erased_track tr v : pt_mismatch tr v = true -> (rtpmap_body tr v).1 = tr.
Proof. intros Herase. now rewrite rtpmap_body_erased. Qed.

Lemma fmtp_body_erased_track tr v : pt_mismatch tr v = true -> (fmtp_body tr v).1 = tr.
Proof. intros Herase. now rewrite fmtp_body_erased. Qed.



End PruneFacts.

(** With a leading number a turn does not look at what the slot held. *)
Lemma scanned_pt_numbered slot slot' v :
  leading_pt v <> None -> scanned_pt slot v = scanned_pt slot' v.
Proof. unfold scanned_pt. now destruct (leading_pt v). Qed.

Lemma rtpmap_body_numbered slot slot' tr v :
  leading_pt v <> None -> rtpmap_body slot tr v = rtpmap_body slot' tr v.
Proof.
  intros Hv. unfold rtpmap_body, pt_mismatch.
  now rewrite (scanned_pt_numbered slot slot').
Qed.

Lemma fmtp_body_numbered slot slot' tr v :
  leading_pt v <> None -> fmtp_body slot tr v = fmtp_body slot' tr v.
Proof.
  intros Hv. unfold fmtp_body, pt_mismatch.
  now rewrite (scanned_pt_numbered slot slot').
Qed.

Lemma has_pt_scanned pt0 slot v : has_pt pt0 v = true -> scanned_pt slot v = pt0.
Proof.
  unfold has_pt, scanned_pt. destruct (leading_pt v) as [n | ]; [ | discriminate].
  now intros Heq%Z.eqb_eq.
Qed.

(** *** The loop over the entries of a key *)

Lemma mm_find_absent key m : key ∉ keys m -> mm_find key m = (m, []).
Proof.
  induction m as [ | [k v] m IH]; intros Hkey; [reflexivity | ].
  simpl in *. apply not_elem_of_cons in Hkey as [Hne Hkey].
  destruct (String.eqb_spec k key); [congruence | ].
  now rewrite IH.
Qed.

Lemma mm_find_first key before v rest :
  key ∉ keys before ->
  mm_find key (before ++ (key, v) :: rest) = (before, (key, v) :: rest).
Proof.
  induction before as [ | [k w] before IH]; intros Hkey; simpl.
  - now rewrite String.eqb_refl.
  - simpl in Hkey. apply not_elem_of_cons in Hkey as [Hne Hkey].
    destruct (String.eqb_spec k key); [congruence | ].
    now rewrite IH.
Qed.

Lemma prune_from_other key body slot tr after :
  key ∉ keys after -> prune_from key body slot tr after = (tr, after).
Proof.
  destruct after as [ | [k v] after]; intros Hkey; [reflexivity | ].
  simpl in *. apply not_elem_of_cons in Hkey as [Hne _].
  destruct (String.eqb_spec k key); [congruence | reflexivity].
Qed.

Lemma keys_app m1 m2 : keys (m1 ++ m2) = keys m1 ++ keys m2.
Proof. apply map_app. Qed.

(** ** The multimap keeps its keys in order *)

Lemma ltb_true_le k k' : String.ltb k k' = true -> String.le k k'.
Proof.
  unfold String.ltb, String.le, String.leb.
  destruct (String.compare k k'); [discriminate | intros _; exact I | discriminate].
Qed.

Lemma ltb_false_le k k' : String.ltb k k' = false -> String.le k' k.
Proof.
  intros Hlt. unfold String.le, String.leb.
  pose proof (String.compare_antisym k k') as Hanti.
  destruct (String.compare k' k); [exact I | exact I | ].
  unfold String.ltb in Hlt. rewrite Hanti in Hlt. discriminate.
Qed.

Lemma keys_emplace_Forall (P : string -> Prop) k v m :
  Forall P (keys (mm_emplace k v m)) <-> P k /\ Forall P (keys m).
Proof.
  unfold keys. induction m as [ | [k' v'] m IH]; simpl.
  - apply Forall_cons.
  - destruct (String.ltb k k'); simpl.
    + apply Forall_cons.
    + split.
      * intros Hall. apply Forall_cons in Hall as [Hk' Hall].
        apply IH in Hall as [Hk Hall]. split; [exact Hk | ].
        apply Forall_cons. now split.
      * intros [Hk Hall]. apply Forall_cons in Hall as [Hk' Hall].
        apply Forall_cons. split; [exact Hk' | ]. apply IH. now split.
Qed.

Lemma mm_emplace_sorted k v m : mm_sorted m -> mm_sorted (mm_emplace k v m).
Proof.
  unfold mm_sorted, keys. induction m as [ | [k' v'] m IH]; intros Hm; simpl.
  - repeat constructor.
  - apply StronglySorted_inv in Hm as [Hm Hk'].
    destruct (String.ltb k k') eqn:Hlt; simpl.
    + constructor; [constructor; assumption | ].
      apply ltb_true_le in Hlt. constructor; [exact Hlt | ].
      eapply Forall_impl; [exact Hk' | ]. intros k'' Hle. simpl. now transitivity k'.
    + constructor; [now apply IH | ].
      apply (keys_emplace_Forall (String.le k')).
      split; [now apply ltb_false_le | exact Hk'].
Qed.

(** In a sorted multimap the entries of a key lie together. *)
Lemma mm_sorted_run key m :
  mm_sorted m ->
  exists before vs after,
    m = before ++ map (pair key) vs ++ after
    /\ (key ∉ keys before) /\ (key ∉ keys after).
Proof.
  unfold mm_sorted. induction m as [ | [k v] m IH]; intros Hm.
  - exists [], [], []. repeat split; apply not_elem_of_nil.
  - simpl in Hm. apply StronglySorted_inv in Hm as [Hm Hk].
    destruct (IH Hm) as (before & vs & after & -> & Hbefore & Hafter).
    destruct (decide (k = key)) as [-> | Hne].
    + destruct vs as [ | v1 vs].
      * exists [], [v], (before ++ after). repeat split.
        -- apply not_elem_of_nil.
        -- rewrite keys_app. rewrite not_elem_of_app. now split.
      * destruct before as [ | [kb vb] before].
        -- exists [], (v :: v1 :: vs), after. repeat split; [apply not_elem_of_nil | assumption].
        -- exfalso. simpl in *.
           apply not_elem_of_cons in Hbefore as [Hkb _]. apply Hkb.
           apply Forall_cons in Hk as [Hle _].
           apply StronglySorted_inv in Hm as [_ Hall].
           rewrite keys_app in Hall. apply Forall_app in Hall as [_ Hall].
           simpl in Hall. apply Forall_cons in Hall as [Hge _].
           now apply (anti_symm String.le).
    + exists ((k, v) :: before), vs, after. repeat split; [ | assumption].
      simpl. apply not_elem_of_cons. split; [congruence | assumption].
Qed.

Lemma filter_no_key (f : string * string -> bool) key m :
  key ∉ keys m -> (forall kv, kv.1 <> key -> f kv = true) -> List.filter f m = m.
Proof.
  intros Hkey Hf. induction m as [ | [k v] m IH]; [reflexivity | ].
  simpl in *. apply not_elem_of_cons in Hkey as [Hne Hkey].
  rewrite Hf by (simpl; congruence). now rewrite IH.
Qed.

Lemma filter_run (f : string * string -> bool) key vs :
  List.filter f (map (pair key) vs)
  = map (pair key) (List.filter (fun v => f (key, v)) vs).
Proof.
  induction vs as [ | v vs IH]; [reflexivity | ].
  simpl. destruct (f (key, v)); simpl; now rewrite IH.
Qed.

Lemma filter_entries (f : string * string -> bool) key before vs after :
  key ∉ keys before -> key ∉ keys after ->
  (forall kv, kv.1 <> key -> f kv = true) ->
  List.filter f (before ++ map (pair key) vs ++ after)
  = before ++ map (pair key) (List.filter (fun v => f (key, v)) vs) ++ after.
Proof.
  intros Hbefore Hafter Hf.
  rewrite !List.filter_app, filter_run.
  now rewrite (filter_no_key f key before), (filter_no_key f key after).
Qed.

Lemma Forall_sublist {A} (P : A -> Prop) (l1 l2 : list A) :
  sublist l1 l2 -> Forall P l2 -> Forall P l1.
Proof.
  induction 1 as [ | x l1 l2 _ IH | x l1 l2 _ IH]; intros Hall.
  - constructor.
  - apply Forall_cons in Hall as [Hx Hall]. constructor; auto.
  - apply Forall_cons in Hall as [_ Hall]. auto.
Qed.

Lemma StronglySorted_sublist {A} (R : A -> A -> Prop) (l1 l2 : list A) :
  sublist l1 l2 -> StronglySorted R l2 -> StronglySorted R l1.
Proof.
  induction 1 as [ | x l1 l2 Hsub IH | x l1 l2 _ IH]; intros Hsorted.
  - constructor.
  - apply StronglySorted_inv in Hsorted as [Hsorted Hx].
    constructor; [auto | ]. now apply (Forall_sublist _ l1 l2).
  - apply StronglySorted_inv in Hsorted as [Hsorted _]. auto.
Qed.

Lemma mm_sorted_sublist m1 m2 : sublist m1 m2 -> mm_sorted m2 -> mm_sorted m1.
Proof.
  unfold mm_sorted, keys. intros Hsub. apply StronglySorted_sublist.
  now apply fmap_sublist.
Qed.

Lemma mm_find_app key m : (mm_find key m).1 ++ (mm_find key m).2 = m.
Proof.
  induction m as [ | [k v] m IH]; [reflexivity | ].
  simpl. destruct (String.eqb k key); [reflexivity | ].
  destruct (mm_find key m) as [before it]. simpl in *. now rewrite IH.
Qed.

Lemma prune_from_sublist key body slot tr it :
  sublist (prune_from key body slot tr it).2 it.
Proof.
  revert slot tr. induction it as [ | [k v] it IH]; intros slot tr; [constructor | ].
  simpl. destruct (String.eqb k key); [ | reflexivity].
  destruct (body slot tr v) as [tr' erase]. destruct erase.
  - apply sublist_cons, IH.
  - specialize (IH (scanned_pt slot v) tr').
    destruct (prune_from key body (scanned_pt slot v) tr' it) as [tr'' it'].
    simpl in *. now apply sublist_skip.
Qed.

Lemma prune_loop_sublist key body slot tr :
  sublist (_attr (prune_loop key body slot tr)) (_attr tr).
Proof.
  unfold prune_loop. pose proof (mm_find_app key (_attr tr)) as Happ.
  destruct (mm_find key (_attr tr)) as [before it]. simpl in Happ.
  pose proof (prune_from_sublist key body slot tr it) as Hsub.
  destruct (prune_from key body slot tr it) as [tr' it']. simpl in *.
  rewrite <- Happ. apply sublist_app; [reflexivity | exact Hsub].
Qed.

Lemma prune_loop_sorted key body slot tr :
  mm_sorted (_attr tr) -> mm_sorted (_attr (prune_loop key body slot tr)).
Proof. apply mm_sorted_sublist, prune_loop_sublist. Qed.

(** One turn of either loop on the entry the iterator is at: an erased
    entry leaves the multimap, a surviving one stays in its place, and the
    next turn finds in the slot the number this one read, or what this one
    found. *)
Lemma prune_from_turn key body slot tr v rest :
  prune_from key body slot tr ((key, v) :: rest) =
  if (body slot tr v).2
  then prune_from key body (scanned_pt slot v) (body slot tr v).1 rest
  else ((prune_from key body (scanned_pt slot v) (body slot tr v).1 rest).1,
        (key, v) :: (prune_from key body (scanned_pt slot v) (body slot tr v).1 rest).2).
Proof.
  simpl. rewrite String.eqb_refl. destruct (body slot tr v) as [tr' erase]. simpl.
  destruct erase; [reflexivity | ].
  destruct (prune_from key body (scanned_pt slot v) tr' rest). reflexivity.
Qed.

Section Pruning.

Variable key : string.
Variable body : Z -> SdpTrack -> string -> SdpTrack * bool.

Hypothesis body_flag : forall slot tr v, (body slot tr v).2 = pt_mismatch slot tr v.
Hypothesis body_erased :
  forall slot tr v, pt_mismatch slot tr v = true -> (body slot tr v).1 = tr.
Hypothesis body_pt : forall slot tr v, _pt tr <> 255 -> _pt (body slot tr v).1 = _pt tr.
Hypothesis body_attr :
  forall slot tr v m,
    body slot (set_attr m tr) v = (set_attr m (body slot tr v).1, (body slot tr v).2).
Hypothesis body_numbered :
  forall slot slot' tr v, leading_pt v <> None -> body slot tr v = body slot' tr v.

Lemma prune_from_pt slot tr it :
  _pt tr <> 255 -> _pt (prune_from key body slot tr it).1 = _pt tr.
Proof.
  revert slot tr. induction it as [ | [k v] it IH]; intros slot tr Hset; [reflexivity | ].
  simpl. destruct (String.eqb k key); [ | reflexivity].
  pose proof (body_pt slot tr v Hset) as Hpt.
  destruct (body slot tr v) as [tr' erase]. simpl in Hpt.
  assert (Hset' : _pt tr' <> 255) by congruence.
  specialize (IH (scanned_pt slot v) tr' Hset'). destruct erase.
  - congruence.
  - destruct (prune_from key body (scanned_pt slot v) tr' it) as [tr'' it'].
    simpl in *. congruence.
Qed.

Lemma prune_loop_pt slot tr :
  _pt tr <> 255 -> _pt (prune_loop key body slot tr) = _pt tr.
Proof.
  intros Hset. unfold prune_loop.
  destruct (mm_find key (_attr tr)) as [before it].
  pose proof (prune_from_pt slot tr it Hset) as Hpt.
  destruct (prune_from key body slot tr it) as [tr' it']. exact Hpt.
Qed.

(** With a payload type set, a turn erases exactly when [pt] is another
    number. *)
Lemma body_flag_set slot tr v :
  _pt tr <> 255 -> (body slot tr v).2 = negb (scanned_pt slot v =? _pt tr).
Proof.
  intros Hset. rewrite body_flag. unfold pt_mismatch.
  rewrite (Z.eqb_sym (scanned_pt slot v)).
  destruct (Z.eqb_spec (_pt tr) 255); [contradiction | ]. apply andb_true_r.
Qed.

(** What the loop leaves of the entries of its key: none that starts with
    another number, and every one that starts with the payload type. *)
Lemma prune_from_left vs slot tr after :
  _pt tr <> 255 -> key ∉ keys after ->
  exists left,
    (prune_from key body slot tr (map (pair key) vs ++ after)).2
    = map (pair key) left ++ after
    /\ sublist left vs
    /\ Forall (fun v => other_pt (_pt tr) v = false) left
    /\ List.filter (has_pt (_pt tr)) left = List.filter (has_pt (_pt tr)) vs.
Proof.
  intros Hset Hafter. revert slot tr Hset.
  induction vs as [ | v vs IH]; intros slot tr Hset.
  - exists []. simpl. rewrite prune_from_other by assumption.
    repeat split; constructor.
  - cbn [map app]. rewrite prune_from_turn.
    pose proof (body_flag_set slot tr v Hset) as Hflag.
    pose proof (body_pt slot tr v Hset) as Hpt.
    assert (Hset' : _pt (body slot tr v).1 <> 255) by congruence.
    destruct (IH (scanned_pt slot v) _ Hset') as (left & Hleft & Hsub & Hother & Hsame).
    rewrite Hpt in Hother, Hsame. rewrite Hflag.
    destruct (Z.eqb_spec (scanned_pt slot v) (_pt tr)) as [Heq | Hne]; cbn [negb].
    + exists (v :: left). cbn [snd map app]. rewrite Hleft.
      split; [reflexivity | ]. split; [now apply sublist_skip | ].
      split.
      * constructor; [ | exact Hother].
        destruct (other_pt (_pt tr) v) eqn:Hv; [ | reflexivity].
        apply (other_pt_scanned slot) in Hv. contradiction.
      * cbn [List.filter]. now rewrite Hsame.
    + exists left. rewrite Hleft.
      split; [reflexivity | ]. split; [now apply sublist_cons | ].
      split; [exact Hother | ].
      cbn [List.filter]. destruct (has_pt (_pt tr) v) eqn:Hv; [ | exact Hsame].
      apply (has_pt_scanned _ slot) in Hv. contradiction.
Qed.


Lemma body_other slot tr v :
  _pt tr <> 255 -> scanned_pt slot v <> _pt tr -> body slot tr v = (tr, true).
Proof.
  intros Hset Hne.
  assert (Hflag : (body slot tr v).2 = true).
  { rewrite (body_flag_set _ _ _ Hset). now apply negb_true_iff, Z.eqb_neq. }
  pose proof (body_erased slot tr v) as Hsame. rewrite <- body_flag in Hsame.
  specialize (Hsame Hflag). destruct (body slot tr v); simpl in *; congruence.
Qed.


(** When every value starts with a number, the loop is the same on the
    entries without those of another number, whatever the slot held, and
    it leaves exactly these. *)
Lemma prune_from_numbered vs slot slot' tr after :
  Forall (fun v => leading_pt v <> None) vs ->
  _pt tr <> 255 -> key ∉ keys after ->
  prune_from key body slot tr (map (pair key) vs ++ after)
  = prune_from key body slot' tr
      (map (pair key) (List.filter (fun v => negb (other_pt (_pt tr) v)) vs) ++ after)
  /\ (prune_from key body slot tr (map (pair key) vs ++ after)).2
     = map (pair key) (List.filter (fun v => negb (other_pt (_pt tr) v)) vs) ++ after.
Proof.
  intros Hall Hset Hafter. revert slot slot' tr Hset.
  induction vs as [ | v vs IH]; intros slot slot' tr Hset.
  - simpl. now rewrite !prune_from_other.
  - apply Forall_cons in Hall as [Hv Hall]. specialize (IH Hall).
    cbn [map app List.filter]. rewrite prune_from_turn.
    pose proof (body_flag_set slot tr v Hset) as Hflag.
    pose proof (body_pt slot tr v Hset) as Hpt.
    destruct (leading_pt v) as [n | ] eqn:Hlead; [ | congruence].
    assert (Hscan : forall s, scanned_pt s v = n)
      by (intros s; unfold scanned_pt; now rewrite Hlead).
    assert (Hother : other_pt (_pt tr) v = negb (n =? _pt tr))
      by (unfold other_pt; now rewrite Hlead).
    rewrite Hother, Hscan. rewrite Hscan in Hflag.
    destruct (Z.eqb_spec n (_pt tr)) as [Heq | Hne]; cbn [negb] in *.
    + cbn [map app]. rewrite prune_from_turn, Hscan.
      rewrite (body_numbered slot' slot) by congruence.
      rewrite Hflag.
      assert (Hset' : _pt (body slot tr v).1 <> 255) by congruence.
      destruct (IH n n _ Hset') as [Hsame Hleft]. rewrite Hpt in Hsame, Hleft.
      rewrite <- Hsame. split; [reflexivity | ]. cbn [snd]. now rewrite Hleft.
    + rewrite Hflag.
      rewrite (body_other slot tr v Hset) by (rewrite Hscan; exact Hne).
      apply IH, Hset.
Qed.

Lemma prune_from_set_attr m slot tr it :
  prune_from key body slot (set_attr m tr) it
  = (set_attr m (prune_from key body slot tr it).1, (prune_from key body slot tr it).2).
Proof.
  revert slot tr. induction it as [ | [k v] it IH]; intros slot tr; [reflexivity | ].
  simpl. destruct (String.eqb k key); [ | reflexivity].
  rewrite body_attr. destruct (body slot tr v) as [tr' erase]. simpl.
  destruct erase.
  - apply IH.
  - rewrite IH. destruct (prune_from key body (scanned_pt slot v) tr' it) as [tr'' it'].
    reflexivity.
Qed.

(** The loop on a track whose entries of the key lie together, as a
    multimap holds them. *)
Lemma prune_loop_entries slot tr before vs after :
  _attr tr = before ++ map (pair key) vs ++ after ->
  key ∉ keys before -> key ∉ keys after ->
  prune_loop key body slot tr
  = set_attr (before ++ (prune_from key body slot tr (map (pair key) vs ++ after)).2)
      (prune_from key body slot tr (map (pair key) vs ++ after)).1.
Proof.
  intros Hattr Hbefore Hafter. unfold prune_loop. rewrite Hattr.
  destruct vs as [ | v vs].
  - simpl. rewrite mm_find_absent.
    + simpl. rewrite prune_from_other by assumption. simpl. now rewrite app_nil_r.
    + rewrite keys_app. rewrite not_elem_of_app. split; assumption.
  - change (map (pair key) (v :: vs) ++ after)
      with ((key, v) :: (map (pair key) vs ++ after)).
    rewrite mm_find_first by assumption.
    destruct (prune_from key body slot tr ((key, v) :: map (pair key) vs ++ after)).
    reflexivity.
Qed.

Lemma without_other_entries pt0 before vs after :
  key ∉ keys before -> key ∉ keys after ->
  without_other key pt0 (before ++ map (pair key) vs ++ after)
  = before ++ map (pair key) (List.filter (fun v => negb (other_pt pt0 v)) vs) ++ after.
Proof.
  intros Hb Ha. unfold without_other.
  rewrite (filter_entries _ key) by
    (assumption || (intros [k v] Hk; simpl in *; apply String.eqb_neq in Hk;
                    now rewrite Hk)).
  simpl. now rewrite String.eqb_refl.
Qed.

(** On a sorted multimap, where the entries of the key lie together: what
    the loop leaves. *)
Lemma prune_loop_pruned slot tr :
  mm_sorted (_attr tr) -> _pt tr <> 255 ->
  pruned key (_pt tr) (_attr tr) (_attr (prune_loop key body slot tr)).
Proof.
  intros Hsorted Hset.
  destruct (mm_sorted_run key _ Hsorted) as (before & vs & after & Hattr & Hb & Ha).
  split; [apply prune_loop_sublist | ].
  rewrite (prune_loop_entries slot tr before vs after) by assumption.
  destruct (prune_from_left vs slot tr after Hset Ha)
    as (left & -> & Hsub & Hother & Hsame).
  cbn [_attr set_attr]. rewrite Hattr. split.
  - rewrite (without_other_entries (_pt tr) before left after Hb Ha). do 2 f_equal.
    clear Hsub Hsame. induction Hother as [ | v left Hv _ IH]; [reflexivity | ].
    cbn [List.filter]. rewrite Hv. cbn [negb map]. now rewrite IH.
  - rewrite !(filter_entries _ key) by
      (assumption || (intros [k v] Hk; simpl in *; apply String.eqb_neq in Hk;
                      now rewrite Hk)).
    cbn [fst snd]. rewrite String.eqb_refl. cbn [negb orb].
    do 3 f_equal. exact Hsame.
Qed.


(** When every entry of the key starts with a number, the whole track the
    loop leaves is the one it leaves without the entries of another
    number, and those are the entries it erases. *)
Lemma prune_loop_numbered slot slot' tr :
  Forall (fun kv => kv.1 = key -> leading_pt kv.2 <> None) (_attr tr) ->
  mm_sorted (_attr tr) -> _pt tr <> 255 ->
  prune_loop key body slot tr
  = prune_loop key body slot' (set_attr (without_other key (_pt tr) (_attr tr)) tr)
  /\ _attr (prune_loop key body slot tr) = without_other key (_pt tr) (_attr tr).
Proof.
  intros Hall Hsorted Hset.
  destruct (mm_sorted_run key _ Hsorted) as (before & vs & after & Hattr & Hb & Ha).
  assert (Hvs : Forall (fun v => leading_pt v <> None) vs).
  { rewrite Hattr in Hall. apply Forall_app in Hall as [_ Hall].
    apply Forall_app in Hall as [Hall _]. rewrite Forall_map in Hall.
    eapply Forall_impl; [exact Hall | ]. intros v Hv. now apply Hv. }
  destruct (prune_from_numbered vs slot slot' tr after Hvs Hset Ha) as [Hsame Hleft].
  rewrite (prune_loop_entries slot tr before vs after) by assumption.
  rewrite Hattr, without_other_entries by assumption.
  rewrite (prune_loop_entries slot' (set_attr _ tr) before
             (List.filter (fun v => negb (other_pt (_pt tr) v)) vs) after)
    by (assumption || reflexivity).
  rewrite prune_from_set_attr. cbn [fst snd]. rewrite <- Hsame, Hleft.
  split; [ | reflexivity].
  destruct (prune_from key body slot tr (map (pair key) vs ++ after)) as [tr' it'].
  cbn [fst snd] in *. subst it'. now destruct tr'.
Qed.

End Pruning.





(** What holds of every track before the second block and is kept by it
    holds of every track of the vector. *)
Lemma Forall_imap {A B : Type} (P : A -> Prop) (Q : B -> Prop) (f : nat -> A -> B)
    (l : list A) :
  (forall i x, P x -> Q (f i x)) -> Forall P l -> Forall Q (imap f l).
Proof.
  revert f. induction l as [ | x l IH]; intros f Hf Hall; [constructor | ].
  apply Forall_cons in Hall as [Hx Hall]. rewrite imap_cons.
  constructor; [now apply Hf | ]. apply IH; [ | exact Hall].
  intros i y Hy. now apply Hf.
Qed.

(** ** C8: the title record *)

Section LoadFacts.

Context {CodecId : Type} `{Countable CodecId}.
Context {T : Type} `{!Track (CodecId := CodecId) T}.
Variable split : string -> list string.
Variable trim : string -> string.
Variable RTP_PT_MAP : list (pt_entry (CodecId := CodecId)).
Variable getTrackBySdp : SdpTrack -> option T.
Variable indeterminate : nat -> string -> Z.

#[local] Abbreviation load := (load split trim RTP_PT_MAP getTrackBySdp indeterminate).
#[local] Abbreviation load_line := (load_line trim RTP_PT_MAP).
#[local] Abbreviation load_lines := (load_lines split trim RTP_PT_MAP).
#[local] Abbreviation resolve := (resolve getTrackBySdp indeterminate).

Lemma load_line_title_first st line :
  title_first (map _type (track_vec st)) ->
  title_first (map _type (track_vec (load_line st line))).
Proof.
  intros Hst. unfold load_line.
  destruct (trim line) as [ | opt [ | c1 opt_val]]; try exact Hst.
  destruct (Ascii.eqb c1 "="); simpl; [ | exact Hst].
  repeat (destruct (Ascii.eqb opt _);
          [ try (rewrite on_track_kinds; [exact Hst | reflexivity]) | ]).
  - destruct (scan_media opt_val) as [[[type port] pt] | ] eqn:Hscan.
    + unfold track_vec at 1. simpl. rewrite map_app. simpl.
      apply title_first_app; [exact Hst | ].
      constructor; [ | constructor].
      intros Htitle. apply toTrackType_title in Htitle.
      now apply scan_media_type in Hscan.
    + unfold track_vec at 1. simpl. rewrite app_nil_r. exact Hst.
  - destruct (String.eqb _ ""); rewrite on_track_kinds; solve [exact Hst | reflexivity].
  - rewrite on_track_kinds; [exact Hst | reflexivity].
Qed.

Lemma load_lines_title_first sdp :
  title_first (map _type (track_vec (load_lines sdp))).
Proof.
  unfold load_lines.
  set (st0 := {| pushed := []; track := set_type TrackTitle SdpTrack_new;
                 track_in_vec := true |}).
  assert (H0 : title_first (map _type (track_vec st0))).
  { exists []. split; [reflexivity | constructor]. }
  revert H0. generalize st0. induction (split sdp) as [ | line lines IH]; intros st Hst.
  - exact Hst.
  - simpl. apply IH, load_line_title_first, Hst.
Qed.

Lemma resolve_type i tr : _type (resolve i tr) = _type tr.
Proof.
  unfold resolve, samplerate_fallback, control_step.
  assert (Hloops : forall s1 s2, _type (fmtp_loop s2 (rtpmap_loop s1 tr)) = _type tr).
  { intros s1 s2. unfold Sdp.fmtp_loop, Sdp.rtpmap_loop.
    rewrite !prune_loop_type; auto using rtpmap_body_type, fmtp_body_type. }
  repeat case_match; simpl; apply Hloops.
Qed.

(** Every multimap the first block builds is in key order, and the
    pruning loops keep it so. *)
Lemma load_line_sorted st line :
  Forall (fun tr => mm_sorted (_attr tr)) (pushed st) ->
  mm_sorted (_attr (track st)) ->
  Forall (fun tr => mm_sorted (_attr tr)) (pushed (load_line st line))
  /\ mm_sorted (_attr (track (load_line st line))).
Proof.
  intros Hpushed Htrack. unfold Sdp.load_line.
  destruct (trim line) as [ | opt [ | c1 opt_val]]; try (split; assumption).
  assert (Hvec : Forall (fun tr => mm_sorted (_attr tr)) (track_vec st)).
  { unfold track_vec. apply Forall_app. split; [assumption | ].
    destruct (track_in_vec st); repeat constructor; assumption. }
  destruct (Ascii.eqb c1 "="); simpl; [ | split; assumption].
  repeat (destruct (Ascii.eqb opt _); [ try (split; assumption) | ]).
  - destruct (scan_media opt_val) as [[[type port] pt] | ]; simpl;
      (split; [exact Hvec | constructor]).
  - destruct (String.eqb _ ""); simpl;
      (split; [assumption | now apply mm_emplace_sorted]).
  - split; assumption.
Qed.

Lemma load_lines_sorted sdp :
  Forall (fun tr => mm_sorted (_attr tr)) (track_vec (load_lines sdp)).
Proof.
  unfold Sdp.load_lines.
  set (st0 := {| pushed := []; track := set_type TrackTitle SdpTrack_new;
                 track_in_vec := true |}).
  assert (H0 : Forall (fun tr => mm_sorted (_attr tr)) (pushed st0)
               /\ mm_sorted (_attr (track st0))).
  { split; constructor. }
  revert H0. generalize st0.
  induction (split sdp) as [ | line lines IH]; intros st [Hpushed Htrack].
  - simpl. unfold track_vec. apply Forall_app. split; [assumption | ].
    destruct (track_in_vec st); repeat constructor; assumption.
  - simpl. apply IH. now apply load_line_sorted.
Qed.

(** So for every track of the vector whose payload type is set, the two
    loops leave, of [rtpmap] and of [fmtp], no entry that starts with
    another number and every entry that starts with the payload type,
    whatever the slots hold. *)
Lemma load_prunes_every_track sdp tr slot slot' :
  tr ∈ track_vec (load_lines sdp) -> _pt tr <> 255 ->
  _pt (fmtp_loop slot' (rtpmap_loop slot tr)) = _pt tr
  /\ pruned "rtpmap" (_pt tr) (_attr tr) (_attr (rtpmap_loop slot tr))
  /\ pruned "fmtp" (_pt tr) (_attr (rtpmap_loop slot tr))
       (_attr (fmtp_loop slot' (rtpmap_loop slot tr))).
Proof.
  intros Hin Hset.
  assert (Hsorted : mm_sorted (_attr tr)).
  { pose proof (load_lines_sorted sdp) as Hall.
    rewrite List.Forall_forall in Hall. apply Hall. now apply list_elem_of_In. }
  assert (Hpt : _pt (rtpmap_loop slot tr) = _pt tr).
  { apply prune_loop_pt; [ | assumption].
    intros s tr' v Hset'. now apply rtpmap_body_pt. }
  assert (Hsorted' : mm_sorted (_attr (rtpmap_loop slot tr)))
    by now apply prune_loop_sorted.
  split; [ | split].
  - unfold Sdp.fmtp_loop. rewrite prune_loop_pt; [exact Hpt | | congruence].
    intros s tr' v _. apply fmtp_body_pt.
  - apply prune_loop_pruned;
      auto using rtpmap_body_pt_mismatch, rtpmap_body_erased_track, rtpmap_body_pt.
  - rewrite <- Hpt. apply prune_loop_pruned; try assumption; try congruence;
      auto using fmtp_body_pt_mismatch, fmtp_body_erased_track, fmtp_body_pt.
Qed.

(** C8.  For every text, and whatever lines [split] and [trim] make of
    it, [load] leaves a track vector whose first element is a title record
    and whose other elements are not. *)
Theorem load_single_title_first (sdp : string) :
  exists title rest,
    load sdp = title :: rest
    /\ _type title = TrackTitle
    /\ Forall (fun tr => _type tr <> TrackTitle) rest.
Proof.
  destruct (load_lines_title_first sdp) as (kinds & Hkinds & Hrest).
  unfold Sdp.load.
  destruct (track_vec (load_lines sdp)) as [ | hd tl]; [discriminate | ].
  simpl in Hkinds. injection Hkinds as Hhd Htl.
  exists (resolve 0 hd), (imap (resolve ∘ S) tl). rewrite imap_cons.
  split; [reflexivity | ].
  split; [now rewrite resolve_type | ].
  subst kinds. rewrite Forall_map in Hrest.
  apply (Forall_imap (fun tr => _type tr <> TrackTitle)); [ | exact Hrest].
  intros i tr Htr. simpl. now rewrite resolve_type.
Qed.

End LoadFacts.

(** ** C4: the pool after construction *)

Lemma uint16_t_range x : 0 <= uint16_t x <= 65535.
Proof.
  unfold uint16_t, wrap. pose proof (Z.mod_pos_bound x (2 ^ 16) ltac:(lia)). lia.
Qed.

Lemma uint16_t_small x : 0 <= x <= 65535 -> uint16_t x = x.
Proof. intros Hx. unfold uint16_t, wrap. apply Z.mod_small. lia. Qed.

Lemma conv_hu_range neg mag : 0 <= conv_hu neg mag <= 65535.
Proof. apply uint16_t_range. Qed.

Lemma run_hu_values s : hu_values (run [D_hu; D_char "-"; D_hu] s).
Proof.
  unfold hu_values. cbn [run].
  destruct (read_number s) as [[[neg mag] rest] | ]; [ | constructor].
  constructor; [apply conv_hu_range | ].
  destruct rest as [ | c rest]; [constructor | ].
  destruct (Ascii.eqb "-" c); [ | constructor].
  destruct (read_number rest) as [[[neg' mag'] rest'] | ]; [ | constructor].
  constructor; [apply conv_hu_range | constructor].
Qed.

Lemma func_range str index : 0 <= func str index <= 65535.
Proof.
  unfold func, sscanf. pose proof (run_hu_values (c_str str)) as Hvs.
  unfold hu_values in Hvs.
  destruct (run _ (c_str str)) as [ | [p0 | ?] [ | [p1 | ?] [ | ? ?]]];
    repeat match goal with
      | Hall : Forall _ (_ :: _) |- _ => inversion Hall; subst; clear Hall
      end;
    destruct index as [ | [ | [ | index]]]; simpl in *; lia.
Qed.

Lemma deque_insert_Permutation it x pool : deque_insert it x pool ≡ₚ x :: pool.
Proof.
  unfold deque_insert. rewrite <- Permutation_middle. now rewrite take_drop.
Qed.

(** The loop puts every position of [[start_pos, end_pos)] into the
    pool, once, whatever the generator draws; the fuel is not used up. *)
Lemma setRange_loop_Permutation fuel rng k start_pos end_pos it pool :
  0 <= start_pos <= 65535 -> 0 <= end_pos <= 65535 ->
  (Z.to_nat (end_pos - start_pos) <= fuel)%nat ->
  setRange_loop fuel rng k start_pos end_pos it pool
  ≡ₚ pool ++ seqZ start_pos (end_pos - start_pos).
Proof.
  revert k start_pos it pool.
  induction fuel as [ | fuel IH]; intros k start_pos it pool Hstart Hend Hfuel; simpl.
  - rewrite seqZ_nil by lia. now rewrite app_nil_r.
  - destruct (Z.ltb_spec start_pos end_pos) as [Hlt | Hge].
    + rewrite uint16_t_small by lia.
      rewrite IH by lia.
      rewrite deque_insert_Permutation.
      rewrite (seqZ_cons start_pos) by lia.
      rewrite <- Permutation_middle.
      replace (Z.succ start_pos) with (start_pos + 1) by lia.
      replace (Z.pred (end_pos - start_pos)) with (end_pos - (start_pos + 1)) by lia.
      reflexivity.
    + rewrite seqZ_nil by lia. now rewrite app_nil_r.
Qed.

Lemma PortManager_new_pool NDEBUG kPortRange rng pm :
  PortManager_new NDEBUG kPortRange rng = Some pm ->
  _port_pair_pool pm
  ≡ₚ seqZ ((func kPortRange 0 + 1) / 2)
       (func kPortRange 1 / 2 - (func kPortRange 0 + 1) / 2).
Proof.
  unfold PortManager_new, setRange.
  pose proof (func_range kPortRange 0) as Hmin.
  pose proof (func_range kPortRange 1) as Hmax.
  destruct (negb NDEBUG && _); [discriminate | ].
  intros Hnew. apply (inj Some) in Hnew. rewrite <- Hnew. cbn [_port_pair_pool].
  assert (Hs : 0 <= (func kPortRange 0 + 1) / 2 <= 65535).
  { split; [apply Z.div_pos; lia | ]. apply Z.div_le_upper_bound; lia. }
  assert (He : 0 <= func kPortRange 1 / 2 <= 65535).
  { split; [apply Z.div_pos; lia | ]. apply Z.div_le_upper_bound; lia. }
  rewrite !uint16_t_small by assumption.
  rewrite setRange_loop_Permutation by (assumption || lia).
  reflexivity.
Qed.

(** C4.  After the constructor has run on the configured range, the pool
    holds, in some order, each pair index from [(min+1)/2] up to
    [max/2 - 1] once; so every index in it lies in [[min/2, max/2)], and
    the ports bound for it are [2*index] and [2*index+1], both inside the
    configured range. *)
Theorem pool_indices_in_range (NDEBUG : bool) (kPortRange : string)
    (rng : nat -> Z) (pm : PortManager) :
  PortManager_new NDEBUG kPortRange rng = Some pm ->
  let minPort := func kPortRange 0 in
  let maxPort := func kPortRange 1 in
  _port_pair_pool pm ≡ₚ seqZ ((minPort + 1) / 2) (maxPort / 2 - (minPort + 1) / 2)
  /\ forall pairIndex,
       pairIndex ∈ _port_pair_pool pm ->
       minPort / 2 <= pairIndex < maxPort / 2
       /\ sock0_port pairIndex = 2 * pairIndex
       /\ sock1_port pairIndex = 2 * pairIndex + 1
       /\ minPort <= 2 * pairIndex
       /\ 2 * pairIndex + 1 < maxPort.
Proof.
  intros Hnew minPort maxPort.
  pose proof (PortManager_new_pool _ _ _ _ Hnew) as Hpool.
  fold minPort maxPort in Hpool.
  split; [exact Hpool | ].
  intros i Hin. rewrite Hpool in Hin. apply elem_of_seqZ in Hin.
  pose proof (func_range kPortRange 0) as Hmin.
  pose proof (func_range kPortRange 1) as Hmax.
  fold minPort in Hmin. fold maxPort in Hmax.
  assert (Hlo : minPort <= 2 * i).
  { pose proof (Z.div_mod (minPort + 1) 2 ltac:(lia)).
    pose proof (Z.mod_pos_bound (minPort + 1) 2 ltac:(lia)). lia. }
  assert (Hhi : 2 * i + 1 < maxPort).
  { pose proof (Z.div_mod maxPort 2 ltac:(lia)).
    pose proof (Z.mod_pos_bound maxPort 2 ltac:(lia)). lia. }
  assert (Hdiv : minPort / 2 <= (minPort + 1) / 2).
  { apply Z.div_le_mono; lia. }
  unfold sock0_port, sock1_port.
  rewrite !uint16_t_small by lia. repeat split; lia.
Qed.

(** ** C5: handles on a pool *)

Lemma pool_step_Permutation st o :
  available (pool_step st o).1 ++ handles (pool_step st o).1
  ≡ₚ available st ++ handles st.
Proof.
  unfold available. destruct o as [ | h]; simpl.
  - unfold getPortPair.
    destruct (_port_pair_pool (instance st)) as [ | pos rest] eqn:Hpool;
      simpl; rewrite ?Hpool; [reflexivity | ].
    rewrite (Permutation_app_comm (handles st) [pos]). simpl.
    symmetry. apply Permutation_middle.
  - destruct (handles st !! h) as [pos | ] eqn:Hh; simpl; [ | reflexivity].
    transitivity (_port_pair_pool (instance st) ++ pos :: delete h (handles st)).
    + rewrite <- app_assoc. reflexivity.
    + apply Permutation_app_head. symmetry. now apply delete_Permutation.
Qed.

Lemma pool_run_Permutation ops st :
  available (pool_run ops st) ++ handles (pool_run ops st)
  ≡ₚ available st ++ handles st.
Proof.
  unfold pool_run. revert st. induction ops as [ | o ops IH]; intros st; simpl.
  - reflexivity.
  - rewrite IH. apply pool_step_Permutation.
Qed.

Lemma pool_run_app ops1 ops2 st :
  pool_run (ops1 ++ ops2) st = pool_run ops2 (pool_run ops1 st).
Proof. unfold pool_run. apply fold_left_app. Qed.

(** Acquiring as often as the pool has positions before a given one
    brings that one to the front. *)
Lemma acquire_through front pos back hs :
  pool_run (replicate (length front) Acquire)
    {| instance := {| _port_pair_pool := front ++ pos :: back |}; handles := hs |}
  = {| instance := {| _port_pair_pool := pos :: back |}; handles := hs ++ front |}.
Proof.
  revert hs. induction front as [ | x front IH]; intros hs; simpl.
  - now rewrite app_nil_r.
  - unfold pool_run in *. simpl. rewrite IH. now rewrite <- app_assoc.
Qed.

(** C5.  From the pool the constructor leaves, after any sequence of
    acquisitions and releases: the indices held by live handles are
    pairwise distinct, and together with the indices in the deque they are
    the indices of the pool, each once.  In every such state an
    acquisition on an empty deque returns nothing and changes nothing; on
    a non-empty deque it takes the front index out of the deque; a release
    puts the index of the released handle at the back of the deque, from
    where it is handed out again once the indices before it have been. *)
Theorem pool_handles_distinct (NDEBUG : bool) (kPortRange : string)
    (rng : nat -> Z) (pm : PortManager) (ops : list pool_op) :
  PortManager_new NDEBUG kPortRange rng = Some pm ->
  let st := pool_run ops {| instance := pm; handles := [] |} in
  NoDup (handles st)
  /\ NoDup (available st ++ handles st)
  /\ available st ++ handles st ≡ₚ _port_pair_pool pm
  /\ (available st = [] -> pool_step st Acquire = (st, Some None))
  /\ (forall pos rest,
        available st = pos :: rest ->
        pool_step st Acquire
        = ({| instance := {| _port_pair_pool := rest |};
              handles := handles st ++ [pos] |}, Some (Some pos)))
  /\ (forall h pos,
        handles st !! h = Some pos ->
        pool_step st (Release h)
        = ({| instance := {| _port_pair_pool := available st ++ [pos] |};
              handles := delete h (handles st) |}, None)
        /\ (pool_step
              (pool_run (replicate (length (available st)) Acquire)
                 (pool_step st (Release h)).1)
              Acquire).2 = Some (Some pos)).
Proof.
  intros Hnew st.
  assert (Hperm : available st ++ handles st ≡ₚ _port_pair_pool pm).
  { unfold st. rewrite pool_run_Permutation. unfold available. simpl.
    now rewrite app_nil_r. }
  assert (Hnodup : NoDup (available st ++ handles st)).
  { rewrite Hperm. rewrite (PortManager_new_pool _ _ _ _ Hnew). apply NoDup_seqZ. }
  split; [now apply NoDup_app in Hnodup as (_ & _ & Hh) | ].
  split; [exact Hnodup | ].
  split; [exact Hperm | ].
  unfold available in *.
  split; [ | split].
  - intros Hempty. simpl. unfold getPortPair. now rewrite Hempty.
  - intros pos rest Hpool. simpl. unfold getPortPair. now rewrite Hpool.
  - intros h pos Hh. simpl. rewrite Hh. simpl. split; [reflexivity | ].
    rewrite (acquire_through (_port_pair_pool (instance st)) pos []).
    reflexivity.
Qed.

(** ** C9: the retrying allocator *)

Section RetryFacts.

Variables World Exn : Type.
Variable PortManager_makeSockPair : bool -> World -> World * option Exn.
Variable WarnL : Exn -> Z -> World -> World.

#[local] Abbreviation makeSockPair := (makeSockPair World Exn PortManager_makeSockPair WarnL).
#[local] Abbreviation makeSockPair_loop :=
  (makeSockPair_loop World Exn PortManager_makeSockPair WarnL).

(** C9.  With any fuel of at least three turns the loop of
    [makeSockPair] has a result, and it is this: the first attempt, and
    the state it leaves if it returns; otherwise a second attempt after
    the warning, and the state it leaves if it returns; otherwise a third
    attempt after the warning, whose outcome is the outcome of the call:
    the state it leaves, and the exception it throws if it throws one.
    No attempt follows a return or the third throw. *)
Theorem makeSockPair_three_attempts (extra : nat) (is_udp : bool) (w : World) :
  makeSockPair (3 + extra) is_udp w =
  Some
    (let '(w1, r1) := PortManager_makeSockPair is_udp w in
     match r1 with
     | None => (w1, None)
     | Some ex1 =>
         let '(w2, r2) := PortManager_makeSockPair is_udp (WarnL ex1 1 w1) in
         match r2 with
         | None => (w2, None)
         | Some ex2 => PortManager_makeSockPair is_udp (WarnL ex2 2 w2)
         end
     end).
Proof.
  unfold Port.makeSockPair. cbn [Nat.add Port.makeSockPair_loop].
  change (int (0 + 1)) with 1. change (int (1 + 1)) with 2.
  change (int (2 + 1)) with 3.
  change (1 =? 3) with false. change (2 =? 3) with false. change (3 =? 3) with true.
  cbv iota.
  destruct (PortManager_makeSockPair is_udp w) as [w1 [ex1 | ]]; [ | reflexivity].
  destruct (PortManager_makeSockPair is_udp (WarnL ex1 1 w1)) as [w2 [ex2 | ]];
    [ | reflexivity].
  destruct (PortManager_makeSockPair is_udp (WarnL ex2 2 w2)) as [w3 [ex3 | ]];
    reflexivity.
Qed.

End RetryFacts.

(** ** C10: attribute lines *)

Lemma append_cons x (a b : string) : String x a +:+ b = String x (a +:+ b).
Proof. reflexivity. Qed.

Lemma append_assoc (a b c : string) : (a +:+ b) +:+ c = a +:+ (b +:+ c).
Proof.
  induction a as [ | x a IH]; [reflexivity | ]. now rewrite !append_cons, IH.
Qed.

Lemma append_nil_r (a : string) : a +:+ "" = a.
Proof.
  induction a as [ | x a IH]; [reflexivity | ]. now rewrite append_cons, IH.
Qed.

(** The loop of [getAttrSdp]: the pointer ends at the last [control]
    entry, if there is one, and the other entries are printed in order. *)
Lemma getAttrSdp_loop attr ptr printer :
  fold_left getAttrSdp_step attr (ptr, printer)
  = (match last (List.filter is_control attr) with
     | Some pr => Some pr
     | None => ptr
     end,
     printer +:+ lines (map attr_line (List.filter (fun pr => negb (is_control pr)) attr))).
Proof.
  revert ptr printer. induction attr as [ | pr attr IH]; intros ptr printer.
  - simpl. now rewrite append_nil_r.
  - cbn [fold_left List.filter]. unfold getAttrSdp_step at 2. fold (is_control pr).
    destruct (is_control pr) eqn:Hc; cbn [negb].
    + rewrite IH. f_equal. rewrite last_cons.
      destruct (last (List.filter is_control attr)); reflexivity.
    + destruct (String.eqb pr.2 "") eqn:He; rewrite IH; cbn [map lines];
        unfold attr_line; rewrite He, !append_assoc; reflexivity.
Qed.

Lemma getAttrSdp_lines attr printer :
  getAttrSdp attr printer
  = printer
    +:+ lines (map attr_line (List.filter (fun pr => negb (is_control pr)) attr))
    +:+ match last (List.filter is_control attr) with
        | Some pr => control_line pr
        | None => ""
        end.
Proof.
  unfold getAttrSdp. rewrite getAttrSdp_loop.
  destruct (last (List.filter is_control attr)) as [pr | ].
  - unfold control_line. now rewrite !append_assoc.
  - now rewrite append_nil_r.
Qed.

(** C10, as the code has it.  For an audio or a video track [toString]
    prints the media line, the bandwidth line when [_b] is not empty, then
    one line for every attribute other than [control], in the multimap's
    order -- [a=<name>] for an empty value, [a=<name>:<value>] otherwise --
    and last, when there are [control] attributes, the line
    [a=control:<value>] of the last of them, with the colon whatever the
    value is. *)
Theorem toString_attribute_lines (title : SdpTrack -> string) (tr : SdpTrack)
    (port : Z) :
  _type tr = TrackAudio \/ _type tr = TrackVideo ->
  toString title tr port
  = media_line tr port
    +:+ (if String.eqb (_b tr) "" then "" else "b=" +:+ _b tr +:+ CRLF)
    +:+ lines (map attr_line (List.filter (fun pr => negb (is_control pr)) (_attr tr)))
    +:+ match last (List.filter is_control (_attr tr)) with
        | Some pr => "a=control:" +:+ pr.2 +:+ CRLF
        | None => ""
        end.
Proof.
  intros Hkind. unfold toString, media_line.
  assert (Hcontrol : forall pr, last (List.filter is_control (_attr tr)) = Some pr ->
                                control_line pr = "a=control:" +:+ pr.2 +:+ CRLF).
  { intros pr Hlast. apply last_Some in Hlast as [l' Hl'].
    assert (Hin : In pr (List.filter is_control (_attr tr))).
    { rewrite Hl'. apply in_or_app. right. now left. }
    apply filter_In in Hin as [_ Hc]. unfold is_control in Hc.
    apply String.eqb_eq in Hc. unfold control_line. now rewrite Hc. }
  destruct Hkind as [-> | ->]; cbn [TrackType_eqb];
    rewrite getAttrSdp_lines;
    destruct (String.eqb (_b tr) ""); cbn [negb];
    destruct (last (List.filter is_control (_attr tr))) as [pr | ];
    rewrite ?(Hcontrol _ eq_refl), ?append_assoc; cbn [String.append]; reflexivity.
Qed.

(** * Instances *)

Import Samples.

(** ** RTP and RTCP *)

Example isRtp_dynamic_type :
  Rtp.isRtp (Rtp.buffer [x80; x60]%byte) 2 = true
  /\ Rtp.isRtcp (Rtp.buffer [x80; x60]%byte) 2 = false.
Proof. split; reflexivity. Qed.

Example isRtcp_sender_report :
  Rtp.isRtcp (Rtp.buffer [x80; xc8]%byte) 2 = true
  /\ Rtp.isRtp (Rtp.buffer [x80; xc8]%byte) 2 = false.
Proof. split; reflexivity. Qed.

(** [isRtcp] ignores the version, [isRtp] does not. *)
Example classification_wrong_version :
  Rtp.isRtcp (Rtp.buffer [x00; xc8]%byte) 2 = true
  /\ Rtp.isRtp (Rtp.buffer [x00; x60]%byte) 2 = false.
Proof. split; reflexivity. Qed.

(** ** The parser on a sample description *)

Example load_sample :
  map (fun tr => (_type tr, _pt tr, _codec tr, _samplerate tr, _channel tr, _fmtp tr))
    (load toolkit_split toolkit_trim sample_table
       (fun _ => None (A := sample_descriptor)) zero_slots sample_sdp)
  = [(TrackTitle, 255, "", 0, 0, "");
     (TrackAudio, 0, "", 8000, 1, "");
     (TrackVideo, 96, "H264", 90000, 1, "packetization-mode=1");
     (TrackAudio, 8, "", 8000, 1, "")]%string.
Proof. vm_compute. reflexivity. Qed.

Example load_empty :
  map _type (load toolkit_split toolkit_trim sample_table
       (fun _ => None (A := sample_descriptor)) zero_slots "")
  = [TrackTitle].
Proof. vm_compute. reflexivity. Qed.

(** Lines that are no media lines, and a media line without a payload
    type, add no track. *)
Example load_garbage :
  map _type
    (load toolkit_split toolkit_trim sample_table
       (fun _ => None (A := sample_descriptor)) zero_slots
       ("m=" +:+ CRLF +:+ "=audio" +:+ CRLF +:+ "m= 0 RTP/AVP" +:+ CRLF
        +:+ "a=rtpmap:x" +:+ CRLF +:+ "m=audio zero RTP/AVP 0"))
  = [TrackTitle].
Proof. vm_compute. reflexivity. Qed.

Example getAvailableTrack_sample :
  map _pt
    (getAvailableTrack
       (load toolkit_split toolkit_trim sample_table
       (fun _ => None (A := sample_descriptor)) zero_slots sample_sdp))
  = [0; 96].
Proof. vm_compute. reflexivity. Qed.

Example scan_forms :
  sscanf "96 H264/90000" fmt_rtpmap_channels = [V_int 96; V_str "H264"; V_int 90000]
  /\ sscanf "96 H264/90000" fmt_rtpmap = [V_int 96; V_str "H264"; V_int 90000]
  /\ sscanf "97 MPEG4-GENERIC/44100/2" fmt_rtpmap_channels
     = [V_int 97; V_str "MPEG4-GENERIC"; V_int 44100; V_int 2]
  /\ sscanf "video 0 RTP/AVP 96" fmt_media
     = [V_str "video"; V_int 0; V_str "RTP/AVP"; V_int 96]
  /\ sscanf "audio 5004/2 RTP/AVP 0" fmt_media_count
     = [V_str "audio"; V_int 5004; V_int 2; V_str "RTP/AVP"; V_int 0].
Proof. repeat split; vm_compute; reflexivity. Qed.

(** ** C3 on the sample tracks *)

Lemma video_track_sorted : mm_sorted (_attr video_track).
Proof.
  unfold mm_sorted. simpl.
  repeat (constructor; [ | repeat (constructor; [exact I | ]); constructor]).
  constructor.
Defined.



(** A value without a leading number is tested against the number the
    turn before left in [pt]: after an entry of the payload type it
    survives and sets the format parameters, after an entry of another
    payload type it is erased, whatever the slot held when the loop was
    entered. *)
Example load_numberless_fmtp (indeterminate : nat -> string -> Z) :
  map (fun tr => (_fmtp tr, _attr tr))
    (load toolkit_split toolkit_trim sample_table
       (fun _ => None (A := sample_descriptor)) indeterminate numberless_sdp)
  = [("", []); ("c=3", [("fmtp", "96 a=1"); ("fmtp", "yy c=3")])]%string
  /\ map (fun tr => (_fmtp tr, _attr tr))
       (load toolkit_split toolkit_trim sample_table
          (fun _ => None (A := sample_descriptor)) indeterminate numberless_sdp_97)
     = [("", []); ("a=1", [("fmtp", "96 a=1")])]%string.
Proof. split; reflexivity. Qed.

(** With the sentinel as payload type the test erases nothing: every entry
    is applied in turn, whatever its number. *)
Example sentinel_erases_nothing :
  _attr (rtpmap_loop 0 session_track) = _attr session_track
  /\ _codec (rtpmap_loop 0 session_track) = "PCMA"%string
  /\ _pt (rtpmap_loop 0 session_track) = 255.
Proof. repeat split. Qed.

(** ** C7 on the sample table *)

Example getPayloadType_sample :
  RtpPayload_getPayloadType sample_table (mk_descriptor 1 TrackAudio 8000 1) = 0
  /\ RtpPayload_getPayloadType sample_table (mk_descriptor 1 TrackAudio 16000 1) = -1
  /\ RtpPayload_getPayloadType sample_table (mk_descriptor 1 TrackAudio 8000 2) = -1
  /\ RtpPayload_getPayloadType sample_table (mk_descriptor 3 TrackVideo 0 0) = 26
  /\ RtpPayload_getPayloadType sample_table (mk_descriptor 7 TrackVideo 90000 1) = -1.
Proof. repeat split; vm_compute; reflexivity. Qed.

(** ** C4 and C5 on a pool of twenty pairs *)

Lemma sample_pool_constructed :
  PortManager_new false "30000-30040" sample_rng = Some sample_pool.
Proof. vm_compute. reflexivity. Defined.

Lemma pool_indices_in_range_witness :
  15000 <= 15010 < 15020
  /\ sock0_port 15010 = 30020
  /\ sock1_port 15010 = 30021
  /\ 30000 <= 30020
  /\ 30021 < 30040.
Proof.
  refine (proj2 (pool_indices_in_range false "30000-30040" sample_rng sample_pool
                   sample_pool_constructed) 15010 _).
  apply list_elem_of_In. vm_compute. tauto.
Defined.

Lemma pool_handles_distinct_witness :
  NoDup (handles (pool_run [Acquire; Acquire; Release 0%nat; Acquire]
                    {| instance := sample_pool; handles := [] |})).
Proof.
  exact (proj1 (pool_handles_distinct false "30000-30040" sample_rng sample_pool
                  [Acquire; Acquire; Release 0%nat; Acquire] sample_pool_constructed)).
Defined.

Example pool_run_sample :
  let st := pool_run [Acquire; Acquire; Release 0%nat; Acquire]
              {| instance := sample_pool; handles := [] |} in
  handles st = [15011; 15012]
  /\ last (_port_pair_pool (instance st)) = Some 15010.
Proof. vm_compute. split; reflexivity. Qed.

(** An odd lower bound: the pair that holds the port below it is not in
    the pool. *)
Example odd_lower_bound :
  match PortManager_new false "30001-30041" sample_rng with
  | Some pm => bool_decide (15000 ∈ _port_pair_pool pm) = false
               /\ bool_decide (15001 ∈ _port_pair_pool pm) = true
  | None => False
  end.
Proof. vm_compute. split; reflexivity. Qed.

(** ** C9 with attempts that always fail *)

Example makeSockPair_all_fail :
  makeSockPair nat string (fun _ n => (S n, Some "open udp socket[0] failed"%string))
    (fun _ _ n => n) 10 true 0%nat
  = Some (3%nat, Some "open udp socket[0] failed"%string).
Proof. reflexivity. Qed.

Example makeSockPair_second_succeeds :
  makeSockPair nat string
    (fun _ n => (S n, if (n =? 0)%nat then Some "none reserved port in pool"%string else None))
    (fun _ _ n => n) 10 false 0%nat
  = Some (2%nat, None).
Proof. reflexivity. Qed.

(** Without fuel for three turns the model has no result to give. *)
Example makeSockPair_fuel :
  makeSockPair nat string (fun _ n => (S n, Some "x"%string)) (fun _ _ n => n) 2 true 0%nat
  = None.
Proof. reflexivity. Qed.

(** ** C10 on the sample tracks *)

Lemma toString_attribute_lines_witness :
  toString (fun _ => ""%string) video_track 0
  = ("m=video 0 RTP/AVP 96" +:+ CRLF
     +:+ "a=fmtp:96 packetization-mode=1" +:+ CRLF
     +:+ "a=fmtp:97 profile-id=1" +:+ CRLF
     +:+ "a=rtpmap:96 H264/90000" +:+ CRLF
     +:+ "a=rtpmap:97 H265/90000" +:+ CRLF
     +:+ "a=control:trackID=0" +:+ CRLF)%string.
Proof.
  exact (toString_attribute_lines (fun _ => ""%string) video_track 0 (or_intror eq_refl)).
Defined.

(** The claim's rule for empty values, applied to a [control] attribute
    without value, gives [a=control]; the code prints [a=control:]. *)
Lemma toString_bare_control_counterexample :
  toString (fun _ => ""%string) bare_control_track 0
  = ("m=video 0 RTP/AVP 96" +:+ CRLF +:+ "a=recvonly" +:+ CRLF
     +:+ "a=control:" +:+ CRLF)%string
  /\ media_line bare_control_track 0 +:+ attribute_lines_as_claimed (_attr bare_control_track)
     = ("m=video 0 RTP/AVP 96" +:+ CRLF +:+ "a=recvonly" +:+ CRLF
        +:+ "a=control" +:+ CRLF)%string
  /\ toString (fun _ => ""%string) bare_control_track 0
     <> media_line bare_control_track 0
        +:+ attribute_lines_as_claimed (_attr bare_control_track).
Proof.
  split; [reflexivity | ]. split; [reflexivity | ]. vm_compute. discriminate.
Qed.

(** * Further properties *)

Import Parser.

(** ** Tracks by kind *)

Lemma find_head_filter {A : Type} (f : A -> bool) (l : list A) :
  List.find f l = head (List.filter f l).
Proof.
  induction l as [ | x l IH]; [reflexivity | ].
  simpl. destruct (f x); [reflexivity | exact IH].
Qed.

Lemma take_1_head {A : Type} (l : list A) :
  take 1 l = match head l with Some x => [x] | None => [] end.
Proof. destruct l; reflexivity. Qed.

Lemma getTrack_audio vec : getTrack vec TrackAudio = head (List.filter is_audio vec).
Proof. apply find_head_filter. Qed.

Lemma getTrack_video vec : getTrack vec TrackVideo = head (List.filter is_video vec).
Proof. apply find_head_filter. Qed.

Lemma elem_of_filter_kind (f : SdpTrack -> bool) (tr : SdpTrack) (l : list SdpTrack) :
  tr ∈ List.filter f l <-> f tr = true /\ tr ∈ l.
Proof.
  rewrite !list_elem_of_In, filter_In. tauto.
Qed.

(** X1.  [available] is true exactly when [getAvailableTrack] has a track to
    return, and the tracks [getAvailableTrack] returns are the ones
    [getTrack] finds for audio and for video. *)
Theorem available_tracks_by_kind (vec : list SdpTrack) :
  (SdpParser_available vec = true <-> getAvailableTrack vec <> [])
  /\ (forall tr,
        tr ∈ getAvailableTrack vec <->
        getTrack vec TrackAudio = Some tr \/ getTrack vec TrackVideo = Some tr).
Proof.
  pose proof (available_from_filter_audio false false vec) as Ha.
  pose proof (available_from_filter_video false false vec) as Hv.
  pose proof (available_from_kinds false false vec) as Hk.
  fold (getAvailableTrack vec) in Ha, Hv, Hk. simpl in Ha, Hv.
  rewrite take_1_head, <- getTrack_audio in Ha.
  rewrite take_1_head, <- getTrack_video in Hv.
  assert (Hmem : forall tr,
             tr ∈ getAvailableTrack vec <->
             getTrack vec TrackAudio = Some tr \/ getTrack vec TrackVideo = Some tr).
  { intros tr. split.
    - intros Hin.
      rewrite List.Forall_forall in Hk.
      destruct (Hk tr (proj1 (list_elem_of_In _ _) Hin)) as [Hty | Hty].
      + left.
        assert (Hin' : tr ∈ List.filter is_audio (getAvailableTrack vec)).
        { apply elem_of_filter_kind. split; [ | exact Hin].
          unfold is_audio. now rewrite Hty. }
        rewrite Ha in Hin'. destruct (getTrack vec TrackAudio) as [x | ].
        * apply list_elem_of_singleton in Hin'. now subst.
        * now apply not_elem_of_nil in Hin'.
      + right.
        assert (Hin' : tr ∈ List.filter is_video (getAvailableTrack vec)).
        { apply elem_of_filter_kind. split; [ | exact Hin].
          unfold is_video. now rewrite Hty. }
        rewrite Hv in Hin'. destruct (getTrack vec TrackVideo) as [x | ].
        * apply list_elem_of_singleton in Hin'. now subst.
        * now apply not_elem_of_nil in Hin'.
    - intros [Hget | Hget]; rewrite Hget in *.
      + assert (Hin : tr ∈ List.filter is_audio (getAvailableTrack vec)).
        { rewrite Ha. now apply list_elem_of_singleton. }
        now apply elem_of_filter_kind in Hin.
      + assert (Hin : tr ∈ List.filter is_video (getAvailableTrack vec)).
        { rewrite Hv. now apply list_elem_of_singleton. }
        now apply elem_of_filter_kind in Hin. }
  split; [ | exact Hmem].
  unfold SdpParser_available. split.
  - intros Hav Hnil.
    apply orb_true_iff in Hav.
    destruct Hav as [Hav | Hav].
    + destruct (getTrack vec TrackAudio) as [tr | ] eqn:Hget; [ | discriminate].
      assert (Hin : tr ∈ getAvailableTrack vec) by (apply Hmem; now left).
      rewrite Hnil in Hin. now apply not_elem_of_nil in Hin.
    + destruct (getTrack vec TrackVideo) as [tr | ] eqn:Hget; [ | discriminate].
      assert (Hin : tr ∈ getAvailableTrack vec) by (apply Hmem; now right).
      rewrite Hnil in Hin. now apply not_elem_of_nil in Hin.
  - intros Hne. destruct (getAvailableTrack vec) as [ | tr rest] eqn:Hav; [congruence | ].
    assert (Hin : tr ∈ tr :: rest) by apply list_elem_of_here.
    apply Hmem in Hin. destruct Hin as [-> | ->]; simpl; [reflexivity | ].
    apply orb_true_r.
Qed.

(** ** The text of a description *)

Section TextFacts.

Variable SdpTrack_toString : SdpTrack -> string.

#[local] Abbreviation SdpParser_toString := (SdpParser_toString SdpTrack_toString).
#[local] Abbreviation step := (SdpParser_toString_step SdpTrack_toString).

Lemma last_filter_snoc (f : SdpTrack -> bool) (l : list SdpTrack) (x : SdpTrack) :
  last (List.filter f (l ++ [x])) = if f x then Some x else last (List.filter f l).
Proof.
  rewrite List.filter_app. simpl. destruct (f x).
  - apply last_snoc.
  - now rewrite app_nil_r.
Qed.

Lemma toString_locals (vec : list SdpTrack) :
  fold_left step vec (""%string, ""%string, ""%string)
  = (text_of SdpTrack_toString (last (List.filter is_title vec)),
     text_of SdpTrack_toString (last (List.filter is_audio vec)),
     text_of SdpTrack_toString (last (List.filter is_video vec))).
Proof.
  induction vec as [ | tr vec IH] using rev_ind; [reflexivity | ].
  rewrite fold_left_app, IH. simpl.
  rewrite !last_filter_snoc. unfold is_title, is_audio, is_video.
  destruct (_type tr); reflexivity.
Qed.

(** X2.  [SdpParser::toString] is the text of the last title record, then of
    the last video track, then of the last audio track of the vector,
    wherever they stand in it; a kind without a track adds nothing. *)
Theorem SdpParser_toString_last_of_each_kind (vec : list SdpTrack) :
  SdpParser_toString vec
  = text_of SdpTrack_toString (last (List.filter is_title vec))
    +:+ text_of SdpTrack_toString (last (List.filter is_video vec))
    +:+ text_of SdpTrack_toString (last (List.filter is_audio vec)).
Proof.
  unfold Parser.SdpParser_toString. now rewrite toString_locals.
Qed.

End TextFacts.

(** ** The track vector [load] builds *)

Section LoadVector.

Context {CodecId : Type} `{Countable CodecId}.
Context {T : Type} `{!Track (CodecId := CodecId) T}.
Variable split : string -> list string.
Variable trim : string -> string.
Variable RTP_PT_MAP : list (pt_entry (CodecId := CodecId)).
Variable getTrackBySdp : SdpTrack -> option T.
Variable indeterminate : nat -> string -> Z.

#[local] Abbreviation load := (load split trim RTP_PT_MAP getTrackBySdp indeterminate).
#[local] Abbreviation load_line := (load_line trim RTP_PT_MAP).
#[local] Abbreviation load_lines := (load_lines split trim RTP_PT_MAP).
#[local] Abbreviation resolve := (resolve getTrackBySdp indeterminate).
#[local] Abbreviation samplerate_fallback := (samplerate_fallback getTrackBySdp).

(** The state [load] starts its first block in. *)
#[local] Abbreviation first_state :=
  {| pushed := []; track := set_type TrackTitle SdpTrack_new; track_in_vec := true |}.

Lemma track_vec_on_track f st :
  track_vec (on_track f st)
  = pushed st ++ (if track_in_vec st then [f (track st)] else []).
Proof. reflexivity. Qed.

(** What a line does to the track vector, by the kind of the line. *)
Lemma load_line_opens st line :
  opens_track (trim line) = true ->
  exists tr,
    load_line st line = {| pushed := track_vec st; track := tr; track_in_vec := true |}
    /\ forall st', track_vec st' = track_vec st -> load_line st' line = load_line st line.
Proof.
  unfold opens_track, media_body, Sdp.load_line.
  destruct (trim line) as [ | opt [ | c1 opt_val]]; try discriminate.
  destruct (Ascii.eqb c1 "="); simpl; [ | discriminate].
  destruct (Ascii.eqb opt "m") eqn:Hm; [ | discriminate].
  apply Ascii.eqb_eq in Hm. subst opt. simpl.
  destruct (scan_media opt_val) as [[[type port] pt] | ]; [ | discriminate].
  intros _. eexists. split; [reflexivity | ].
  intros st' Hvec. now rewrite Hvec.
Qed.

Lemma load_line_fails st line :
  fails_media (trim line) = true ->
  load_line st line
  = {| pushed := track_vec st; track := SdpTrack_new; track_in_vec := false |}.
Proof.
  unfold fails_media, media_body, Sdp.load_line.
  destruct (trim line) as [ | opt [ | c1 opt_val]]; try discriminate.
  destruct (Ascii.eqb c1 "="); simpl; [ | discriminate].
  destruct (Ascii.eqb opt "m") eqn:Hm; [ | discriminate].
  apply Ascii.eqb_eq in Hm. subst opt. simpl.
  destruct (scan_media opt_val) as [[[type port] pt] | ]; [discriminate | reflexivity].
Qed.

Lemma load_line_other st line :
  opens_track (trim line) = false ->
  length (track_vec (load_line st line)) = length (track_vec st)
  /\ (track_in_vec st = false ->
      track_vec (load_line st line) = track_vec st
      /\ track_in_vec (load_line st line) = false).
Proof.
  unfold opens_track, media_body, Sdp.load_line.
  destruct (trim line) as [ | opt [ | c1 opt_val]]; try (intros _; now split).
  destruct (Ascii.eqb c1 "="); simpl; [ | intros _; now split].
  assert (Hon : forall f,
             length (track_vec (on_track f st)) = length (track_vec st)
             /\ (track_in_vec st = false ->
                 track_vec (on_track f st) = track_vec st
                 /\ track_in_vec (on_track f st) = false)).
  { intros f. rewrite track_vec_on_track. unfold track_vec. simpl.
    destruct (track_in_vec st).
    - split; [now rewrite !length_app | intros Hf; discriminate Hf].
    - split; [reflexivity | intros _; now split]. }
  destruct (Ascii.eqb opt "t") eqn:Ht.
  { apply Ascii.eqb_eq in Ht. subst opt. intros _. apply Hon. }
  destruct (Ascii.eqb opt "b") eqn:Hb.
  { apply Ascii.eqb_eq in Hb. subst opt. intros _. apply Hon. }
  destruct (Ascii.eqb opt "m") eqn:Hm.
  { destruct (scan_media opt_val) as [[[type port] pt] | ]; [discriminate | ].
    intros _.
    assert (Hvec : track_vec {| pushed := track_vec st; track := SdpTrack_new;
                                track_in_vec := false |} = track_vec st).
    { unfold track_vec at 1. simpl. apply app_nil_r. }
    rewrite Hvec. now split. }
  destruct (Ascii.eqb opt "a"); [ | intros _; apply Hon].
  destruct (String.eqb _ ""); intros _; apply Hon.
Qed.

Lemma load_lines_length lines st :
  length (track_vec (fold_left load_line lines st))
  = (length (track_vec st)
     + length (List.filter (fun line => opens_track (trim line)) lines))%nat.
Proof.
  revert st. induction lines as [ | line lines IH]; intros st; simpl; [lia | ].
  rewrite IH. destruct (opens_track (trim line)) eqn:Hopen.
  - destruct (load_line_opens st line Hopen) as (tr & -> & _).
    unfold track_vec at 1. simpl. rewrite length_app. simpl. lia.
  - destruct (load_line_other st line Hopen) as [-> _]. lia.
Qed.

(** X3.  [load] leaves the title record and one track for each media line
    that one of the two patterns scans, and no other. *)
Theorem load_one_track_per_media_line (sdp : string) :
  length (load sdp)
  = S (length (List.filter (fun line => opens_track (trim line)) (split sdp))).
Proof.
  unfold Sdp.load, Sdp.load_lines. rewrite length_imap, load_lines_length.
  reflexivity.
Qed.

Lemma detached_lines junk st :
  track_in_vec st = false ->
  Forall (fun line => opens_track (trim line) = false) junk ->
  track_vec (fold_left load_line junk st) = track_vec st
  /\ track_in_vec (fold_left load_line junk st) = false.
Proof.
  revert st. induction junk as [ | line junk IH]; intros st Hflag Hjunk.
  - now split.
  - apply Forall_cons in Hjunk as [Hline Hjunk]. simpl.
    destruct (load_line_other st line Hline) as [_ Hsame].
    destruct (Hsame Hflag) as [Hvec Hflag'].
    destruct (IH _ Hflag' Hjunk) as [Hvec' Hflag''].
    split; [congruence | exact Hflag''].
Qed.

(** X4.  After a media line that neither pattern scans, the lines up to the
    next media line that scans change nothing in the result: the two texts
    give the same track vector. *)
Theorem lines_after_failed_media_line (sdp sdp' : string)
    (l1 junk l2 : list string) (bad : string) :
  split sdp = l1 ++ bad :: junk ++ l2 ->
  split sdp' = l1 ++ l2 ->
  fails_media (trim bad) = true ->
  Forall (fun line => opens_track (trim line) = false) junk ->
  match l2 with
  | [] => True
  | next :: _ => opens_track (trim next) = true
  end ->
  load sdp = load sdp'.
Proof.
  intros Hsdp Hsdp' Hbad Hjunk Hnext.
  unfold Sdp.load, Sdp.load_lines. rewrite Hsdp, Hsdp'. f_equal.
  rewrite !fold_left_app. simpl. rewrite fold_left_app.
  set (st := fold_left load_line l1 first_state).
  rewrite (load_line_fails st bad Hbad).
  set (st1 := {| pushed := track_vec st; track := SdpTrack_new; track_in_vec := false |}).
  destruct (detached_lines junk st1 eq_refl Hjunk) as [Hvec Hflag].
  change (track_vec st1) with (track_vec st ++ []) in Hvec. rewrite app_nil_r in Hvec.
  destruct l2 as [ | next l2]; simpl; [exact Hvec | ].
  destruct (load_line_opens st next Hnext) as (tr & _ & Hsame).
  now rewrite (Hsame _ Hvec).
Qed.

(** *** Sample rates *)

Lemma samplerate_fallback_video tr :
  _type tr = TrackVideo -> _samplerate (samplerate_fallback tr) <> 0.
Proof.
  intros Hty. unfold Sdp.samplerate_fallback. rewrite Hty. simpl.
  rewrite andb_true_r, andb_false_r.
  destruct (_samplerate tr =? 0) eqn:Hzero; simpl; [discriminate | ].
  now apply Z.eqb_neq in Hzero.
Qed.

Lemma samplerate_fallback_type tr : _type (samplerate_fallback tr) = _type tr.
Proof. unfold Sdp.samplerate_fallback. repeat case_match; reflexivity. Qed.

(** X5.  Every video track [load] leaves has a sample rate other than zero. *)
Theorem load_video_samplerate (sdp : string) :
  Forall (fun tr => _type tr = TrackVideo -> _samplerate tr <> 0) (load sdp).
Proof.
  unfold Sdp.load. apply (Forall_imap (fun _ => True)); [ | now apply Forall_true].
  intros i tr _. unfold Sdp.resolve. intros Hty.
  apply samplerate_fallback_video.
  now rewrite samplerate_fallback_type in Hty.
Qed.

(** *** The control text *)

Lemma prune_from_keeps_control key body slot tr it :
  key <> "control"%string ->
  List.filter is_control (prune_from key body slot tr it).2 = List.filter is_control it.
Proof.
  intros Hkey. revert slot tr.
  induction it as [ | [k v] rest IH]; intros slot tr; [reflexivity | ].
  simpl. destruct (String.eqb k key) eqn:Hk; [ | reflexivity].
  apply String.eqb_eq in Hk. subst k.
  assert (Hc : is_control (key, v) = false).
  { unfold is_control. simpl. now apply String.eqb_neq. }
  rewrite Hc.
  destruct (body slot tr v) as [tr' erase]. destruct erase.
  - apply IH.
  - specialize (IH (scanned_pt slot v) tr').
    destruct (prune_from key body (scanned_pt slot v) tr' rest) as [tr'' rest'].
    simpl in *. now rewrite Hc.
Qed.

Lemma prune_loop_control key body slot tr :
  (forall slot tr v, _control (body slot tr v).1 = _control tr) ->
  key <> "control"%string ->
  _control (prune_loop key body slot tr) = _control tr
  /\ List.filter is_control (_attr (prune_loop key body slot tr))
     = List.filter is_control (_attr tr).
Proof.
  intros Hbody Hkey. unfold prune_loop.
  pose proof (mm_find_app key (_attr tr)) as Happ.
  destruct (mm_find key (_attr tr)) as [before it]. simpl in Happ.
  pose proof (prune_from_kept _control key body slot tr it Hbody) as Hc.
  pose proof (prune_from_keeps_control key body slot tr it Hkey) as Hk.
  destruct (prune_from key body slot tr it) as [tr' it']. simpl in *.
  split; [exact Hc | ].
  now rewrite <- Happ, !List.filter_app, Hk.
Qed.

Lemma rtpmap_body_control slot tr v :
  _control (Sdp.rtpmap_body slot tr v).1 = _control tr.
Proof. unfold Sdp.rtpmap_body. repeat case_match; reflexivity. Qed.

Lemma fmtp_body_control slot tr v :
  _control (Sdp.fmtp_body slot tr v).1 = _control tr.
Proof. unfold Sdp.fmtp_body. repeat case_match; reflexivity. Qed.

Lemma mm_find_first_value key m :
  match (mm_find key m).2 with
  | (_, second) :: _ => Some second
  | [] => None
  end = snd <$> head (List.filter (fun pr => String.eqb pr.1 key) m).
Proof.
  induction m as [ | [k v] m IH]; [reflexivity | ].
  simpl. destruct (String.eqb k key); [reflexivity | ].
  destruct (mm_find key m) as [before it]. exact IH.
Qed.

Lemma control_step_first tr :
  _control (control_step tr) = default (_control tr) (first_control (_attr tr))
  /\ _attr (control_step tr) = _attr tr.
Proof.
  unfold control_step, first_control.
  pose proof (mm_find_first_value "control" (_attr tr)) as Hfind.
  change (fun pr : string * string => String.eqb pr.1 "control") with is_control in Hfind.
  rewrite <- Hfind.
  destruct (mm_find "control" (_attr tr)) as [before [ | [k second] it]]; now split.
Qed.

Lemma resolve_control i tr :
  _control tr = ""%string ->
  _control (resolve i tr) = default ""%string (first_control (_attr (resolve i tr))).
Proof.
  intros Hempty. unfold Sdp.resolve.
  set (u1 := rtpmap_loop (indeterminate i "rtpmap") tr).
  set (u2 := fmtp_loop (indeterminate i "fmtp") u1).
  destruct (prune_loop_control "rtpmap" rtpmap_body (indeterminate i "rtpmap") tr
              rtpmap_body_control ltac:(discriminate)) as [Hc1 Ha1].
  fold (rtpmap_loop (indeterminate i "rtpmap") tr) in Hc1, Ha1. fold u1 in Hc1, Ha1.
  destruct (prune_loop_control "fmtp" fmtp_body (indeterminate i "fmtp") u1
              fmtp_body_control ltac:(discriminate)) as [Hc2 Ha2].
  fold (fmtp_loop (indeterminate i "fmtp") u1) in Hc2, Ha2. fold u2 in Hc2, Ha2.
  destruct (control_step_first u2) as [Hc3 Ha3].
  set (u := control_step u2) in *.
  assert (Hu : _control u = default ""%string (first_control (_attr u))).
  { rewrite Hc3, Ha3, Hc2, Hc1, Hempty. reflexivity. }
  unfold Sdp.samplerate_fallback. repeat case_match; simpl; exact Hu.
Qed.

Lemma load_line_no_control st line :
  Forall (fun tr => _control tr = ""%string) (pushed st) ->
  _control (track st) = ""%string ->
  Forall (fun tr => _control tr = ""%string) (pushed (load_line st line))
  /\ _control (track (load_line st line)) = ""%string.
Proof.
  intros Hpushed Htrack. unfold Sdp.load_line.
  destruct (trim line) as [ | opt [ | c1 opt_val]]; try (split; assumption).
  assert (Hvec : Forall (fun tr => _control tr = ""%string) (track_vec st)).
  { unfold track_vec. apply Forall_app. split; [assumption | ].
    destruct (track_in_vec st); repeat constructor; assumption. }
  destruct (Ascii.eqb c1 "="); simpl; [ | split; assumption].
  repeat (destruct (Ascii.eqb opt _); [ try (split; assumption) | ]).
  - destruct (scan_media opt_val) as [[[type port] pt] | ]; simpl;
      (split; [exact Hvec | reflexivity]).
  - destruct (String.eqb _ ""); simpl; split; assumption.
  - split; assumption.
Qed.

Lemma load_lines_no_control lines st :
  Forall (fun tr => _control tr = ""%string) (pushed st) ->
  _control (track st) = ""%string ->
  Forall (fun tr => _control tr = ""%string) (track_vec (fold_left load_line lines st)).
Proof.
  revert st. induction lines as [ | line lines IH]; intros st Hpushed Htrack.
  - simpl. unfold track_vec. apply Forall_app. split; [assumption | ].
    destruct (track_in_vec st); repeat constructor; assumption.
  - simpl. destruct (load_line_no_control st line Hpushed Htrack) as [Hp Ht].
    now apply IH.
Qed.

(** X6.  In every track [load] leaves, [_control] is the value of the first
    [control] entry of the track's attributes, and empty when there is none. *)
Theorem load_control_first_attribute (sdp : string) :
  Forall
    (fun tr => _control tr = default ""%string (first_control (_attr tr)))
    (load sdp).
Proof.
  unfold Sdp.load, Sdp.load_lines.
  apply (Forall_imap (fun tr => _control tr = ""%string)).
  - intros i tr Hempty. now apply resolve_control.
  - apply (load_lines_no_control (split sdp) first_state); [constructor | reflexivity].
Qed.

(** *** The title record *)

(** X7.  After [load], [getTrack(TrackTitle)] is never null: it is the first
    element of the vector, and [getControlUrl] decides by its control text
    alone. *)
Theorem getControlUrl_after_load (sdp url : string) :
  exists title rest,
    load sdp = title :: rest
    /\ getTrack (load sdp) TrackTitle = Some title
    /\ SdpParser_getControlUrl (load sdp) url
       = if contains "://" (_control title) then _control title else url.
Proof.
  destruct (load_lines_title_first split trim RTP_PT_MAP sdp) as (kinds & Hkinds & Hrest).
  unfold Sdp.load.
  destruct (track_vec (load_lines sdp)) as [ | hd tl]; [discriminate | ].
  simpl in Hkinds. injection Hkinds as Hhd Htl.
  exists (resolve 0 hd), (imap (resolve ∘ S) tl). rewrite imap_cons.
  assert (Hget : getTrack (resolve 0 hd :: imap (resolve ∘ S) tl) TrackTitle
                 = Some (resolve 0 hd)).
  { unfold getTrack. simpl.
    now rewrite (resolve_type getTrackBySdp indeterminate), Hhd. }
  split; [reflexivity | ]. split; [exact Hget | ].
  unfold SdpParser_getControlUrl. now rewrite Hget.
Qed.

End LoadVector.

(** ** What [load] resolves from the table and from [fmtp] *)

Lemma entries_of_app key m1 m2 :
  entries_of key (m1 ++ m2) = entries_of key m1 ++ entries_of key m2.
Proof. apply List.filter_app. Qed.

Lemma prune_loop_field {A : Type} (proj : SdpTrack -> A) key body slot tr :
  (forall slot tr v, proj (body slot tr v).1 = proj tr) ->
  (forall m tr, proj (set_attr m tr) = proj tr) ->
  proj (prune_loop key body slot tr) = proj tr.
Proof.
  intros Hbody Hattr. unfold prune_loop.
  destruct (mm_find key (_attr tr)) as [before it].
  pose proof (prune_from_kept proj key body slot tr it Hbody) as Hfrom.
  destruct (prune_from key body slot tr it) as [tr' it']. simpl in Hfrom.
  now rewrite Hattr.
Qed.

Lemma prune_from_keeps key key' body slot tr it :
  key <> key' ->
  entries_of key' (prune_from key body slot tr it).2 = entries_of key' it.
Proof.
  intros Hkey. unfold entries_of. revert slot tr.
  induction it as [ | [k v] rest IH]; intros slot tr; [reflexivity | ].
  simpl. destruct (String.eqb k key) eqn:Hk; [ | reflexivity].
  apply String.eqb_eq in Hk. subst k.
  apply String.eqb_neq in Hkey. rewrite Hkey.
  destruct (body slot tr v) as [tr' erase]. destruct erase.
  - apply IH.
  - specialize (IH (scanned_pt slot v) tr').
    destruct (prune_from key body (scanned_pt slot v) tr' rest) as [tr'' rest'].
    simpl in *. now rewrite Hkey.
Qed.

Lemma prune_loop_keeps key key' body slot tr :
  key <> key' ->
  entries_of key' (_attr (prune_loop key body slot tr)) = entries_of key' (_attr tr).
Proof.
  intros Hkey. unfold prune_loop.
  pose proof (mm_find_app key (_attr tr)) as Happ.
  destruct (mm_find key (_attr tr)) as [before it]. simpl in Happ.
  pose proof (prune_from_keeps key key' body slot tr it Hkey) as Hk.
  destruct (prune_from key body slot tr it) as [tr' it']. simpl in *.
  now rewrite <- Happ, !entries_of_app, Hk.
Qed.

(** A loop that leaves no entry of its name has erased every entry it
    met, and an erasing turn leaves the track alone. *)
Lemma prune_from_all_erased key body slot tr it :
  (forall slot tr v, (body slot tr v).2 = true -> (body slot tr v).1 = tr) ->
  entries_of key (prune_from key body slot tr it).2 = [] ->
  (prune_from key body slot tr it).1 = tr.
Proof.
  intros Hbody. unfold entries_of. revert slot tr.
  induction it as [ | [k v] rest IH]; intros slot tr; [reflexivity | ].
  simpl. destruct (String.eqb k key) eqn:Hk; [ | reflexivity].
  specialize (Hbody slot tr v). destruct (body slot tr v) as [tr' erase].
  simpl in Hbody. destruct erase.
  - rewrite (Hbody eq_refl). apply IH.
  - specialize (IH (scanned_pt slot v) tr').
    destruct (prune_from key body (scanned_pt slot v) tr' rest) as [tr'' rest'].
    simpl. rewrite Hk. discriminate.
Qed.

Lemma prune_loop_all_erased key body slot tr :
  (forall slot tr v, (body slot tr v).2 = true -> (body slot tr v).1 = tr) ->
  entries_of key (_attr (prune_loop key body slot tr)) = [] ->
  exists m, prune_loop key body slot tr = set_attr m tr.
Proof.
  intros Hbody. unfold prune_loop.
  destruct (mm_find key (_attr tr)) as [before it].
  pose proof (prune_from_all_erased key body slot tr it Hbody) as Hfrom.
  destruct (prune_from key body slot tr it) as [tr' it']. simpl in *.
  rewrite entries_of_app. intros Hnone.
  apply app_eq_nil in Hnone as [_ Hnone].
  rewrite (Hfrom Hnone). now eexists.
Qed.

Section LoadFields.

Context {CodecId : Type} `{Countable CodecId}.
Context {T : Type} `{!Track (CodecId := CodecId) T}.
Variable split : string -> list string.
Variable trim : string -> string.
Variable RTP_PT_MAP : list (pt_entry (CodecId := CodecId)).
Variable getTrackBySdp : SdpTrack -> option T.
Variable indeterminate : nat -> string -> Z.

#[local] Abbreviation load := (load split trim RTP_PT_MAP getTrackBySdp indeterminate).
#[local] Abbreviation load_line := (load_line trim RTP_PT_MAP).
#[local] Abbreviation resolve := (resolve getTrackBySdp indeterminate).
#[local] Abbreviation samplerate_fallback := (samplerate_fallback getTrackBySdp).
#[local] Abbreviation table_defaults := (table_defaults RTP_PT_MAP).
#[local] Abbreviation first_state :=
  {| pushed := []; track := set_type TrackTitle SdpTrack_new; track_in_vec := true |}.

(** The property of the tracks of the vector that the first block
    keeps, for a property the lines other than media lines do not
    touch. *)
Lemma load_line_invariant (P : SdpTrack -> Prop) st line :
  (forall tr x, P tr -> P (set_t x tr)) ->
  (forall tr x, P tr -> P (set_b x tr)) ->
  (forall tr x, P tr -> P (set_attr x tr)) ->
  (forall tr x, P tr -> P (set_other x tr)) ->
  (forall type port pt,
     toTrackType type <> TrackTitle ->
     P (set_port port
          (set_type (toTrackType type)
             (set_channel (RtpPayload_getAudioChannel RTP_PT_MAP pt)
                (set_samplerate (RtpPayload_getClockRate RTP_PT_MAP pt)
                   (set_pt pt SdpTrack_new)))))) ->
  Forall P (track_vec st) -> Forall P (track_vec (load_line st line)).
Proof.
  intros Ht Hb Ha Ho Hm Hst. unfold Sdp.load_line.
  destruct (trim line) as [ | opt [ | c1 opt_val]]; try exact Hst.
  assert (Hon : forall f, (forall tr, P tr -> P (f tr)) ->
                          Forall P (track_vec (on_track f st))).
  { intros f Hf. unfold track_vec, on_track in *. simpl.
    apply Forall_app in Hst as [Hpushed Htrack].
    apply Forall_app. split; [exact Hpushed | ].
    destruct (track_in_vec st); [ | constructor].
    apply Forall_cons in Htrack as [Htrack _]. repeat constructor. now apply Hf. }
  destruct (Ascii.eqb c1 "="); simpl; [ | exact Hst].
  destruct (Ascii.eqb opt "t"); [apply Hon; auto | ].
  destruct (Ascii.eqb opt "b"); [apply Hon; auto | ].
  destruct (Ascii.eqb opt "m").
  { destruct (scan_media opt_val) as [[[type port] pt] | ] eqn:Hscan.
    - unfold track_vec at 1. simpl. apply Forall_app. split; [exact Hst | ].
      repeat constructor. apply Hm.
      intros Htitle. apply toTrackType_title in Htitle.
      now apply scan_media_type in Hscan.
    - unfold track_vec at 1. simpl. now rewrite app_nil_r. }
  destruct (Ascii.eqb opt "a"); [ | apply Hon; auto].
  destruct (String.eqb _ ""); apply Hon; auto.
Qed.

Lemma load_lines_invariant (P : SdpTrack -> Prop) lines :
  (forall tr x, P tr -> P (set_t x tr)) ->
  (forall tr x, P tr -> P (set_b x tr)) ->
  (forall tr x, P tr -> P (set_attr x tr)) ->
  (forall tr x, P tr -> P (set_other x tr)) ->
  (forall type port pt,
     toTrackType type <> TrackTitle ->
     P (set_port port
          (set_type (toTrackType type)
             (set_channel (RtpPayload_getAudioChannel RTP_PT_MAP pt)
                (set_samplerate (RtpPayload_getClockRate RTP_PT_MAP pt)
                   (set_pt pt SdpTrack_new)))))) ->
  P (set_type TrackTitle SdpTrack_new) ->
  Forall P (track_vec (fold_left load_line lines first_state)).
Proof.
  intros Ht Hb Ha Ho Hm Htitle.
  assert (H0 : Forall P (track_vec first_state)) by (repeat constructor; exact Htitle).
  revert H0. generalize first_state.
  induction lines as [ | line lines IH]; intros st Hst; [exact Hst | ].
  simpl. apply IH. now apply load_line_invariant.
Qed.

Lemma rtpmap_body_erasing slot tr v :
  (rtpmap_body slot tr v).2 = true -> (rtpmap_body slot tr v).1 = tr.
Proof.
  unfold Sdp.rtpmap_body. destruct (pt_mismatch slot tr v); [reflexivity | ].
  repeat case_match; simpl; discriminate.
Qed.

(** X8.  A track of a media line in which no [rtpmap] entry is left has no
    codec name, and has the channel count and -- unless that is zero -- the
    clock rate the table gives for its payload type. *)
Theorem load_table_defaults (sdp : string) :
  Forall
    (fun tr =>
       _type tr <> TrackTitle ->
       entries_of "rtpmap" (_attr tr) = [] ->
       _codec tr = ""%string
       /\ _channel tr = RtpPayload_getAudioChannel RTP_PT_MAP (_pt tr)
       /\ (RtpPayload_getClockRate RTP_PT_MAP (_pt tr) <> 0 ->
           _samplerate tr = RtpPayload_getClockRate RTP_PT_MAP (_pt tr)))
    (load sdp).
Proof.
  unfold Sdp.load, Sdp.load_lines.
  apply (Forall_imap (fun tr => _type tr <> TrackTitle -> table_defaults tr)).
  2:{ apply (load_lines_invariant (fun tr => _type tr <> TrackTitle -> table_defaults tr));
        try (intros tr x Htr Hty; exact (Htr Hty)).
      - intros type port pt _ _. repeat split.
      - intros Hty. now elim Hty. }
  - intros i tr Htr. intros Hty Hnone.
    rewrite (resolve_type getTrackBySdp indeterminate) in Hty.
    destruct (Htr Hty) as (Hcodec & Hrate & Hchannel).
    unfold Sdp.resolve in *.
    set (u1 := rtpmap_loop (indeterminate i "rtpmap") tr) in *.
    set (u2 := fmtp_loop (indeterminate i "fmtp") u1) in *.
    set (u3 := control_step u2) in *.
    assert (H3 : _attr u3 = _attr u2
                 /\ (_pt u3, _codec u3, _samplerate u3, _channel u3)
                    = (_pt u2, _codec u2, _samplerate u2, _channel u2)).
    { unfold u3, control_step. repeat case_match; now split. }
    assert (H4 : _attr (samplerate_fallback u3) = _attr u3
                 /\ (_pt (samplerate_fallback u3), _codec (samplerate_fallback u3),
                     _channel (samplerate_fallback u3))
                    = (_pt u3, _codec u3, _channel u3)
                 /\ (_samplerate u3 <> 0 ->
                     _samplerate (samplerate_fallback u3) = _samplerate u3)).
    { unfold Sdp.samplerate_fallback.
      destruct (Z.eqb_spec (_samplerate u3) 0) as [Hz | Hnz]; simpl;
        repeat case_match; repeat split; congruence. }
    destruct H3 as [Ha3 Hf3]. destruct H4 as (Ha4 & Hf4 & Hr4).
    assert (H2 : (_pt u2, _codec u2, _samplerate u2, _channel u2)
                 = (_pt u1, _codec u1, _samplerate u1, _channel u1)).
    { unfold u2, Sdp.fmtp_loop.
      apply (prune_loop_field
               (fun tr => (_pt tr, _codec tr, _samplerate tr, _channel tr))).
      - intros s tr' v. unfold Sdp.fmtp_body. now destruct (pt_mismatch s tr' v).
      - reflexivity. }
    assert (Hnone1 : entries_of "rtpmap" (_attr u1) = []).
    { rewrite Ha4, Ha3 in Hnone. unfold u2, Sdp.fmtp_loop in Hnone.
      now rewrite prune_loop_keeps in Hnone by discriminate. }
    destruct (prune_loop_all_erased "rtpmap" rtpmap_body (indeterminate i "rtpmap") tr
                rtpmap_body_erasing Hnone1) as [m Hu1].
    fold (rtpmap_loop (indeterminate i "rtpmap") tr) in Hu1. fold u1 in Hu1.
    assert (H1 : (_pt u1, _codec u1, _samplerate u1, _channel u1)
                 = (_pt tr, _codec tr, _samplerate tr, _channel tr))
      by now rewrite Hu1.
    injection Hf4 as Hpt4 Hcodec4 Hchannel4.
    injection Hf3 as Hpt3 Hcodec3 Hrate3 Hchannel3.
    injection H2 as Hpt2 Hcodec2 Hrate2 Hchannel2.
    injection H1 as Hpt1 Hcodec1 Hrate1 Hchannel1.
    assert (Hpt : _pt (samplerate_fallback u3) = _pt tr) by congruence.
    rewrite Hpt. split; [congruence | ]. split; [congruence | ].
    intros Hclock. rewrite Hr4; congruence.
Qed.

(** *** The format parameters *)

Lemma fmtp_run vs slot tr after :
  "fmtp"%string ∉ keys after ->
  exists kept,
    (prune_from "fmtp" fmtp_body slot tr (map (pair "fmtp"%string) vs ++ after)).2
    = map (pair "fmtp"%string) kept ++ after
    /\ _fmtp (prune_from "fmtp" fmtp_body slot tr
                (map (pair "fmtp"%string) vs ++ after)).1
       = match last kept with
         | Some v => findSubString v (Some " "%string) None
         | None => _fmtp tr
         end.
Proof.
  intros Hafter. revert slot tr. induction vs as [ | v vs IH]; intros slot tr.
  - exists []. simpl. rewrite prune_from_other by assumption. now split.
  - simpl.
    assert (Hbody : fmtp_body slot tr v
                    = if pt_mismatch slot tr v then (tr, true)
                      else (set_fmtp (findSubString v (Some " "%string) None) tr, false))
      by reflexivity.
    rewrite Hbody. clear Hbody.
    destruct (pt_mismatch slot tr v).
    + destruct (IH (scanned_pt slot v) tr) as (kept & Hrest & Hfmtp).
      exists kept. now split.
    + destruct (IH (scanned_pt slot v)
                  (set_fmtp (findSubString v (Some " "%string) None) tr))
        as (kept & Hrest & Hfmtp).
      destruct (prune_from "fmtp" fmtp_body _ _ (map (pair "fmtp"%string) vs ++ after))
        as [tr' rest'].
      simpl in *. exists (v :: kept). split; [now rewrite Hrest | ].
      rewrite Hfmtp, (last_cons v kept). destruct (last kept); reflexivity.
Qed.

Lemma last_map {A B : Type} (f : A -> B) (l : list A) : last (map f l) = f <$> last l.
Proof.
  induction l as [ | x l IH]; [reflexivity | ].
  simpl map. rewrite !last_cons, IH. now destruct (last l).
Qed.

Lemma entries_of_absent key m : key ∉ keys m -> entries_of key m = [].
Proof.
  unfold entries_of, keys. induction m as [ | [k v] m IH]; [reflexivity | ].
  simpl. intros Hkey. apply not_elem_of_cons in Hkey as [Hne Hkey].
  apply not_eq_sym, String.eqb_neq in Hne. rewrite Hne. now apply IH.
Qed.

Lemma entries_of_run key vs : entries_of key (map (pair key) vs) = map (pair key) vs.
Proof.
  unfold entries_of. induction vs as [ | v vs IH]; [reflexivity | ].
  simpl. rewrite String.eqb_refl. now rewrite IH.
Qed.

Lemma fmtp_loop_last slot tr :
  mm_sorted (_attr tr) ->
  _fmtp (fmtp_loop slot tr)
  = match last (entries_of "fmtp" (_attr (fmtp_loop slot tr))) with
    | Some pr => findSubString pr.2 (Some " "%string) None
    | None => _fmtp tr
    end.
Proof.
  intros Hsorted.
  destruct (mm_sorted_run "fmtp" _ Hsorted) as (before & vs & after & Hattr & Hb & Ha).
  unfold Sdp.fmtp_loop.
  rewrite (prune_loop_entries "fmtp" fmtp_body slot tr before vs after Hattr Hb Ha).
  destruct (fmtp_run vs slot tr after Ha) as (kept & Hrest & Hfmtp).
  destruct (prune_from "fmtp" fmtp_body slot tr (map (pair "fmtp"%string) vs ++ after))
    as [tr' rest'].
  simpl in *. subst rest'. rewrite Hfmtp.
  rewrite !entries_of_app, (entries_of_absent _ _ Hb), (entries_of_absent _ _ Ha).
  rewrite entries_of_run, app_nil_r. simpl.
  rewrite last_map. destruct (last kept); reflexivity.
Qed.

(** X9.  In every track [load] leaves, the format parameters are the text
    after the first blank of the last [fmtp] entry left in the track, and
    empty when none is left. *)
Theorem load_fmtp_last_entry (sdp : string) :
  Forall (fun tr => _fmtp tr = last_fmtp (entries_of "fmtp" (_attr tr))) (load sdp).
Proof.
  unfold Sdp.load.
  pose proof (load_lines_sorted split trim RTP_PT_MAP sdp) as Hsorted.
  unfold Sdp.load_lines in *.
  assert (Hempty : Forall (fun tr => _fmtp tr = ""%string)
                     (track_vec (fold_left load_line (split sdp) first_state))).
  { apply (load_lines_invariant (fun tr => _fmtp tr = ""%string)); auto. }
  apply (Forall_imap (fun tr => mm_sorted (_attr tr) /\ _fmtp tr = ""%string)).
  2:{ rewrite List.Forall_forall in *. intros tr Hin. split; auto. }
  clear Hsorted Hempty. intros i tr [Hsorted Hempty].
  unfold Sdp.resolve.
  set (u1 := rtpmap_loop (indeterminate i "rtpmap") tr).
  assert (Hs1 : mm_sorted (_attr u1)) by now apply prune_loop_sorted.
  assert (Hf1 : _fmtp u1 = ""%string).
  { unfold u1, Sdp.rtpmap_loop. rewrite <- Hempty.
    apply (prune_loop_field _fmtp); [ | reflexivity].
    intros s tr' v. unfold Sdp.rtpmap_body. repeat case_match; reflexivity. }
  pose proof (fmtp_loop_last (indeterminate i "fmtp") u1 Hs1) as Hlast.
  rewrite Hf1 in Hlast.
  set (u2 := fmtp_loop (indeterminate i "fmtp") u1) in *.
  assert (H3 : _attr (control_step u2) = _attr u2 /\ _fmtp (control_step u2) = _fmtp u2).
  { unfold control_step. repeat case_match; now split. }
  destruct H3 as [Ha3 Hf3]. set (u3 := control_step u2) in *.
  assert (H4 : _attr (samplerate_fallback u3) = _attr u3
               /\ _fmtp (samplerate_fallback u3) = _fmtp u3).
  { unfold Sdp.samplerate_fallback. repeat case_match; now split. }
  destruct H4 as [Ha4 Hf4].
  rewrite Hf4, Hf3, Ha4, Ha3. exact Hlast.
Qed.

End LoadFields.

(** ** Attribute lines, written and read *)

Lemma c_str_no_nul s : has_char zero s = false -> c_str s = s.
Proof.
  induction s as [ | c s IH]; [reflexivity | ].
  cbn [c_str has_char]. rewrite (Ascii.eqb_sym zero c).
  destruct (Ascii.eqb c zero); [discriminate | ].
  cbn [orb]. intros Hs. now rewrite IH.
Qed.

Lemma has_char_append c a b :
  has_char c (a +:+ b) = has_char c a || has_char c b.
Proof.
  induction a as [ | x a IH]; [reflexivity | ].
  rewrite append_cons. cbn [has_char]. rewrite IH. apply orb_assoc.
Qed.

Lemma index_char_absent c s :
  has_char c s = false -> String.index 0 (String c "") s = None.
Proof.
  induction s as [ | b s IH]; [reflexivity | ].
  rewrite index_char_cons. cbn [has_char].
  destruct (Ascii.eqb c b); [discriminate | ].
  cbn [orb]. intros Hs. now rewrite IH.
Qed.

Lemma index_char_first c k rest :
  has_char c k = false ->
  String.index 0 (String c "") (k +:+ String c rest) = Some (String.length k).
Proof.
  induction k as [ | b k IH]; intros Hk.
  - change ("" +:+ String c rest) with (String c rest).
    rewrite index_char_cons. now rewrite Ascii.eqb_refl.
  - rewrite append_cons, index_char_cons. cbn [has_char] in Hk.
    destruct (Ascii.eqb c b); [discriminate | ].
    cbn [orb] in Hk. now rewrite IH.
Qed.

Lemma substring_prefix k rest : String.substring 0 (String.length k) (k +:+ rest) = k.
Proof.
  induction k as [ | b k IH].
  - cbn [String.length]. now destruct ("" +:+ rest).
  - rewrite append_cons. cbn [String.length String.substring]. now rewrite IH.
Qed.

Lemma after_first_append c k rest :
  has_char c k = false -> after_first c (k +:+ String c rest) = rest.
Proof.
  induction k as [ | b k IH]; intros Hk.
  - change ("" +:+ String c rest) with (String c rest). cbn [after_first].
    now rewrite Ascii.eqb_refl.
  - rewrite append_cons. cbn [after_first has_char] in *.
    destruct (Ascii.eqb c b); [discriminate | ]. now apply IH.
Qed.

(** The name and the value [load] finds in the text of an attribute:
    what stands before and after the first colon. *)
Lemma findSubString_name k v :
  has_char ":" k = false -> has_char zero k = false -> has_char zero v = false ->
  findSubString (k +:+ ":" +:+ v) None (Some ":"%string) = k.
Proof.
  intros Hcolon Hk Hv. unfold findSubString.
  rewrite c_str_no_nul.
  - change (":" +:+ v) with (String ":" v).
    rewrite index_char_first by assumption. apply substring_prefix.
  - rewrite has_char_append, Hk. simpl. exact Hv.
Qed.

Lemma findSubString_value k v :
  has_char ":" k = false -> has_char zero k = false -> has_char zero v = false ->
  findSubString (k +:+ ":" +:+ v) (Some ":"%string) None = v.
Proof.
  intros Hcolon Hk Hv. rewrite findSubString_after, c_str_no_nul.
  - now apply after_first_append.
  - rewrite has_char_append, Hk. simpl. exact Hv.
Qed.

Lemma findSubString_no_colon k :
  has_char ":" k = false -> has_char zero k = false ->
  findSubString k None (Some ":"%string) = ""%string.
Proof.
  intros Hcolon Hk. unfold findSubString. rewrite c_str_no_nul by assumption.
  now rewrite index_char_absent.
Qed.

Lemma getAttrSdp_one pr : getAttrSdp [pr] "" = attr_text pr +:+ CRLF.
Proof.
  unfold getAttrSdp, attr_text, attr_body. destruct pr as [k v]. simpl.
  destruct (String.eqb k "control"); simpl.
  - now rewrite !append_assoc.
  - destruct (String.eqb v ""); simpl; now rewrite !append_assoc.
Qed.

(** *** Entries of one name *)

Lemma lt_le_ne k k' k'' : String.ltb k k' = true -> String.le k' k'' -> k'' <> k.
Proof.
  intros Hlt Hle ->. unfold String.ltb in Hlt. unfold String.le, String.leb in Hle.
  pose proof (String.compare_antisym k k') as Hanti.
  destruct (String.compare k' k); simpl in Hanti; rewrite Hanti in Hlt;
    try discriminate.
  contradiction.
Qed.

Lemma le_refl k : String.le k k.
Proof.
  unfold String.le, String.leb.
  pose proof (String.compare_antisym k k) as Hanti.
  destruct (String.compare k k); simpl in *; solve [exact I | discriminate].
Qed.

Lemma filter_none {A : Type} (f : A -> bool) (l : list A) :
  (forall x, In x l -> f x = false) -> List.filter f l = [].
Proof.
  induction l as [ | x l IH]; intros Hall; [reflexivity | ].
  simpl. rewrite (Hall x (or_introl eq_refl)). apply IH.
  intros y Hy. apply Hall. now right.
Qed.

Lemma mm_emplace_entries k v m :
  mm_sorted m ->
  entries_of k (mm_emplace k v m) = entries_of k m ++ [(k, v)]
  /\ forall key, key <> k -> entries_of key (mm_emplace k v m) = entries_of key m.
Proof.
  unfold entries_of, mm_sorted, keys.
  induction m as [ | [k' v'] m IH]; intros Hm.
  - simpl. rewrite String.eqb_refl. split; [reflexivity | ].
    intros key Hne. apply not_eq_sym, String.eqb_neq in Hne. now rewrite Hne.
  - simpl in Hm. apply StronglySorted_inv in Hm as [Hm Hk'].
    destruct (IH Hm) as [IHk IHother].
    cbn [mm_emplace]. destruct (String.ltb k k') eqn:Hlt.
    + split.
      * assert (Hnone : List.filter (fun pr : string * string => String.eqb pr.1 k)
                          ((k', v') :: m) = []).
        { apply filter_none. intros [k'' v''] Hin. simpl.
          apply String.eqb_neq.
          destruct Hin as [[= <- <-] | Hin].
          - apply (lt_le_ne k k' k' Hlt), le_refl.
          - apply (lt_le_ne k k' k'' Hlt).
            rewrite List.Forall_forall in Hk'. apply Hk'.
            apply in_map_iff. now exists (k'', v''). }
        cbn [List.filter fst] in Hnone |- *.
        now rewrite String.eqb_refl, Hnone.
      * intros key Hne. cbn [List.filter fst].
        apply not_eq_sym, String.eqb_neq in Hne. now rewrite Hne.
    + split.
      * cbn [List.filter fst]. destruct (String.eqb k' k); now rewrite IHk.
      * intros key Hne. cbn [List.filter fst].
        destruct (String.eqb k' key); now rewrite (IHother key Hne).
Qed.

Section AttributeLines.

Context {CodecId : Type} `{Countable CodecId}.
Variable trim : string -> string.
Variable RTP_PT_MAP : list (pt_entry (CodecId := CodecId)).

#[local] Abbreviation load_line := (load_line trim RTP_PT_MAP).

Lemma load_line_attribute st raw opt_val :
  trim raw = String "a" (String "=" opt_val) ->
  load_line st raw
  = let attr := findSubString opt_val None (Some ":"%string) in
    if String.eqb attr "" then
      on_track (fun tr => set_attr (mm_emplace opt_val "" (_attr tr)) tr) st
    else
      on_track
        (fun tr =>
           set_attr
             (mm_emplace attr (findSubString opt_val (Some ":"%string) None) (_attr tr))
             tr) st.
Proof. intros Htrim. unfold Sdp.load_line. rewrite Htrim. reflexivity. Qed.

Lemma load_line_attr_text st raw k v :
  k <> ""%string ->
  has_char ":" k = false ->
  has_char zero k = false ->
  has_char zero v = false ->
  trim raw = attr_text (k, v) ->
  load_line st raw = on_track (fun tr => set_attr (mm_emplace k v (_attr tr)) tr) st.
Proof.
  intros Hname Hcolon Hk Hv Htrim.
  rewrite (load_line_attribute st raw (attr_body (k, v)) Htrim).
  cbv zeta. unfold attr_body. simpl.
  assert (Hwith :
             (if String.eqb (findSubString (k +:+ ":" +:+ v) None (Some ":"%string)) ""
              then on_track
                     (fun tr => set_attr (mm_emplace (k +:+ ":" +:+ v) "" (_attr tr)) tr) st
              else on_track
                     (fun tr =>
                        set_attr
                          (mm_emplace
                             (findSubString (k +:+ ":" +:+ v) None (Some ":"%string))
                             (findSubString (k +:+ ":" +:+ v) (Some ":"%string) None)
                             (_attr tr)) tr) st)
             = on_track (fun tr => set_attr (mm_emplace k v (_attr tr)) tr) st).
  { rewrite findSubString_name, findSubString_value by assumption.
    apply String.eqb_neq in Hname. now rewrite Hname. }
  destruct (String.eqb k "control"); [apply Hwith | ].
  destruct (String.eqb v "") eqn:Hempty; [ | apply Hwith].
  apply String.eqb_eq in Hempty. subst v.
  rewrite findSubString_no_colon by assumption. reflexivity.
Qed.

(** X10.  A line that [getAttrSdp] writes for an attribute is read back by
    [load] as that attribute: for a name that is not empty and holds no
    colon, and a name and a value without a NUL, the line -- with or without
    its colon -- puts the same name and value into the attributes of the
    current track. *)
Theorem attribute_line_round_trip (st : load_state) (raw : string)
    (pr : string * string) :
  pr.1 <> ""%string ->
  has_char ":" pr.1 = false ->
  has_char zero pr.1 = false ->
  has_char zero pr.2 = false ->
  trim raw = attr_text pr ->
  getAttrSdp [pr] "" = attr_text pr +:+ CRLF
  /\ load_line st raw
     = on_track (fun tr => set_attr (mm_emplace pr.1 pr.2 (_attr tr)) tr) st.
Proof.
  destruct pr as [k v]. simpl. intros Hname Hcolon Hk Hv Htrim.
  split; [apply getAttrSdp_one | now apply load_line_attr_text].
Qed.

(** X11.  An attribute line adds its entry behind the entries the track has
    under the same name and leaves the entries of every other name as they
    are; the multimap stays in the order of its names. *)
Theorem attribute_lines_keep_order (st : load_state) (raw : string)
    (pr : string * string) :
  pr.1 <> ""%string ->
  has_char ":" pr.1 = false ->
  has_char zero pr.1 = false ->
  has_char zero pr.2 = false ->
  trim raw = attr_text pr ->
  mm_sorted (_attr (track st)) ->
  let attr' := _attr (track (load_line st raw)) in
  mm_sorted attr'
  /\ entries_of pr.1 attr' = entries_of pr.1 (_attr (track st)) ++ [pr]
  /\ forall key, key <> pr.1 -> entries_of key attr' = entries_of key (_attr (track st)).
Proof.
  intros Hname Hcolon Hk Hv Htrim Hsorted attr'. subst attr'.
  destruct pr as [k v]. simpl in *.
  rewrite (load_line_attr_text st raw k v) by assumption. simpl.
  split; [now apply mm_emplace_sorted | ].
  now apply mm_emplace_entries.
Qed.

End AttributeLines.

(** ** Control URLs *)

Lemma length_append (a b : string) :
  String.length (a +:+ b) = (String.length a + String.length b)%nat.
Proof. induction a as [ | c a IH]; simpl; [reflexivity | now rewrite IH]. Qed.

Lemma prefix_append (p a b : string) :
  String.prefix p a = true -> String.prefix p (a +:+ b) = true.
Proof.
  revert a. induction p as [ | c p IH]; intros a.
  - intros _. destruct (a +:+ b); reflexivity.
  - destruct a as [ | c' a]; [discriminate | ].
    change (String c' a +:+ b) with (String c' (a +:+ b)). simpl.
    destruct (ascii_dec c c'); [apply IH | discriminate].
Qed.

Lemma contains_append (p a b : string) :
  contains p a = true -> contains p (a +:+ b) = true.
Proof.
  unfold contains. induction a as [ | c a IH].
  - destruct p as [ | c p]; simpl; [ | discriminate]. intros _. destruct b; reflexivity.
  - change (String c a +:+ b) with (String c (a +:+ b)).
    cbn [String.index].
    destruct (String.prefix p (String c a)) eqn:Hpre.
    + pose proof (prefix_append _ _ b Hpre) as Hpre'.
      change (String c a +:+ b) with (String c (a +:+ b)) in Hpre'.
      now rewrite Hpre'.
    + destruct (String.prefix p (String c (a +:+ b))); [reflexivity | ].
      destruct (String.index 0 p a); [ | discriminate].
      intros _. specialize (IH eq_refl).
      now destruct (String.index 0 p (a +:+ b)).
Qed.

(** X12.  [SdpTrack::getControlUrl] returns the control text itself exactly
    when that text holds "://"; any other control text is put behind the
    base URL and a slash, so with a base URL that holds "://" the result
    always holds it. *)
Theorem SdpTrack_getControlUrl_absolute (tr : SdpTrack) (base_url : string) :
  (SdpTrack_getControlUrl tr base_url = _control tr
   <-> contains "://" (_control tr) = true)
  /\ (contains "://" (_control tr) = false ->
      SdpTrack_getControlUrl tr base_url = base_url +:+ "/" +:+ _control tr)
  /\ (contains "://" base_url = true ->
      contains "://" (SdpTrack_getControlUrl tr base_url) = true).
Proof.
  unfold SdpTrack_getControlUrl.
  destruct (contains "://" (_control tr)) eqn:Habs.
  - split; [now split | ]. split; [discriminate | ]. intros _. exact Habs.
  - split; [ | split; [reflexivity | ]].
    + split; [ | discriminate]. intros Heq.
      apply (f_equal String.length) in Heq.
      rewrite !length_append in Heq. simpl in Heq. lia.
    + intros Hbase. now apply contains_append.
Qed.

(** ** The payload-type table *)

Import Table.

Section TableFacts.

Context {CodecId : Type} `{Countable CodecId}.
Context {T : Type} `{!Track (CodecId := CodecId) T}.
Variable RTP_PT_MAP : list (pt_entry (CodecId := CodecId)).
Variable CodecInvalid : CodecId.
Variable getCodecName : CodecId -> string.

#[local] Abbreviation RtpPayload_getClockRate := (RtpPayload_getClockRate RTP_PT_MAP).
#[local] Abbreviation RtpPayload_getAudioChannel :=
  (RtpPayload_getAudioChannel RTP_PT_MAP).
#[local] Abbreviation RtpPayload_getTrackType := (RtpPayload_getTrackType RTP_PT_MAP).
#[local] Abbreviation RtpPayload_getName := (RtpPayload_getName RTP_PT_MAP).
#[local] Abbreviation RtpPayload_getCodecId :=
  (RtpPayload_getCodecId RTP_PT_MAP CodecInvalid).
#[local] Abbreviation RtpPayload_getClockRateByCodec :=
  (RtpPayload_getClockRateByCodec RTP_PT_MAP getCodecName).
#[local] Abbreviation RtpPayload_getPayloadType :=
  (RtpPayload_getPayloadType RTP_PT_MAP).

Lemma fold_map_insert_by_codec {V : Type} (val : pt_entry (CodecId := CodecId) -> V)
    (l : list (pt_entry (CodecId := CodecId))) (m : gmap CodecId V) (k : CodecId) :
  fold_left map_insert (map (fun e => (pt_codec_id e, val e)) l) m !! k =
  match m !! k with
  | Some v => Some v
  | None => val <$> first_entry l k
  end.
Proof.
  unfold first_entry. revert m. induction l as [ | e l IH]; intros m; simpl.
  - destruct (m !! k); reflexivity.
  - rewrite IH. unfold map_insert at 1. simpl.
    destruct (decide (pt_codec_id e = k)) as [-> | Hne].
    + rewrite bool_decide_eq_true_2 by reflexivity.
      destruct (m !! k) eqn:Hm; [rewrite Hm; reflexivity | ].
      rewrite lookup_insert_eq. reflexivity.
    + rewrite bool_decide_eq_false_2 by assumption.
      destruct (m !! pt_codec_id e); [reflexivity | ].
      rewrite lookup_insert_ne by assumption. reflexivity.
Qed.

Lemma first_entry_codec codec e :
  first_entry RTP_PT_MAP codec = Some e -> e ∈ RTP_PT_MAP /\ pt_codec_id e = codec.
Proof.
  unfold first_entry. intros Hfind. apply find_some in Hfind as [Hin Hc].
  apply bool_decide_eq_true in Hc. split; [now apply list_elem_of_In | exact Hc].
Qed.

Lemma getClockRateByCodec_lookup (codec : CodecId) :
  RtpPayload_getClockRateByCodec codec
  = match first_entry RTP_PT_MAP codec with
    | Some e => (pt_clock_rate e, None)
    | None => (90000, Some ("Unsupported codec: " +:+ getCodecName codec))
    end.
Proof.
  unfold Table.RtpPayload_getClockRateByCodec, clock_rate_map.
  rewrite fold_map_insert_by_codec, lookup_empty.
  now destruct (first_entry RTP_PT_MAP codec).
Qed.

(** X13.  [RtpPayload_getClockRateByCodec] answers with the clock rate of the first
    line of the table that names the codec, and writes nothing; for a codec
    no line names it answers 90000 and writes a warning. *)
Theorem getClockRateByCodec_first_line (codec : CodecId) :
  match first_entry RTP_PT_MAP codec with
  | Some e =>
      pt_codec_id e = codec
      /\ RtpPayload_getClockRateByCodec codec = (pt_clock_rate e, None)
  | None =>
      Forall (fun e => pt_codec_id e <> codec) RTP_PT_MAP
      /\ RtpPayload_getClockRateByCodec codec
         = (90000, Some ("Unsupported codec: " +:+ getCodecName codec))
  end.
Proof.
  rewrite getClockRateByCodec_lookup.
  destruct (first_entry RTP_PT_MAP codec) as [e | ] eqn:Hfind; simpl.
  - split; [ | reflexivity]. now apply first_entry_codec in Hfind.
  - split; [ | reflexivity]. now apply first_entry_None.
Qed.

(** *** Lookups by number *)

Lemma switch_pt_unknown pt :
  (forall e, e ∈ RTP_PT_MAP -> pt_value e <> pt) -> switch_pt RTP_PT_MAP pt = None.
Proof.
  intros Hno. unfold switch_pt.
  destruct (List.find _ RTP_PT_MAP) as [e | ] eqn:Hfind; [ | reflexivity].
  apply find_some in Hfind as [Hin Hv]. apply Z.eqb_eq in Hv.
  exfalso. apply (Hno e); [now apply list_elem_of_In | exact Hv].
Qed.

Lemma switch_pt_known e :
  NoDup (map pt_value RTP_PT_MAP) -> e ∈ RTP_PT_MAP ->
  switch_pt RTP_PT_MAP (pt_value e) = Some e.
Proof.
  unfold switch_pt. induction RTP_PT_MAP as [ | e' l IH]; intros Hnodup Hin.
  - now apply not_elem_of_nil in Hin.
  - simpl in *. apply NoDup_cons in Hnodup as [Hnotin Hnodup].
    apply elem_of_cons in Hin as [-> | Hin].
    + now rewrite Z.eqb_refl.
    + destruct (Z.eqb_spec (pt_value e') (pt_value e)) as [Heq | Hne].
      * exfalso. apply Hnotin. rewrite Heq.
        apply list_elem_of_In, in_map. now apply list_elem_of_In.
      * now apply IH.
Qed.

(** X14.  The five lookups by payload-type number; the case labels of a
    [switch] are distinct. A number of the table gives the columns of its
    line; any other number gives the defaults, and no error. *)
Theorem lookups_by_number (pt : Z) :
  NoDup (map pt_value RTP_PT_MAP) ->
  (forall e,
     e ∈ RTP_PT_MAP -> pt_value e = pt ->
     RtpPayload_getClockRate pt = pt_clock_rate e
     /\ RtpPayload_getAudioChannel pt = pt_channel e
     /\ RtpPayload_getTrackType pt = pt_type e
     /\ RtpPayload_getName pt = pt_name e
     /\ RtpPayload_getCodecId pt = pt_codec_id e)
  /\ ((forall e, e ∈ RTP_PT_MAP -> pt_value e <> pt) ->
      RtpPayload_getClockRate pt = 90000
      /\ RtpPayload_getAudioChannel pt = 1
      /\ RtpPayload_getTrackType pt = TrackInvalid
      /\ RtpPayload_getName pt = "unknown payload type"%string
      /\ RtpPayload_getCodecId pt = CodecInvalid).
Proof.
  intros Hnodup.
  unfold Sdp.RtpPayload_getClockRate, Sdp.RtpPayload_getAudioChannel,
    Sdp.RtpPayload_getTrackType, Sdp.RtpPayload_getName, Table.RtpPayload_getCodecId.
  split.
  - intros e Hin <-. rewrite (switch_pt_known e Hnodup Hin). repeat split.
  - intros Hno. rewrite (switch_pt_unknown pt Hno). repeat split.
Qed.

(** X15.  A payload type that [RtpPayload_getPayloadType] gives for a track leads back
    to the track: the codec of that number is the codec of the track, the
    clock rate of the number is the one [RtpPayload_getClockRateByCodec] gives for the
    codec, and for an audio track the clock rate and the channel count of
    the number are the track's own. *)
Theorem getPayloadType_round_trip (track : T) (p : Z) :
  NoDup (map pt_value RTP_PT_MAP) ->
  RtpPayload_getPayloadType track = p ->
  p <> -1 ->
  RtpPayload_getCodecId p = getCodecId track
  /\ RtpPayload_getClockRateByCodec (getCodecId track) = (RtpPayload_getClockRate p, None)
  /\ (getTrackType track = TrackAudio ->
      RtpPayload_getClockRate p = getAudioSampleRate track
      /\ RtpPayload_getAudioChannel p = getAudioChannel track).
Proof.
  intros Hnodup Hp Hfound.
  pose proof (getClockRateByCodec_lookup (getCodecId track)) as Hrate.
  unfold Sdp.RtpPayload_getPayloadType in Hp. rewrite s_map_lookup in Hp.
  destruct (first_entry RTP_PT_MAP (getCodecId track)) as [e | ] eqn:Hfind;
    simpl in Hp; [ | congruence].
  destruct (first_entry_codec _ _ Hfind) as [Hin Hcodec].
  assert (Hpe : p = pt_value e /\
                (getTrackType track = TrackAudio ->
                 getAudioSampleRate track = pt_clock_rate e
                 /\ getAudioChannel track = pt_channel e)).
  { destruct (TrackType_eqb (getTrackType track) TrackAudio) eqn:Hty.
    - destruct (Z.eqb_spec (getAudioSampleRate track) (pt_clock_rate e)) as [Hr | Hr];
        destruct (Z.eqb_spec (getAudioChannel track) (pt_channel e)) as [Hc | Hc];
        simpl in Hp; try congruence.
      split; [congruence | ]. intros _. now split.
    - split; [congruence | ]. intros Haudio. rewrite Haudio in Hty. discriminate. }
  destruct Hpe as [-> Haudio].
  unfold Sdp.RtpPayload_getClockRate, Sdp.RtpPayload_getAudioChannel,
    Table.RtpPayload_getCodecId.
  rewrite (switch_pt_known e Hnodup Hin).
  split; [exact Hcodec | ]. split; [exact Hrate | ].
  intros Hty. destruct (Haudio Hty) as [-> ->]. now split.
Qed.

End TableFacts.

(** ** RTP on the wire *)

Import Wire.

Lemma octet_sum b0 b1 b2 b3 :
  0 <= b0 <= 255 -> 0 <= b1 <= 255 -> 0 <= b2 <= 255 -> 0 <= b3 <= 255 ->
  let x := b0 + 2 ^ 8 * b1 + 2 ^ 16 * b2 + 2 ^ 24 * b3 in
  octet x 0 = b0 /\ octet x 1 = b1 /\ octet x 2 = b2 /\ octet x 3 = b3.
Proof.
  intros H0 H1 H2 H3 x. subst x. unfold octet.
  change (2 ^ (8 * 0)) with 1. change (2 ^ (8 * 1)) with 256.
  change (2 ^ (8 * 2)) with 65536. change (2 ^ (8 * 3)) with 16777216.
  change (2 ^ 8) with 256. change (2 ^ 16) with 65536. change (2 ^ 24) with 16777216.
  repeat split; Z.div_mod_to_equations; lia.
Qed.

Lemma octet_range x k : 0 <= octet x k <= 255.
Proof.
  unfold octet. pose proof (Z.mod_pos_bound (x / 2 ^ (8 * k)) 256 ltac:(lia)). lia.
Qed.

Lemma octets_of_uint32 x :
  uint32_t x = octet (uint32_t x) 0 + 2 ^ 8 * octet (uint32_t x) 1
               + 2 ^ 16 * octet (uint32_t x) 2 + 2 ^ 24 * octet (uint32_t x) 3.
Proof.
  unfold octet, uint32_t, wrap.
  pose proof (Z.mod_pos_bound x (2 ^ 32) ltac:(lia)) as Hx.
  change (2 ^ (8 * 0)) with 1. change (2 ^ (8 * 1)) with 256.
  change (2 ^ (8 * 2)) with 65536. change (2 ^ (8 * 3)) with 16777216.
  change (2 ^ 8) with 256. change (2 ^ 16) with 65536. change (2 ^ 24) with 16777216.
  change (2 ^ 32) with 4294967296 in *.
  Z.div_mod_to_equations. lia.
Qed.

(** Read in the byte order of the host and passed through [ntohl], four
    bytes give their value in network order on either kind of host. *)
Lemma ntohl_load32 host m a : ntohl host (load32 host m a) = network_order32 m a.
Proof.
  unfold ntohl, htonl, load32, network_order32.
  destruct host; [ | reflexivity].
  pose proof (octet_sum (u8 (m a)) (u8 (m (a + 1))) (u8 (m (a + 2))) (u8 (m (a + 3)))
                (u8_range _) (u8_range _) (u8_range _) (u8_range _)) as (-> & -> & -> & ->).
  reflexivity.
Qed.

Lemma ntohs_load16 host m a : ntohs host (load16 host m a) = network_order16 m a.
Proof.
  unfold ntohs, load16, network_order16.
  destruct host; [ | reflexivity].
  pose proof (u8_range (m a)) as H0. pose proof (u8_range (m (a + 1))) as H1.
  unfold octet. change (2 ^ (8 * 0)) with 1. change (2 ^ (8 * 1)) with 256.
  change (2 ^ 8) with 256.
  assert (E0 : (u8 (m a) + 256 * u8 (m (a + 1))) / 1 mod 256 = u8 (m a))
    by (Z.div_mod_to_equations; lia).
  assert (E1 : (u8 (m a) + 256 * u8 (m (a + 1))) / 256 mod 256 = u8 (m (a + 1)))
    by (Z.div_mod_to_equations; lia).
  rewrite E0, E1. reflexivity.
Qed.

(** X16.  [getSSRC] fails, and leaves the reference alone, on fewer than
    twelve bytes; from twelve bytes on it succeeds, and the value is that of
    the bytes 8 to 11 in network order, whatever the byte order of the host. *)
Theorem getSSRC_network_order (host : byte_order) (data : Z -> byte)
    (data_len ssrc0 : Z) :
  getSSRC host data data_len ssrc0
  = if data_len <? 12 then (false, ssrc0) else (true, network_order32 data 8).
Proof.
  unfold getSSRC. destruct (data_len <? 12); [reflexivity | ].
  now rewrite ntohl_load32.
Qed.

Lemma hex_digit n :
  0 <= n < 16 ->
  Ascii.eqb (hex n) zero = false /\ hex_digit_value (hex n) = n.
Proof.
  intros Hn. rewrite <- (Z2Nat.id n) by lia.
  assert (Hk : (Z.to_nat n < 16)%nat) by lia.
  revert Hk. generalize (Z.to_nat n) as k. intros k Hk.
  do 16 (destruct k as [ | k]; [split; reflexivity | ]). lia.
Qed.

Lemma octet_digits x k :
  0 <= octet x k / 16 < 16 /\ 0 <= octet x k mod 16 < 16
  /\ octet x k = 16 * (octet x k / 16) + octet x k mod 16.
Proof.
  pose proof (octet_range x k). Z.div_mod_to_equations. lia.
Qed.

Lemma store32_htonl host x :
  0 <= x < 2 ^ 32 ->
  store32 host (htonl host x) = [octet x 3; octet x 2; octet x 1; octet x 0].
Proof.
  intros Hx. unfold store32, htonl. destruct host; [ | reflexivity].
  replace (2 ^ 24 * octet x 0 + 2 ^ 16 * octet x 1 + 2 ^ 8 * octet x 2 + octet x 3)
    with (octet x 3 + 2 ^ 8 * octet x 2 + 2 ^ 16 * octet x 1 + 2 ^ 24 * octet x 0) by lia.
  pose proof (octet_sum (octet x 3) (octet x 2) (octet x 1) (octet x 0)
                (octet_range _ _) (octet_range _ _) (octet_range _ _) (octet_range _ _))
    as (-> & -> & -> & ->).
  reflexivity.
Qed.

Lemma uint32_t_range x : 0 <= uint32_t x < 2 ^ 32.
Proof. unfold uint32_t, wrap. apply Z.mod_pos_bound. lia. Qed.

Lemma printSSRC_text host x :
  printSSRC host x
  = hex2 (octet (uint32_t x) 3) +:+ hex2 (octet (uint32_t x) 2)
    +:+ hex2 (octet (uint32_t x) 1) +:+ hex2 (octet (uint32_t x) 0).
Proof.
  unfold printSSRC. rewrite store32_htonl by apply uint32_t_range.
  set (y := uint32_t x).
  destruct (octet_digits y 3) as (H3h & H3l & _).
  destruct (octet_digits y 2) as (H2h & H2l & _).
  destruct (octet_digits y 1) as (H1h & H1l & _).
  destruct (octet_digits y 0) as (H0h & H0l & _).
  cbn [fold_left nth Nat.mul Nat.add replicate write sprintf_02X take drop length app
       string_of_list_ascii c_str].
  rewrite (proj1 (hex_digit _ H3h)), (proj1 (hex_digit _ H3l)),
    (proj1 (hex_digit _ H2h)), (proj1 (hex_digit _ H2l)),
    (proj1 (hex_digit _ H1h)), (proj1 (hex_digit _ H1l)),
    (proj1 (hex_digit _ H0h)), (proj1 (hex_digit _ H0l)).
  reflexivity.
Qed.

(** X17.  [printSSRC] writes the same text on either kind of host: the eight
    upper-case hexadecimal digits of the value, most significant first, so
    the text read as a hexadecimal number is the value again. *)
Theorem printSSRC_hexadecimal (host : byte_order) (ui32Ssrc : Z) :
  printSSRC host ui32Ssrc = printSSRC BigEndian ui32Ssrc
  /\ String.length (printSSRC host ui32Ssrc) = 8%nat
  /\ hex_value (printSSRC host ui32Ssrc) = uint32_t ui32Ssrc.
Proof.
  rewrite !printSSRC_text.
  split; [reflexivity | ]. split; [reflexivity | ].
  set (y := uint32_t ui32Ssrc).
  destruct (octet_digits y 3) as (H3h & H3l & E3).
  destruct (octet_digits y 2) as (H2h & H2l & E2).
  destruct (octet_digits y 1) as (H1h & H1l & E1).
  destruct (octet_digits y 0) as (H0h & H0l & E0).
  cbv [hex_value hex2 String.append list_ascii_of_string fold_left].
  rewrite (proj2 (hex_digit _ H3h)), (proj2 (hex_digit _ H3l)),
    (proj2 (hex_digit _ H2h)), (proj2 (hex_digit _ H2l)),
    (proj2 (hex_digit _ H1h)), (proj2 (hex_digit _ H1l)),
    (proj2 (hex_digit _ H0h)), (proj2 (hex_digit _ H0l)).
  pose proof (octets_of_uint32 ui32Ssrc) as Hy. fold y in Hy.
  change (2 ^ 8) with 256 in Hy. change (2 ^ 16) with 65536 in Hy.
  change (2 ^ 24) with 16777216 in Hy.
  lia.
Qed.

(** X18.  The text [printSSRC] makes of what [getSSRC] extracted shows the
    bytes 8 to 11 of the buffer, in the order of the buffer. *)
Theorem printSSRC_of_getSSRC (host : byte_order) (data : Z -> byte)
    (data_len ssrc0 ssrc : Z) :
  getSSRC host data data_len ssrc0 = (true, ssrc) ->
  printSSRC host ssrc
  = hex2 (u8 (data 8)) +:+ hex2 (u8 (data 9)) +:+ hex2 (u8 (data 10))
    +:+ hex2 (u8 (data 11)).
Proof.
  unfold getSSRC. rewrite ntohl_load32.
  destruct (data_len <? 12); [discriminate | ].
  intros [= <-]. rewrite printSSRC_text.
  assert (Hsmall : uint32_t (network_order32 data 8) = network_order32 data 8).
  { unfold uint32_t, wrap, network_order32.
    pose proof (u8_range (data 8)). pose proof (u8_range (data (8 + 1))).
    pose proof (u8_range (data (8 + 2))). pose proof (u8_range (data (8 + 3))).
    apply Z.mod_small. lia. }
  rewrite Hsmall. unfold network_order32.
  replace (2 ^ 24 * u8 (data 8) + 2 ^ 16 * u8 (data (8 + 1)) + 2 ^ 8 * u8 (data (8 + 2))
           + u8 (data (8 + 3)))
    with (u8 (data (8 + 3)) + 2 ^ 8 * u8 (data (8 + 2)) + 2 ^ 16 * u8 (data (8 + 1))
          + 2 ^ 24 * u8 (data 8)) by lia.
  pose proof (octet_sum (u8 (data (8 + 3))) (u8 (data (8 + 2))) (u8 (data (8 + 1)))
                (u8 (data 8)) (u8_range _) (u8_range _) (u8_range _) (u8_range _))
    as (-> & -> & -> & ->).
  reflexivity.
Qed.

(** *** The interleaved prefix *)

Lemma u8_to_byte x : u8 (to_byte x) = uint8_t x.
Proof.
  unfold to_byte, u8.
  assert (Hx : 0 <= uint8_t x < 256).
  { unfold uint8_t, wrap. apply Z.mod_pos_bound. lia. }
  destruct (Byte.of_N (Z.to_N (uint8_t x))) as [b | ] eqn:Hb.
  - apply Byte.to_of_N in Hb. rewrite Hb. lia.
  - apply Byte.of_N_None_iff in Hb. lia.
Qed.

Lemma uint8_t_small x : 0 <= x <= 255 -> uint8_t x = x.
Proof. intros Hx. unfold uint8_t, wrap. apply Z.mod_small. lia. Qed.

Lemma buffer_app_r (l1 l2 : list byte) a :
  0 <= a -> buffer (l1 ++ l2) (a + Z.of_nat (length l1)) = buffer l2 a.
Proof.
  intros Ha. unfold buffer.
  destruct (Z.ltb_spec (a + Z.of_nat (length l1)) 0) as [Hlt | _]; [lia | ].
  destruct (Z.ltb_spec a 0) as [Hlt | _]; [lia | ].
  rewrite app_nth2 by lia. f_equal. lia.
Qed.

(** X19.  [makeRtpOverTcpPrefix] returns the four bytes of the interleaved
    frame header: the dollar sign, the channel, and the size, which reads
    back as a 16-bit number in network order; a packet made of the prefix
    and the bytes of an RTP packet shows [getHeader] those bytes. *)
Theorem makeRtpOverTcpPrefix_frame (size interleaved : Z) (rtp : list byte) :
  let prefix := makeRtpOverTcpPrefix size interleaved in
  Z.of_nat (length prefix) = kRtpTcpHeaderSize
  /\ u8 (buffer prefix 0) = 36
  /\ u8 (buffer prefix 1) = uint8_t interleaved
  /\ AV_RB16 (buffer prefix) 2 = uint16_t size
  /\ forall a packet_size,
       0 <= a ->
       getHeader {| data := buffer (prefix ++ rtp); Rtp.size := packet_size |} a
       = buffer rtp a.
Proof.
  intros prefix. split; [reflexivity | ].
  split; [reflexivity | ].
  split.
  { unfold prefix, makeRtpOverTcpPrefix, buffer. simpl.
    rewrite u8_to_byte. unfold uint8_t, wrap. apply Z.mod_mod. lia. }
  split.
  { rewrite AV_RB16_value. unfold prefix, makeRtpOverTcpPrefix, buffer. simpl.
    rewrite !u8_to_byte.
    pose proof (uint16_t_range size) as Hs.
    rewrite Z.shiftr_div_pow2 by lia.
    change 255 with (2 ^ 8 - 1). rewrite !land_mask_mod by lia.
    change (2 ^ 8) with 256.
    rewrite !uint8_t_small by (Z.div_mod_to_equations; lia).
    Z.div_mod_to_equations. lia. }
  intros a packet_size Ha. unfold getHeader. cbn [data].
  change kRtpTcpHeaderSize with (Z.of_nat (length prefix)).
  now apply buffer_app_r.
Qed.

(** *** The regions of a packet *)

(** X20.  The pointers the header hands out follow one another: the CSRC
    list starts after the twelve fixed bytes, the extension data four bytes
    after the end of the CSRC list, and the payload where the extension data
    ends, or where the CSRC list ends when there is no extension. *)
Theorem header_regions_contiguous (h : RtpHeader) :
  (getCsrcData h = if Rtp.csrc h =? 0 then None else Some kRtpHeaderSize)
  /\ (getExtData h
      = if Rtp.ext h =? 0 then None else Some (kRtpHeaderSize + 4 * Rtp.csrc h + 4))
  /\ getPayloadData h
     = match getExtData h with
       | Some ext_data => ext_data + getExtSize h
       | None => kRtpHeaderSize + 4 * Rtp.csrc h
       end
  /\ kRtpHeaderSize <= getPayloadData h <= kRtpHeaderSize + 262204.
Proof.
  unfold getCsrcData, getExtData, getPayloadData, Rtp.payload, kRtpHeaderSize.
  pose proof (getPayloadOffset_range h) as Hoff.
  split; [reflexivity | ].
  split; [now rewrite getCsrcSize_value | ].
  split; [ | lia].
  rewrite getPayloadOffset_value, getExtSize_value, getCsrcSize_value.
  destruct (Rtp.ext h =? 0); lia.
Qed.

(** X30.  The two words before the extension data are the sub-header of the
    extension: [getExtReserved] is the first of them and [getExtSize] four
    times the second, both read with the high byte first; without the
    extension flag both are zero. *)
Theorem extension_sub_header (h : RtpHeader) :
  match getExtData h with
  | Some ext_data =>
      getExtReserved h = 256 * u8 (h (ext_data - 4)) + u8 (h (ext_data - 3))
      /\ getExtSize h = 4 * (256 * u8 (h (ext_data - 2)) + u8 (h (ext_data - 1)))
      /\ getExtSize h <= 262140
  | None => getExtReserved h = 0 /\ getExtSize h = 0
  end.
Proof.
  unfold getExtData, getExtReserved. rewrite getExtSize_value, getCsrcSize_value.
  destruct (Rtp.ext h =? 0); [split; reflexivity | ].
  pose proof (AV_RB16_range h (Rtp.payload + 4 * Rtp.csrc h)) as Hr.
  pose proof (AV_RB16_range h (Rtp.payload + 4 * Rtp.csrc h + 2)) as Hw.
  unfold Rtp.extLenWords.
  cbv zeta. unfold uint16_t, wrap. rewrite Z.mod_small by lia.
  rewrite !AV_RB16_value in *.
  replace (Rtp.payload + 4 * Rtp.csrc h + 4 - 4) with (Rtp.payload + 4 * Rtp.csrc h) by lia.
  replace (Rtp.payload + 4 * Rtp.csrc h + 4 - 3) with (Rtp.payload + 4 * Rtp.csrc h + 1) by lia.
  replace (Rtp.payload + 4 * Rtp.csrc h + 4 - 2) with (Rtp.payload + 4 * Rtp.csrc h + 2) by lia.
  replace (Rtp.payload + 4 * Rtp.csrc h + 4 - 1) with (Rtp.payload + 4 * Rtp.csrc h + 2 + 1) by lia.
  repeat split; lia.
Qed.

(** *** The accessors of a packet *)

(** X21.  For a packet of at least its prefix, [RtpPacket::getPayloadSize]
    is the number of payload bytes when the prefix, the header, the CSRC
    list, the extension and the padding fit into the packet, and the payload
    it then delimits from [getPayload] on ends where the padding starts,
    inside the packet; when they do not fit, the unsigned result is the
    negative difference taken modulo 2^64: a number of at least 2^63, not
    zero. *)
Theorem RtpPacket_getPayloadSize_unsigned (p : RtpPacket) :
  kRtpTcpHeaderSize <= Rtp.size p <= SSIZE_MAX ->
  let padding := getPaddingSize (getHeader p) (Rtp.size p - kRtpTcpHeaderSize) in
  let overhead :=
    kRtpTcpHeaderSize + kRtpHeaderSize + getPayloadOffset (getHeader p) + padding in
  (overhead <= Rtp.size p ->
   RtpPacket_getPayloadSize p = Rtp.size p - overhead
   /\ kRtpTcpHeaderSize + kRtpHeaderSize <= RtpPacket_getPayload p
   /\ RtpPacket_getPayload p + RtpPacket_getPayloadSize p + padding = Rtp.size p)
  /\ (Rtp.size p < overhead ->
      RtpPacket_getPayloadSize p = 2 ^ 64 + Rtp.size p - overhead
      /\ 2 ^ 63 <= RtpPacket_getPayloadSize p).
Proof.
  intros Hsize padding overhead. subst padding overhead.
  unfold RtpPacket_getPayload, getPayloadData, Rtp.payload.
  unfold kRtpTcpHeaderSize, kRtpHeaderSize in *.
  pose proof (getPayloadOffset_range (getHeader p)) as Hoff.
  pose proof (getPaddingSize_range (getHeader p) (Rtp.size p - 4)) as Hpad.
  unfold RtpPacket_getPayloadSize, kRtpTcpHeaderSize.
  rewrite (size_t_small (Rtp.size p - 4)) by (unfold SIZE_MAX, SSIZE_MAX in *; lia).
  rewrite getPayloadSize_exact by lia.
  unfold SSIZE_MAX in Hsize.
  split.
  - intros Hfit. rewrite size_t_small; [lia | unfold SIZE_MAX; lia].
  - intros Hover.
    assert (Hwrap : size_t (Rtp.size p - 4 - getPayloadOffset (getHeader p)
                            - getPaddingSize (getHeader p) (Rtp.size p - 4) - 12)
                    = 2 ^ 64 + Rtp.size p
                      - (4 + 12 + getPayloadOffset (getHeader p)
                         + getPaddingSize (getHeader p) (Rtp.size p - 4))).
    { unfold size_t, wrap. symmetry. apply Z.mod_unique with (q := -1); lia. }
    rewrite Hwrap. split; [reflexivity | lia].
Qed.

Section HostFacts.

Variable host : byte_order.

(** X22.  The sequence number, the time stamp and the source identifier of a
    packet are the bytes 2-3, 4-7 and 8-11 after the prefix, read in network
    order on either kind of host; [getSSRC] on the header, given twelve
    bytes or more, extracts the identifier the accessor gives. *)
Theorem RtpPacket_accessors_network_order (p : RtpPacket) :
  RtpPacket_getSeq host p = network_order16 (data p) (kRtpTcpHeaderSize + 2)
  /\ RtpPacket_getStamp host p = network_order32 (data p) (kRtpTcpHeaderSize + 4)
  /\ RtpPacket_getSSRC host p = network_order32 (data p) (kRtpTcpHeaderSize + 8)
  /\ forall data_len ssrc0,
       kRtpHeaderSize <= data_len ->
       getSSRC host (getHeader p) data_len ssrc0 = (true, RtpPacket_getSSRC host p).
Proof.
  unfold RtpPacket_getSeq, RtpPacket_getStamp, RtpPacket_getSSRC, seq, stamp, ssrc.
  rewrite ntohs_load16, !ntohl_load32.
  unfold network_order16, network_order32, getHeader, kRtpTcpHeaderSize, kRtpHeaderSize.
  split; [repeat f_equal; lia | ]. split; [repeat f_equal; lia | ].
  split; [repeat f_equal; lia | ].
  intros data_len ssrc0 Hlen. unfold getSSRC. rewrite ntohl_load32.
  destruct (Z.ltb_spec data_len 12) as [Hlt | _]; [lia | ].
  unfold network_order32. reflexivity.
Qed.

Lemma network_order32_range m a : 0 <= network_order32 m a < 2 ^ 32.
Proof.
  unfold network_order32.
  pose proof (u8_range (m a)). pose proof (u8_range (m (a + 1))).
  pose proof (u8_range (m (a + 2))). pose proof (u8_range (m (a + 3))). lia.
Qed.

(** X23.  With a sample rate that is not zero, the time stamp in
    milliseconds is the exact quotient: the product by 1000 stays below
    2^64. For a rate of 1000 it is the time stamp itself; with the NTP flag
    it is the NTP stamp. *)
Theorem RtpPacket_getStampMS_exact (ntp_stamp sample_rate : Z) (p : RtpPacket) :
  0 < sample_rate < 2 ^ 32 ->
  0 <= ntp_stamp < 2 ^ 64 ->
  RtpPacket_getStampMS host ntp_stamp sample_rate p false
  = Some (RtpPacket_getStamp host p * 1000 / sample_rate)
  /\ (sample_rate = 1000 ->
      RtpPacket_getStampMS host ntp_stamp sample_rate p false
      = Some (RtpPacket_getStamp host p))
  /\ RtpPacket_getStampMS host ntp_stamp sample_rate p true = Some ntp_stamp.
Proof.
  intros Hrate Hntp.
  assert (Hstamp : 0 <= RtpPacket_getStamp host p < 2 ^ 32).
  { unfold RtpPacket_getStamp, stamp. rewrite ntohl_load32.
    apply network_order32_range. }
  assert (Hms : RtpPacket_getStampMS host ntp_stamp sample_rate p false
                = Some (RtpPacket_getStamp host p * 1000 / sample_rate)).
  { unfold RtpPacket_getStampMS, uint64_t, wrap.
    rewrite (Z.mod_small sample_rate) by lia.
    rewrite (Z.mod_small 1000) by lia.
    rewrite (Z.mod_small (_ * 1000)) by lia.
    destruct (Z.eqb_spec sample_rate 0) as [Hz | _]; [lia | reflexivity]. }
  split; [exact Hms | ]. split.
  - intros ->. rewrite Hms. f_equal. apply Z.div_mul. lia.
  - unfold RtpPacket_getStampMS, uint64_t, wrap. f_equal. apply Z.mod_small. lia.
Qed.

End HostFacts.

(** ** The pool and the sockets *)

Import Sock.

(** X24.  The constructor with its [assert] refuses a range of fewer than 36
    ports, and only such a range; the pool it builds holds [max/2 -
    (min+1)/2] pair indices, none if that is negative, and so at least 17
    when the [assert] is compiled in; from a pool without an index
    [getPortPair] returns nothing. *)
Theorem PortManager_new_size (NDEBUG : bool) (kPortRange : string) (rng : nat -> Z) :
  let minPort := func kPortRange 0 in
  let maxPort := func kPortRange 1 in
  (PortManager_new NDEBUG kPortRange rng = None
   <-> NDEBUG = false /\ maxPort < minPort + 35)
  /\ forall pm,
       PortManager_new NDEBUG kPortRange rng = Some pm ->
       Z.of_nat (length (_port_pair_pool pm))
       = Z.max 0 (maxPort / 2 - (minPort + 1) / 2)
       /\ (NDEBUG = false -> (17 <= length (_port_pair_pool pm))%nat)
       /\ (maxPort / 2 <= (minPort + 1) / 2 -> getPortPair pm = None).
Proof.
  intros minPort maxPort. split.
  - unfold PortManager_new. fold minPort maxPort.
    destruct NDEBUG; simpl.
    + split; [discriminate | intros [Hf _]; discriminate].
    + destruct (Z.geb_spec maxPort (minPort + 36 - 1)) as [Hge | Hlt]; simpl.
      * split; [discriminate | intros [_ Hlt]; lia].
      * split; [intros _; split; [reflexivity | lia] | reflexivity].
  - intros pm Hnew.
    pose proof (PortManager_new_pool _ _ _ _ Hnew) as Hpool.
    fold minPort maxPort in Hpool.
    assert (Hlen : Z.of_nat (length (_port_pair_pool pm))
                   = Z.max 0 (maxPort / 2 - (minPort + 1) / 2)).
    { rewrite Hpool, length_seqZ. lia. }
    split; [exact Hlen | ]. split.
    + intros ->. unfold PortManager_new in Hnew. fold minPort maxPort in Hnew.
      simpl in Hnew.
      destruct (Z.geb_spec maxPort (minPort + 36 - 1)) as [Hge | Hlt];
        simpl in Hnew; [ | discriminate].
      assert (17 <= maxPort / 2 - (minPort + 1) / 2) by (Z.div_mod_to_equations; lia).
      lia.
    + intros Hempty. unfold getPortPair.
      destruct (_port_pair_pool pm); [reflexivity | simpl in Hlen; lia].
Qed.

Section SocketFacts.

Context {OS : Type}.
Variable bindUdpSock : socket -> Z -> string -> bool -> OS -> OS * bool.
Variable listen : socket -> Z -> string -> OS -> OS * bool.

#[local] Abbreviation makeSockPair_l := (makeSockPair_l bindUdpSock listen).
#[local] Abbreviation PortManager_makeSockPair :=
  (PortManager_makeSockPair bindUdpSock listen).

(** X25.  One call of [PortManager::makeSockPair] loses no pair index and
    makes none up: the indices of the pool after the call, with the one the
    caller's sockets own, are those of the pool before it. On an empty pool
    it throws "none reserved port in pool" and touches no socket. On a pool
    with front index [pos]: either the caller's sockets own [pos] and the
    pool is left without it -- so whenever nothing is thrown --, or the bind
    of the requested protocol failed, an exception is thrown and [pos] is
    back in the pool, behind every other index. *)
Theorem PortManager_makeSockPair_conserves (pm : PortManager) (local_ip : string)
    (re_use_port is_udp : bool) (os : OS) :
  let r := PortManager_makeSockPair pm local_ip re_use_port is_udp os in
  _port_pair_pool (pool_after r) ++ option_list (owned r) ≡ₚ _port_pair_pool pm
  /\ (_port_pair_pool pm = [] ->
      r = {| os_after := os; pool_after := pm;
             thrown := Some "none reserved port in pool"%string; owned := None |})
  /\ (forall pos rest,
        _port_pair_pool pm = pos :: rest ->
        owned r = Some pos /\ _port_pair_pool (pool_after r) = rest
        \/ owned r = None /\ thrown r <> None
           /\ _port_pair_pool (pool_after r) = rest ++ [pos])
  /\ (thrown r = None -> owned r <> None).
Proof.
  intros r. subst r. unfold Sock.PortManager_makeSockPair, getPortPair.
  destruct (_port_pair_pool pm) as [ | pos rest] eqn:Hpool.
  - simpl. rewrite Hpool. split; [reflexivity | ]. split; [reflexivity | ].
    split; [discriminate | discriminate].
  - destruct (makeSockPair_l pos pair_first pair_second local_ip re_use_port is_udp os)
      as [os1 [what | ]].
    + simpl. split; [now rewrite app_nil_r, Permutation_app_comm | ].
      split; [discriminate | ]. split; [ | discriminate].
      intros pos' rest' [= <- <-]. right. repeat split. discriminate.
    + destruct (makeSockPair_l pos new_pair_first new_pair_second local_ip re_use_port
                  (negb is_udp) os1) as [os2 what].
      simpl. split; [now rewrite Permutation_app_comm | ].
      split; [discriminate | ]. split; [ | discriminate].
      intros pos' rest' [= <- <-]. left. now split.
Qed.

End SocketFacts.

(** ** Numbers, written and read *)

Lemma read_digits_stop acc rest :
  starts_with_digit rest = false -> read_digits acc rest = (acc, rest).
Proof.
  destruct rest as [ | c rest]; [reflexivity | ].
  cbn [starts_with_digit read_digits]. now intros ->.
Qed.

Lemma read_digits_uint d acc rest :
  starts_with_digit rest = false ->
  read_digits acc (NilEmpty.string_of_uint d +:+ rest) = (digits_value acc d, rest).
Proof.
  intros Hrest. revert acc.
  induction d as [ | d IH | d IH | d IH | d IH | d IH | d IH | d IH | d IH | d IH | d IH];
    intros acc;
    [ now apply read_digits_stop | .. ];
    cbn [NilEmpty.string_of_uint digits_value]; rewrite append_cons;
    cbn [read_digits]; change (isdigit _) with true; cbv iota;
    rewrite <- IH; reflexivity.
Qed.

Lemma digits_value_acc d acc :
  Z.pos (Pos.of_uint_acc d acc) = digits_value (Z.pos acc) d.
Proof.
  revert acc.
  induction d as [ | d IH | d IH | d IH | d IH | d IH | d IH | d IH | d IH | d IH | d IH];
    intros acc; cbn [Pos.of_uint_acc digits_value];
    [ reflexivity | rewrite IH; f_equal; lia .. ].
Qed.

Lemma digits_value_of_uint d : Z.of_N (Pos.of_uint d) = digits_value 0 d.
Proof.
  induction d as [ | d IH | d IH | d IH | d IH | d IH | d IH | d IH | d IH | d IH | d IH];
    cbn [Pos.of_uint digits_value];
    [ reflexivity | exact IH | cbn [Z.of_N]; rewrite digits_value_acc; reflexivity .. ].
Qed.

Lemma digits_value_to_uint p : digits_value 0 (Pos.to_uint p) = Z.pos p.
Proof. now rewrite <- digits_value_of_uint, DecimalPos.Unsigned.of_to. Qed.

Lemma string_of_uint_first d :
  d <> Decimal.Nil ->
  exists c s, NilEmpty.string_of_uint d = String c s
              /\ isdigit c = true /\ isspace c = false
              /\ Ascii.eqb c "-" = false /\ Ascii.eqb c "+" = false.
Proof.
  destruct d; [congruence | ..]; intros _; eexists _, _; repeat split.
Qed.

Lemma read_number_uint d rest :
  d <> Decimal.Nil ->
  starts_with_digit rest = false ->
  read_number (NilEmpty.string_of_uint d +:+ rest) = Some (false, digits_value 0 d, rest).
Proof.
  intros Hd Hrest.
  pose proof (read_digits_uint d 0 rest Hrest) as Hdigits.
  destruct (string_of_uint_first d Hd) as (c & s & Hs & Hdig & Hsp & Hminus & Hplus).
  rewrite Hs in *. rewrite append_cons in *.
  unfold read_number. cbn [skip_space]. rewrite Hsp, Hminus, Hplus, Hdig.
  now rewrite Hdigits.
Qed.

(** A number that is not negative, written in decimal and followed by
    something that is no digit, is read back by a decimal conversion. *)
Lemma read_number_print_int n rest :
  0 <= n ->
  starts_with_digit rest = false ->
  read_number (print_int n +:+ rest) = Some (false, n, rest).
Proof.
  intros Hn Hrest. unfold print_int.
  destruct n as [ | p | p]; [ | | lia].
  - cbn [Z.to_int NilEmpty.string_of_int].
    now rewrite read_number_uint by (assumption || discriminate).
  - cbn [Z.to_int NilEmpty.string_of_int].
    rewrite read_number_uint by (assumption || apply Unsigned.to_uint_nonnil).
    now rewrite digits_value_to_uint.
Qed.

Lemma conv_d_small n : 0 <= n < 2 ^ 31 -> conv_d false n = n.
Proof.
  intros Hn. unfold conv_d, LONG_MAX, int, to_signed, wrap.
  rewrite Z.min_l by lia.
  rewrite Z.mod_small by lia.
  destruct (Z.ltb_spec n (2 ^ (32 - 1))) as [_ | Hge]; [reflexivity | ].
  change (2 ^ (32 - 1)) with (2 ^ 31) in Hge. lia.
Qed.

Lemma has_char_uint c d :
  isdigit c = false -> has_char c (NilEmpty.string_of_uint d) = false.
Proof.
  intros Hc.
  induction d as [ | d IH | d IH | d IH | d IH | d IH | d IH | d IH | d IH | d IH | d IH];
    [ reflexivity | .. ];
    cbn [NilEmpty.string_of_uint has_char]; rewrite IH, orb_false_r;
    apply Ascii.eqb_neq; intros ->; discriminate.
Qed.

Lemma has_char_print_int c n :
  0 <= n -> isdigit c = false -> has_char c (print_int n) = false.
Proof.
  intros Hn Hc. unfold print_int.
  destruct n as [ | p | p]; [ | | lia]; cbn [Z.to_int NilEmpty.string_of_int];
    now apply has_char_uint.
Qed.

(** ** The [rtpmap] line of [DefaultSdp], written and read *)

Import Builder.

Lemma skip_space_token tok rest :
  match tok with String c _ => isspace c = false | EmptyString => False end ->
  skip_space (tok +:+ rest) = tok +:+ rest.
Proof.
  destruct tok as [ | c tok]; [contradiction | ].
  rewrite append_cons. cbn [skip_space]. now intros ->.
Qed.

Lemma read_scanset_token w stop tok rest :
  has_char stop tok = false ->
  (String.length tok <= w)%nat ->
  match rest with String c _ => c = stop | EmptyString => True end ->
  read_scanset w stop (tok +:+ rest) = (tok, rest).
Proof.
  intros Hstop Hlen Hrest. revert w Hlen.
  induction tok as [ | c tok IH]; intros w Hlen.
  - change ("" +:+ rest) with rest.
    destruct w as [ | w]; destruct rest as [ | c rest]; try reflexivity.
    cbn [read_scanset]. subst c. now rewrite Ascii.eqb_refl.
  - cbn [has_char String.length] in *.
    destruct w as [ | w]; [lia | ].
    rewrite append_cons. cbn [read_scanset].
    rewrite Ascii.eqb_sym.
    destruct (Ascii.eqb stop c); [discriminate | ].
    cbn [orb] in Hstop. rewrite (IH Hstop) by lia. reflexivity.
Qed.

Lemma scan_token_facts stop s :
  scan_token stop s = true ->
  s <> ""%string
  /\ match s with String c _ => isspace c = false | EmptyString => False end
  /\ (String.length s <= 15)%nat
  /\ has_char stop s = false
  /\ has_char zero s = false.
Proof.
  unfold scan_token. destruct s as [ | c s]; [discriminate | ].
  intros Htok. apply andb_true_iff in Htok as [Htok Hnul].
  apply andb_true_iff in Htok as [Htok Hslash].
  apply andb_true_iff in Htok as [Hsp Hlen].
  apply negb_true_iff in Hnul, Hslash, Hsp. apply Nat.leb_le in Hlen.
  repeat split; try assumption. discriminate.
Qed.

(** The steps of a scan over a text made of a number, a token, and what
    follows. *)
Lemma run_number n rest fmt :
  0 <= n < 2 ^ 31 ->
  starts_with_digit rest = false ->
  run (D_d :: fmt) (print_int n +:+ rest) = V_int n :: run fmt rest.
Proof.
  intros Hn Hrest. cbn [run].
  rewrite read_number_print_int by (assumption || lia).
  now rewrite conv_d_small.
Qed.

Lemma run_char c s fmt : run (D_char c :: fmt) (String c s) = run fmt s.
Proof. cbn [run]. now rewrite Ascii.eqb_refl. Qed.

Lemma run_space s fmt : run (D_space :: fmt) s = run fmt (skip_space s).
Proof. reflexivity. Qed.

Lemma skip_space_blank s : skip_space (String " " s) = skip_space s.
Proof. reflexivity. Qed.

Lemma run_token w stop tok rest fmt :
  tok <> ""%string ->
  has_char stop tok = false ->
  (String.length tok <= w)%nat ->
  match rest with String c _ => c = stop | EmptyString => True end ->
  run (D_notin w stop :: fmt) (tok +:+ rest) = V_str tok :: run fmt rest.
Proof.
  intros Hne Hstop Hlen Hrest. cbn [run].
  rewrite read_scanset_token by assumption.
  destruct tok; [congruence | reflexivity].
Qed.

Lemma rtpmap_value_no_nul pt codec rate channels :
  0 <= pt -> 0 <= rate ->
  match channels with Some n => 0 <= n | None => True end ->
  has_char zero codec = false ->
  has_char zero (rtpmap_value pt codec rate channels) = false.
Proof.
  intros Hpt Hrate Hch Hcodec. unfold rtpmap_value.
  rewrite !has_char_append, Hcodec.
  rewrite !has_char_print_int by (assumption || reflexivity).
  destruct channels as [n | ]; [ | reflexivity].
  rewrite has_char_append, has_char_print_int by (assumption || reflexivity).
  reflexivity.
Qed.

(** What the two patterns of the [rtpmap] loop make of such a value. *)
Lemma scan_rtpmap_value pt codec rate channels :
  0 <= pt < 2 ^ 31 -> 0 <= rate < 2 ^ 31 ->
  match channels with Some n => 0 <= n < 2 ^ 31 | None => True end ->
  codec_token codec = true ->
  let value := rtpmap_value pt codec rate channels in
  sscanf value fmt_pt = [V_int pt]
  /\ sscanf value fmt_rtpmap = [V_int pt; V_str codec; V_int rate]
  /\ sscanf value fmt_rtpmap_channels
     = [V_int pt; V_str codec; V_int rate]
       ++ match channels with Some n => [V_int n] | None => [] end.
Proof.
  intros Hpt Hrate Hch Htok value. subst value.
  destruct (scan_token_facts "/" codec Htok) as (Hne & Hsp & Hlen & Hslash & Hnul).
  unfold sscanf. rewrite c_str_no_nul.
  2:{ apply rtpmap_value_no_nul; try lia; [ | assumption].
      destruct channels; [lia | exact I]. }
  unfold rtpmap_value, fmt_pt, fmt_rtpmap, fmt_rtpmap_channels.
  assert (Hhead : forall fmt tail,
             run (D_d :: D_space :: D_notin 15 "/" :: D_char "/" :: D_d :: fmt)
               (print_int pt +:+ " " +:+ codec +:+ "/" +:+ print_int rate +:+ tail)
             = V_int pt :: V_str codec
               :: run (D_d :: fmt) (print_int rate +:+ tail)).
  { intros fmt tail. rewrite run_number by (assumption || reflexivity).
    f_equal. change (" " +:+ ?x) with (String " " x).
    rewrite run_space, skip_space_blank, skip_space_token by assumption.
    rewrite run_token by (assumption || reflexivity). f_equal. }
  split; [ | split].
  - rewrite run_number by (assumption || reflexivity). reflexivity.
  - rewrite Hhead. do 2 f_equal.
    destruct channels as [n | ].
    + rewrite run_number by (assumption || reflexivity). reflexivity.
    + rewrite run_number by (assumption || reflexivity). reflexivity.
  - rewrite Hhead. do 2 f_equal.
    destruct channels as [n | ].
    + rewrite run_number by (assumption || reflexivity). f_equal.
      change ("/" +:+ print_int n) with (String "/" (print_int n)).
      rewrite run_char, <- (append_nil_r (print_int n)).
      rewrite run_number by (assumption || reflexivity). reflexivity.
    + rewrite run_number by (assumption || reflexivity). reflexivity.
Qed.

Lemma skip_space_print_int n rest :
  0 <= n -> skip_space (print_int n +:+ rest) = print_int n +:+ rest.
Proof.
  intros Hn. unfold print_int.
  assert (Hd : forall d, d <> Decimal.Nil ->
               skip_space (NilEmpty.string_of_uint d +:+ rest)
               = NilEmpty.string_of_uint d +:+ rest).
  { intros d Hd.
    destruct (string_of_uint_first d Hd) as (c & s & -> & _ & Hsp & _).
    rewrite append_cons. cbn [skip_space]. now rewrite Hsp. }
  destruct n as [ | p | p]; [ | | lia]; cbn [Z.to_int NilEmpty.string_of_int].
  - now apply Hd.
  - apply Hd, Unsigned.to_uint_nonnil.
Qed.

(** What the first pattern of a media line makes of such a body. *)
Lemma scan_media_value type port pt :
  0 <= port < 2 ^ 31 -> 0 <= pt < 2 ^ 31 -> type_token type = true ->
  scan_media (media_value type port pt) = Some (type, port, pt).
Proof.
  intros Hport Hpt Htok.
  destruct (scan_token_facts " " type Htok) as (Hne & Hsp & Hlen & Hblank & Hnul).
  unfold scan_media, sscanf, media_value. rewrite c_str_no_nul.
  2:{ rewrite !has_char_append, Hnul.
      rewrite !has_char_print_int by (lia || reflexivity). reflexivity. }
  unfold fmt_media.
  rewrite run_space, skip_space_token by assumption.
  rewrite run_token by (assumption || reflexivity).
  change (" " +:+ print_int port +:+ " RTP/AVP " +:+ print_int pt)
    with (String " " (print_int port +:+ String " " ("RTP/AVP" +:+ String " " (print_int pt)))).
  rewrite run_space, skip_space_blank, skip_space_print_int by lia.
  rewrite run_number by (lia || reflexivity).
  rewrite run_space, skip_space_blank.
  rewrite (skip_space_token "RTP/AVP") by reflexivity.
  rewrite run_token by (reflexivity || discriminate || (simpl; lia)).
  rewrite run_space, skip_space_blank.
  rewrite <- (append_nil_r (print_int pt)), skip_space_print_int by lia.
  rewrite run_number by (assumption || reflexivity).
  reflexivity.
Qed.

Section DefaultSdpFacts.

Context {CodecId : Type} `{Countable CodecId}.
Context {T : Type} `{!Track (CodecId := CodecId) T}.
Variable getTrackTypeStr : T -> string.
Variable getBitRate : T -> Z.
Variable getCodecName : T -> string.
Variable indeterminate : Z.
Variable trim : string -> string.
Variable RTP_PT_MAP : list (pt_entry (CodecId := CodecId)).

#[local] Abbreviation DefaultSdp := (DefaultSdp getTrackTypeStr getBitRate getCodecName).
#[local] Abbreviation load_line := (load_line trim RTP_PT_MAP).

(** X27.  The first line of [DefaultSdp] is a media line that [load] reads
    back: it opens a track of the kind the type text names, with port 0, the
    payload type, and the clock rate and the channel count the table has for
    that payload type. *)
Theorem DefaultSdp_media_line_read_back (payload_type : Z) (track : T)
    (st : load_state) (raw : string) :
  0 <= payload_type < 2 ^ 31 ->
  type_token (getTrackTypeStr track) = true ->
  trim raw = "m=" +:+ media_value (getTrackTypeStr track) 0 payload_type ->
  (exists tail,
      DefaultSdp payload_type track
      = "m=" +:+ media_value (getTrackTypeStr track) 0 payload_type +:+ CRLF +:+ tail)
  /\ load_line st raw
     = {| pushed := track_vec st;
          track :=
            set_port 0
              (set_type (toTrackType (getTrackTypeStr track))
                 (set_channel (RtpPayload_getAudioChannel RTP_PT_MAP payload_type)
                    (set_samplerate (RtpPayload_getClockRate RTP_PT_MAP payload_type)
                       (set_pt payload_type SdpTrack_new))));
          track_in_vec := true |}.
Proof.
  intros Hpt Htok Htrim. split.
  - unfold Builder.DefaultSdp, media_value.
    destruct (negb (Z.shiftr (getBitRate track) 10 =? 0));
      destruct (payload_type <? 96);
      destruct (TrackType_eqb (getTrackType track) TrackAudio);
      eexists; rewrite ?append_assoc; try reflexivity;
      rewrite <- (append_nil_r CRLF) at 1; reflexivity.
  - unfold Sdp.load_line. rewrite Htrim.
    change ("m=" +:+ ?x) with (String "m" (String "=" x)). cbv iota.
    change (Ascii.eqb "=" "=") with true. change (Ascii.eqb "m" "t") with false.
    change (Ascii.eqb "m" "b") with false. change (Ascii.eqb "m" "m") with true.
    cbv iota. cbn [negb].
    now rewrite scan_media_value by (assumption || lia).
Qed.

Lemma rtpmap_body_value tr pt codec rate channels :
  0 <= pt < 2 ^ 31 -> 0 <= rate < 2 ^ 31 ->
  match channels with Some n => 0 <= n < 2 ^ 31 | None => True end ->
  codec_token codec = true ->
  _pt tr = pt ->
  rtpmap_body indeterminate tr (rtpmap_value pt codec rate channels)
  = (match channels with
     | Some n => set_channel n (set_samplerate rate (set_codec codec tr))
     | None => set_samplerate rate (set_codec codec (set_pt pt tr))
     end, false).
Proof.
  intros Hpt Hrate Hch Htok Htr.
  destruct (scan_rtpmap_value pt codec rate channels Hpt Hrate Hch Htok)
    as (Hlead & Hthree & Hfour).
  unfold rtpmap_body, pt_mismatch, scanned_pt, leading_pt.
  rewrite Hlead, Hfour, Hthree, Htr, Z.eqb_refl. simpl.
  destruct channels; reflexivity.
Qed.

(** X26.  For a dynamic payload type, [DefaultSdp] ends its text with an
    [rtpmap] line that the [rtpmap] loop of [load] reads back, on a track of
    that payload type, into the codec name and the sample rate, and for an
    audio track the channel count. The sample rate written and read back for
    a video track is 9000. *)
Theorem DefaultSdp_rtpmap_read_back (payload_type : Z) (track : T) (tr : SdpTrack) :
  96 <= payload_type < 2 ^ 31 ->
  codec_token (getCodecName track) = true ->
  0 <= getAudioSampleRate track < 2 ^ 31 ->
  0 <= getAudioChannel track < 2 ^ 31 ->
  _pt tr = payload_type ->
  let rate :=
    if TrackType_eqb (getTrackType track) TrackVideo then 9000
    else getAudioSampleRate track in
  let channels :=
    if TrackType_eqb (getTrackType track) TrackAudio then Some (getAudioChannel track)
    else None in
  let rtpmap := rtpmap_value payload_type (getCodecName track) rate channels in
  (exists head, DefaultSdp payload_type track = head +:+ "a=rtpmap:" +:+ rtpmap +:+ CRLF)
  /\ rtpmap_body indeterminate tr rtpmap
     = (match channels with
        | Some n =>
            set_channel n (set_samplerate rate (set_codec (getCodecName track) tr))
        | None =>
            set_samplerate rate
              (set_codec (getCodecName track) (set_pt payload_type tr))
        end, false).
Proof.
  intros Hpt Htok Hrate Hch Htr rate channels rtpmap.
  assert (Hr : 0 <= rate < 2 ^ 31).
  { subst rate. destruct (TrackType_eqb _ TrackVideo); lia. }
  split.
  - unfold Builder.DefaultSdp. fold rate.
    assert (Hsmall : Wire.uint32_t rate = rate).
    { unfold Wire.uint32_t, wrap. apply Z.mod_small. lia. }
    rewrite Hsmall.
    destruct (Z.ltb_spec payload_type 96) as [Hlt | _]; [lia | ].
    match goal with
    | |- context [if negb ?b then ?x else ?y] => exists (if negb b then x else y)
    end.
    subst rtpmap channels. unfold rtpmap_value.
    destruct (TrackType_eqb (getTrackType track) TrackAudio);
      rewrite ?append_assoc, ?append_nil_r; reflexivity.
  - apply rtpmap_body_value; try assumption; try lia.
    subst channels. destruct (TrackType_eqb _ TrackAudio); [lia | exact I].
Qed.

End DefaultSdpFacts.

(** ** A track, written and read *)

Lemma le_ltb_false k' k : String.le k' k -> String.ltb k k' = false.
Proof.
  unfold String.le, String.leb, String.ltb. rewrite (String.compare_antisym k k').
  destruct (String.compare k' k); simpl; intros Hle;
    [reflexivity | reflexivity | contradiction].
Qed.

Lemma le_ne_ltb k k' : String.le k k' -> k <> k' -> String.ltb k k' = true.
Proof.
  unfold String.le, String.leb, String.ltb. intros Hle Hne.
  destruct (String.compare k k') eqn:Hc; [ | reflexivity | contradiction].
  apply String.compare_eq_iff in Hc. contradiction.
Qed.

Lemma mm_emplace_end k v m :
  Forall (fun k' => String.le k' k) (keys m) -> mm_emplace k v m = m ++ [(k, v)].
Proof.
  unfold keys. induction m as [ | [k' v'] m IH]; intros Hm; [reflexivity | ].
  simpl in Hm. apply Forall_cons in Hm as [Hk Hm].
  cbn [mm_emplace]. rewrite (le_ltb_false k' k Hk). simpl. now rewrite IH.
Qed.

Lemma mm_emplace_middle k v m1 m2 :
  Forall (fun k' => String.le k' k) (keys m1) ->
  Forall (fun k' => String.ltb k k' = true) (keys m2) ->
  mm_emplace k v (m1 ++ m2) = m1 ++ (k, v) :: m2.
Proof.
  unfold keys. intros Hm1 Hm2. induction m1 as [ | [k' v'] m1 IH].
  - simpl. destruct m2 as [ | [k' v'] m2]; [reflexivity | ].
    simpl in Hm2. apply Forall_cons in Hm2 as [Hk _].
    cbn [mm_emplace]. now rewrite Hk.
  - simpl in Hm1. apply Forall_cons in Hm1 as [Hk Hm1].
    simpl. rewrite (le_ltb_false k' k Hk). now rewrite IH.
Qed.

Lemma sorted_around {A : Type} (R : A -> A -> Prop) (l1 : list A) (x : A) (l2 : list A) :
  StronglySorted R (l1 ++ x :: l2) -> Forall (fun y => R y x) l1 /\ Forall (R x) l2.
Proof.
  induction l1 as [ | y l1 IH]; intros Hs.
  - simpl in Hs. apply StronglySorted_inv in Hs as [_ Hx]. split; [constructor | exact Hx].
  - simpl in Hs. apply StronglySorted_inv in Hs as [Hs Hy].
    destruct (IH Hs) as [Hl1 Hl2]. split; [ | exact Hl2].
    constructor; [ | exact Hl1].
    rewrite List.Forall_forall in Hy. apply Hy. apply in_or_app. right. now left.
Qed.

(** Entries emplaced in the order of their names come out in that order. *)
Lemma emplace_in_order l m0 :
  mm_sorted (m0 ++ l) ->
  fold_left (fun m pr => mm_emplace pr.1 pr.2 m) l m0 = m0 ++ l.
Proof.
  revert m0. induction l as [ | [k v] l IH]; intros m0 Hs.
  - simpl. now rewrite app_nil_r.
  - cbn [fold_left fst snd]. rewrite mm_emplace_end.
    + rewrite IH; rewrite <- app_assoc; [reflexivity | exact Hs].
    + unfold mm_sorted, keys in Hs. rewrite map_app in Hs. simpl in Hs.
      now apply sorted_around in Hs.
Qed.

Lemma filter_control_absent l :
  "control"%string ∉ keys l ->
  List.filter is_control l = []
  /\ List.filter (fun pr => negb (is_control pr)) l = l.
Proof.
  induction l as [ | [k v] l IH]; intros Hl; [split; reflexivity | ].
  unfold keys in Hl. simpl in Hl. apply not_elem_of_cons in Hl as [Hk Hl].
  destruct (IH Hl) as [E1 E2].
  assert (Hf : is_control (k, v) = false).
  { apply String.eqb_neq. intros Heq. apply Hk. symmetry. exact Heq. }
  cbn [List.filter]. rewrite Hf. cbn [negb]. now rewrite E1, E2.
Qed.

Lemma filter_control_run vs :
  List.filter is_control (map (pair "control"%string) vs) = map (pair "control"%string) vs
  /\ List.filter (fun pr => negb (is_control pr)) (map (pair "control"%string) vs) = [].
Proof.
  induction vs as [ | v vs [E1 E2]]; [split; reflexivity | ].
  cbn [map List.filter]. change (is_control ("control"%string, v)) with true.
  cbn [negb]. now rewrite E1, E2.
Qed.

(** The attributes [getAttrSdp] writes, emplaced in the order it writes
    them, give back a multimap with at most one [control] entry. *)
Lemma written_attrs_emplaced m :
  mm_sorted m -> (length (entries_of "control" m) <= 1)%nat ->
  fold_left (fun m pr => mm_emplace pr.1 pr.2 m) (written_attrs m) [] = m.
Proof.
  intros Hs Hone.
  destruct (mm_sorted_run "control" m Hs) as (before & vs & after & -> & Hb & Ha).
  destruct (filter_control_absent before Hb) as [Hb1 Hb2].
  destruct (filter_control_absent after Ha) as [Ha1 Ha2].
  destruct (filter_control_run vs) as [Hv1 Hv2].
  change (entries_of "control" ?x) with (List.filter is_control x) in Hone.
  unfold written_attrs.
  rewrite !List.filter_app, Hb1, Hb2, Ha1, Ha2, Hv1, Hv2 in *.
  rewrite app_nil_r in *. cbn [app] in *.
  destruct vs as [ | v [ | v' vs]]; cbn [map app length] in *; [ | | lia].
  - rewrite app_nil_r. now apply (emplace_in_order _ []).
  - rewrite fold_left_app. cbn [fold_left fst snd].
    rewrite (emplace_in_order _ []).
    2:{ apply (mm_sorted_sublist _ (before ++ ("control"%string, v) :: after));
          [ | exact Hs].
        clear. induction before as [ | pr before IH]; [ | now apply sublist_skip].
        apply sublist_cons. induction after; now constructor. }
    cbn [app].
    unfold mm_sorted, keys in Hs. rewrite map_app in Hs. cbn [map fst] in Hs.
    apply sorted_around in Hs as [Hl Hr].
    apply mm_emplace_middle; [exact Hl | ].
    unfold keys. rewrite List.Forall_forall in Hr |- *.
    intros k' Hin. apply le_ne_ltb; [now apply Hr | ].
    intros <-. apply Ha. now apply list_elem_of_In.
Qed.

Lemma lines_app l1 l2 : lines (l1 ++ l2) = lines l1 +:+ lines l2.
Proof.
  induction l1 as [ | x l1 IH]; [reflexivity | ].
  cbn [app lines]. now rewrite IH, append_assoc.
Qed.

Lemma attr_line_text pr : is_control pr = false -> attr_line pr = attr_text pr +:+ CRLF.
Proof.
  unfold is_control, attr_line, attr_text, attr_body. intros ->.
  destruct (String.eqb pr.2 ""); now rewrite !append_assoc.
Qed.

Lemma control_line_text pr : is_control pr = true -> control_line pr = attr_text pr +:+ CRLF.
Proof.
  unfold is_control, control_line, attr_text, attr_body. intros ->.
  now rewrite !append_assoc.
Qed.

Lemma written_attrs_lines attr :
  lines (map attr_line (List.filter (fun pr => negb (is_control pr)) attr))
  +:+ match last (List.filter is_control attr) with
      | Some pr => control_line pr
      | None => ""
      end
  = lines (map (fun line => line +:+ CRLF) (map attr_text (written_attrs attr))).
Proof.
  unfold written_attrs. rewrite !map_app, lines_app. f_equal.
  - induction attr as [ | pr attr IH]; [reflexivity | ].
    cbn [List.filter]. destruct (is_control pr) eqn:Hc; cbn [negb]; [exact IH | ].
    cbn [map lines]. now rewrite IH, attr_line_text.
  - destruct (last (List.filter is_control attr)) as [pr | ] eqn:Hlast; [ | reflexivity].
    cbn [map lines]. rewrite append_nil_r. apply control_line_text.
    apply last_Some in Hlast as [l' Hl'].
    assert (Hin : In pr (List.filter is_control attr)).
    { rewrite Hl'. apply in_or_app. right. now left. }
    now apply filter_In in Hin as [_ Hc].
Qed.

Lemma written_attrs_valid attr :
  Forall (fun pr => attr_valid pr = true) attr ->
  Forall (fun pr => attr_valid pr = true) (written_attrs attr).
Proof.
  rewrite !List.Forall_forall. intros Hall pr Hin. apply Hall.
  unfold written_attrs in Hin. apply in_app_or in Hin as [Hin | Hin].
  - now apply filter_In in Hin as [Hin _].
  - destruct (last (List.filter is_control attr)) as [pr' | ] eqn:Hlast; [ | contradiction].
    destruct Hin as [<- | []].
    apply last_Some in Hlast as [l' Hl'].
    assert (Hin : In pr' (List.filter is_control attr)).
    { rewrite Hl'. apply in_or_app. right. now left. }
    now apply filter_In in Hin as [Hin _].
Qed.

Section TrackLines.

Context {CodecId : Type} `{Countable CodecId}.
Variable trim : string -> string.
Variable RTP_PT_MAP : list (pt_entry (CodecId := CodecId)).

#[local] Abbreviation load_line := (load_line trim RTP_PT_MAP).

Lemma load_line_media_value st raw type port pt :
  0 <= port < 2 ^ 16 -> 0 <= pt < 2 ^ 31 -> type_token type = true ->
  trim raw = "m=" +:+ media_value type port pt ->
  load_line st raw
  = {| pushed := track_vec st;
       track :=
         set_port port
           (set_type (toTrackType type)
              (set_channel (RtpPayload_getAudioChannel RTP_PT_MAP pt)
                 (set_samplerate (RtpPayload_getClockRate RTP_PT_MAP pt)
                    (set_pt pt SdpTrack_new))));
       track_in_vec := true |}.
Proof.
  intros Hport Hpt Htok Htrim.
  unfold Sdp.load_line. rewrite Htrim.
  change ("m=" +:+ ?x) with (String "m" (String "=" x)). cbv iota.
  change (Ascii.eqb "=" "=") with true. change (Ascii.eqb "m" "t") with false.
  change (Ascii.eqb "m" "b") with false. change (Ascii.eqb "m" "m") with true.
  cbv iota. cbn [negb].
  rewrite scan_media_value by (assumption || lia).
  unfold uint16_t, wrap. now rewrite Z.mod_small by lia.
Qed.

Lemma load_line_bandwidth st raw b :
  trim raw = "b=" +:+ b -> load_line st raw = on_track (set_b b) st.
Proof. intros Htrim. unfold Sdp.load_line. now rewrite Htrim. Qed.

Lemma fold_attr_lines l :
  forall raws st,
    Forall (fun pr => attr_valid pr = true) l ->
    map trim raws = map attr_text l ->
    fold_left load_line raws st
    = on_track
        (fun tr =>
           set_attr (fold_left (fun m pr => mm_emplace pr.1 pr.2 m) l (_attr tr)) tr) st.
Proof.
  induction l as [ | [k v] l IH]; intros raws st Hvalid Hraws.
  - destruct raws; [ | discriminate]. destruct st as [p [] b]. reflexivity.
  - destruct raws as [ | raw raws]; [discriminate | ].
    cbn [map] in Hraws. injection Hraws as Hraw Hraws.
    apply Forall_cons in Hvalid as [Hkv Hvalid].
    unfold attr_valid in Hkv. cbn [fst snd] in Hkv.
    apply andb_true_iff in Hkv as [Hkv Hv].
    apply andb_true_iff in Hkv as [Hkv Hk].
    apply andb_true_iff in Hkv as [Hname Hcolon].
    apply negb_true_iff in Hname, Hcolon, Hk, Hv.
    apply String.eqb_neq in Hname.
    cbn [fold_left].
    rewrite (load_line_attr_text trim RTP_PT_MAP st raw k v) by assumption.
    rewrite (IH raws _ Hvalid Hraws). reflexivity.
Qed.

(** The text [toString] writes for an audio or a video track, line by
    line. *)
Lemma toString_track_lines (title : SdpTrack -> string) (tr : SdpTrack) (port : Z) :
  _type tr = TrackAudio \/ _type tr = TrackVideo ->
  toString title tr port = lines (map (fun line => line +:+ CRLF) (track_lines tr port)).
Proof.
  intros Hkind.
  unfold toString, track_lines, is_audio. rewrite getAttrSdp_lines.
  rewrite written_attrs_lines.
  cbn [map lines]. rewrite map_app, lines_app.
  destruct Hkind as [-> | ->]; cbn [TrackType_eqb];
    destruct (String.eqb (_b tr) ""); cbn [negb map lines];
    unfold media_value; rewrite ?append_assoc, ?append_nil_r; reflexivity.
Qed.

(** What the first block of [load] makes of these lines: a new track of
    the same kind, port, payload type, bandwidth text and attributes, with
    the clock rate and the channel count of the table. *)
Lemma track_lines_first_block (tr : SdpTrack) (port : Z) (st : load_state)
    (raws : list string) :
  _type tr = TrackAudio \/ _type tr = TrackVideo ->
  0 <= port < 2 ^ 16 ->
  0 <= _pt tr < 2 ^ 31 ->
  mm_sorted (_attr tr) ->
  Forall (fun pr => attr_valid pr = true) (_attr tr) ->
  (length (entries_of "control" (_attr tr)) <= 1)%nat ->
  map trim raws = track_lines tr port ->
  fold_left load_line raws st
  = {| pushed := track_vec st;
       track :=
         set_attr (_attr tr)
           (set_b (_b tr)
              (set_port port
                 (set_type (_type tr)
                    (set_channel (RtpPayload_getAudioChannel RTP_PT_MAP (_pt tr))
                       (set_samplerate (RtpPayload_getClockRate RTP_PT_MAP (_pt tr))
                          (set_pt (_pt tr) SdpTrack_new))))));
       track_in_vec := true |}.
Proof.
  intros Hkind Hport Hpt Hsorted Hvalid Hone Hraws.
  pose proof (written_attrs_emplaced _ Hsorted Hone) as Hback.
  pose proof (written_attrs_valid _ Hvalid) as Hwritten.
  unfold track_lines in Hraws.
  destruct raws as [ | raw_m raws]; [discriminate | ].
  cbn [map] in Hraws. injection Hraws as Hm Hraws.
  cbn [fold_left].
  assert (Htype : toTrackType (if is_audio tr then "audio" else "video") = _type tr).
  { unfold is_audio. destruct Hkind as [-> | ->]; reflexivity. }
  assert (Htok : type_token (if is_audio tr then "audio" else "video") = true)
    by (destruct (is_audio tr); reflexivity).
  rewrite (load_line_media_value st raw_m _ port (_pt tr) Hport Hpt Htok Hm).
  rewrite Htype.
  destruct (String.eqb (_b tr) "") eqn:Hb.
  - apply String.eqb_eq in Hb. cbn [app] in Hraws.
    rewrite (fold_attr_lines _ raws _ Hwritten Hraws).
    unfold on_track. cbn. rewrite Hback, Hb. reflexivity.
  - destruct raws as [ | raw_b raws]; [discriminate | ].
    cbn [app map] in Hraws. injection Hraws as Hrawb Hraws.
    cbn [fold_left]. rewrite (load_line_bandwidth _ raw_b (_b tr) Hrawb).
    rewrite (fold_attr_lines _ raws _ Hwritten Hraws).
    unfold on_track. cbn. rewrite Hback. reflexivity.
Qed.

(** Lines of fewer than two characters are passed over. *)
Lemma load_line_short st raw : short_line (trim raw) = true -> load_line st raw = st.
Proof.
  unfold Sdp.load_line, short_line.
  destruct (trim raw) as [ | a [ | b rest]]; [reflexivity | reflexivity | discriminate].
Qed.

Lemma fold_load_line_short raws st :
  fold_left load_line raws st
  = fold_left load_line
      (List.filter (fun raw => negb (short_line (trim raw))) raws) st.
Proof.
  revert st. induction raws as [ | raw raws IH]; intros st; [reflexivity | ].
  cbn [fold_left List.filter].
  destruct (short_line (trim raw)) eqn:Hshort; cbn [negb fold_left].
  - rewrite load_line_short by assumption. apply IH.
  - apply IH.
Qed.

Lemma map_trim_filter (keep : string -> bool) raws :
  map trim (List.filter (fun raw => keep (trim raw)) raws)
  = List.filter keep (map trim raws).
Proof.
  induction raws as [ | raw raws IH]; [reflexivity | ].
  cbn [map List.filter]. destruct (keep (trim raw)); cbn [map]; now rewrite IH.
Qed.

End TrackLines.

Lemma has_pt_numbered pt0 v : has_pt pt0 v = true -> leading_pt v <> None.
Proof. unfold has_pt. now destruct (leading_pt v). Qed.

Lemma has_pt_other pt0 v : has_pt pt0 v = true -> other_pt pt0 v = false.
Proof.
  unfold has_pt, other_pt. destruct (leading_pt v) as [n | ]; [ | discriminate].
  now intros ->.
Qed.

Lemma without_other_same key pt0 m :
  Forall (fun kv => kv.1 = key -> has_pt pt0 kv.2 = true) m ->
  without_other key pt0 m = m.
Proof.
  unfold without_other. induction 1 as [ | [k v] m Hkv _ IH]; [reflexivity | ].
  cbn [List.filter fst snd] in *. rewrite IH.
  destruct (String.eqb_spec k key) as [Hk | _]; [ | reflexivity].
  now rewrite (has_pt_other pt0 v (Hkv Hk)).
Qed.

(** A loop over entries that all start with the payload type erases
    nothing. *)
Lemma prune_loop_all_kept key body slot tr :
  (forall slot tr v, (body slot tr v).2 = pt_mismatch slot tr v) ->
  (forall slot tr v, pt_mismatch slot tr v = true -> (body slot tr v).1 = tr) ->
  (forall slot tr v, _pt tr <> 255 -> _pt (body slot tr v).1 = _pt tr) ->
  (forall slot tr v m,
      body slot (set_attr m tr) v = (set_attr m (body slot tr v).1, (body slot tr v).2)) ->
  (forall slot slot' tr v, leading_pt v <> None -> body slot tr v = body slot' tr v) ->
  mm_sorted (_attr tr) -> _pt tr <> 255 ->
  Forall (fun kv => kv.1 = key -> has_pt (_pt tr) kv.2 = true) (_attr tr) ->
  _attr (prune_loop key body slot tr) = _attr tr.
Proof.
  intros Hflag Herased Hpt Hattr Hnumbered Hsorted Hset Hall.
  assert (Hnum : Forall (fun kv => kv.1 = key -> leading_pt kv.2 <> None) (_attr tr)).
  { eapply Forall_impl; [exact Hall | ].
    intros kv Hkv Hk. eapply has_pt_numbered, Hkv, Hk. }
  destruct (prune_loop_numbered key body Hflag Herased Hpt Hattr Hnumbered
              slot slot tr Hnum Hsorted Hset) as [_ Hleft].
  rewrite Hleft. now apply without_other_same.
Qed.

Section RoundTrip.

Context {CodecId : Type} `{Countable CodecId}.
Context {T : Type} `{!Track (CodecId := CodecId) T}.
Variable split : string -> list string.
Variable trim : string -> string.
Variable RTP_PT_MAP : list (pt_entry (CodecId := CodecId)).
Variable getTrackBySdp : SdpTrack -> option T.
Variable indeterminate : nat -> string -> Z.

#[local] Abbreviation load := (load split trim RTP_PT_MAP getTrackBySdp indeterminate).
#[local] Abbreviation resolve := (resolve getTrackBySdp indeterminate).

(** The second block on a track whose [rtpmap] and [fmtp] attributes all
    start with its payload type: it keeps the kind, the port, the payload
    type, the bandwidth text and the attributes. *)
Lemma resolve_keeps i tr :
  mm_sorted (_attr tr) -> _pt tr <> 255 ->
  Forall
    (fun kv => kv.1 = "rtpmap"%string \/ kv.1 = "fmtp"%string ->
               has_pt (_pt tr) kv.2 = true) (_attr tr) ->
  (_type (resolve i tr), _port (resolve i tr), _pt (resolve i tr), _b (resolve i tr),
   _attr (resolve i tr))
  = (_type tr, _port tr, _pt tr, _b tr, _attr tr).
Proof.
  intros Hsorted Hset Hall. unfold Sdp.resolve.
  set (u1 := rtpmap_loop (indeterminate i "rtpmap") tr).
  set (u2 := fmtp_loop (indeterminate i "fmtp") u1).
  assert (H1 : (_type u1, _port u1, _b u1) = (_type tr, _port tr, _b tr)).
  { unfold u1, rtpmap_loop.
    apply (prune_loop_field (fun tr => (_type tr, _port tr, _b tr))); [ | reflexivity].
    intros s t v. unfold rtpmap_body. repeat case_match; reflexivity. }
  assert (Hp1 : _pt u1 = _pt tr).
  { apply prune_loop_pt; [ | assumption]. intros s t v. apply rtpmap_body_pt. }
  assert (Ha1 : _attr u1 = _attr tr).
  { apply prune_loop_all_kept;
      auto using rtpmap_body_pt_mismatch, rtpmap_body_erased_track, rtpmap_body_pt,
        rtpmap_body_set_attr, rtpmap_body_numbered.
    eapply Forall_impl; [exact Hall | ]. intros kv Hkv Hk. apply Hkv. now left. }
  assert (H2 : (_type u2, _port u2, _b u2) = (_type u1, _port u1, _b u1)).
  { unfold u2, fmtp_loop.
    apply (prune_loop_field (fun tr => (_type tr, _port tr, _b tr))); [ | reflexivity].
    intros s t v. unfold fmtp_body. repeat case_match; reflexivity. }
  assert (Hp2 : _pt u2 = _pt u1).
  { apply prune_loop_pt; [ | congruence]. intros s t v _. apply fmtp_body_pt. }
  assert (Ha2 : _attr u2 = _attr u1).
  { apply prune_loop_all_kept;
      auto using fmtp_body_pt_mismatch, fmtp_body_erased_track, fmtp_body_pt,
        fmtp_body_set_attr, fmtp_body_numbered; try congruence.
    rewrite Ha1, Hp1. eapply Forall_impl; [exact Hall | ].
    intros kv Hkv Hk. apply Hkv. now right. }
  assert (H3 : (_type (control_step u2), _port (control_step u2), _pt (control_step u2),
                _b (control_step u2), _attr (control_step u2))
               = (_type u2, _port u2, _pt u2, _b u2, _attr u2)).
  { unfold control_step. repeat case_match; reflexivity. }
  set (u3 := control_step u2) in *.
  assert (H4 : (_type (samplerate_fallback getTrackBySdp u3),
                _port (samplerate_fallback getTrackBySdp u3),
                _pt (samplerate_fallback getTrackBySdp u3),
                _b (samplerate_fallback getTrackBySdp u3),
                _attr (samplerate_fallback getTrackBySdp u3))
               = (_type u3, _port u3, _pt u3, _b u3, _attr u3)).
  { unfold samplerate_fallback. repeat case_match; reflexivity. }
  rewrite H4, H3. injection H2 as -> -> ->. injection H1 as -> -> ->.
  now rewrite Hp2, Hp1, Ha2, Ha1.
Qed.

(** X28.  The text [toString] writes for an audio or a video track is a
    media line, a bandwidth line when [_b] is not empty, and the attribute
    lines, each ended by CR LF.  From a text that [split] and [trim] take
    apart into these lines and lines of fewer than two characters, [load]
    returns the title record and one track: the second block applied to
    the track the lines give, which has the kind, the port, the payload
    type, the bandwidth text and the attributes of the track written, no
    codec name, and the clock rate and the channel count of the table.
    The track returned has that kind, port, payload type, bandwidth text
    and those attributes, and its control text is that of the [control]
    attribute.  This holds for a port below 65536, a payload type from 0 to
    2^31 - 1 other than 0xFF, attributes whose lines can be read back, at
    most one [control] attribute -- of several, [toString] writes the last
    only -- and [rtpmap] and [fmtp] attributes that start with the payload
    type, as the second block leaves them. *)
Theorem SdpTrack_toString_load_round_trip (title : SdpTrack -> string) (tr : SdpTrack)
    (port : Z) (sdp : string) :
  _type tr = TrackAudio \/ _type tr = TrackVideo ->
  0 <= port < 2 ^ 16 ->
  0 <= _pt tr < 2 ^ 31 ->
  _pt tr <> 255 ->
  mm_sorted (_attr tr) ->
  Forall (fun pr => attr_valid pr = true) (_attr tr) ->
  (length (entries_of "control" (_attr tr)) <= 1)%nat ->
  Forall
    (fun kv => kv.1 = "rtpmap"%string \/ kv.1 = "fmtp"%string ->
               has_pt (_pt tr) kv.2 = true) (_attr tr) ->
  List.filter (fun line => negb (short_line line)) (map trim (split sdp))
  = track_lines tr port ->
  let tr' :=
    resolve 1
      (set_attr (_attr tr)
         (set_b (_b tr)
            (set_port port
               (set_type (_type tr)
                  (set_channel (RtpPayload_getAudioChannel RTP_PT_MAP (_pt tr))
                     (set_samplerate (RtpPayload_getClockRate RTP_PT_MAP (_pt tr))
                        (set_pt (_pt tr) SdpTrack_new))))))) in
  toString title tr port = lines (map (fun line => line +:+ CRLF) (track_lines tr port))
  /\ load sdp = [set_type TrackTitle SdpTrack_new; tr']
  /\ _type tr' = _type tr
  /\ _port tr' = port
  /\ _pt tr' = _pt tr
  /\ _b tr' = _b tr
  /\ _attr tr' = _attr tr
  /\ _control tr' = default ""%string (first_control (_attr tr)).
Proof.
  intros Hkind Hport Hpt Hset Hsorted Hvalid Hone Hall Hlines tr'.
  split; [now apply toString_track_lines | ].
  assert (Hkeeps := resolve_keeps 1
                      (set_attr (_attr tr)
                         (set_b (_b tr)
                            (set_port port
                               (set_type (_type tr)
                                  (set_channel
                                     (RtpPayload_getAudioChannel RTP_PT_MAP (_pt tr))
                                     (set_samplerate
                                        (RtpPayload_getClockRate RTP_PT_MAP (_pt tr))
                                        (set_pt (_pt tr) SdpTrack_new)))))))
                      Hsorted Hset Hall).
  fold tr' in Hkeeps. cbn [_type _port _pt _b _attr set_attr set_b set_port set_type
                             set_channel set_samplerate set_pt] in Hkeeps.
  injection Hkeeps as Htype Hport' Hpt' Hb Hattr.
  split.
  - unfold Sdp.load, Sdp.load_lines.
    rewrite (fold_load_line_short trim RTP_PT_MAP).
    rewrite (track_lines_first_block trim RTP_PT_MAP tr port); try assumption.
    + reflexivity.
    + now rewrite (map_trim_filter trim (fun line => negb (short_line line))).
  - repeat (split; [assumption | ]).
    unfold tr'. rewrite (resolve_control getTrackBySdp indeterminate) by reflexivity.
    fold tr'. now rewrite Hattr.
Qed.

End RoundTrip.

(** ** The configured port range *)

Lemma conv_hu_wrap n : 0 <= n < 2 ^ 64 -> conv_hu false n = n mod 65536.
Proof.
  intros Hn. unfold conv_hu, ULONG_MAX, uint16_t, wrap.
  destruct (Z.ltb_spec (2 ^ 64 - 1) n) as [Hlt | _]; [lia | reflexivity].
Qed.

Lemma run_hu n rest fmt :
  0 <= n < 2 ^ 64 ->
  starts_with_digit rest = false ->
  run (D_hu :: fmt) (print_int n +:+ rest) = V_int (n mod 65536) :: run fmt rest.
Proof.
  intros Hn Hrest. cbn [run].
  rewrite read_number_print_int by (assumption || lia).
  now rewrite conv_hu_wrap.
Qed.

(** X29.  The constructor reads the configured range as two decimal numbers
    with a dash between them, each taken modulo 65536; a text with one
    number only gives the minimum and leaves the maximum at 35000, and an
    empty text leaves both at their defaults, 30000 and 35000. *)
Theorem func_range_text (a b : Z) (rest : string) :
  0 <= a < 2 ^ 64 -> 0 <= b < 2 ^ 64 ->
  starts_with_digit rest = false -> has_char zero rest = false ->
  let text := print_int a +:+ "-" +:+ print_int b +:+ rest in
  (func text 0 = a mod 65536 /\ func text 1 = b mod 65536)
  /\ (func (print_int a) 0 = a mod 65536 /\ func (print_int a) 1 = 35000)
  /\ (func "" 0 = 30000 /\ func "" 1 = 35000).
Proof.
  intros Ha Hb Hrest Hnul text.
  assert (Htext : sscanf text [D_hu; D_char "-"; D_hu]
                  = [V_int (a mod 65536); V_int (b mod 65536)]).
  { unfold sscanf. subst text. rewrite c_str_no_nul.
    2:{ rewrite !has_char_append, !has_char_print_int by (lia || reflexivity).
        exact Hnul. }
    rewrite run_hu by (assumption || reflexivity).
    change ("-" +:+ ?x) with (String "-" x). rewrite run_char.
    rewrite run_hu by assumption. reflexivity. }
  assert (Hone : sscanf (print_int a) [D_hu; D_char "-"; D_hu] = [V_int (a mod 65536)]).
  { unfold sscanf. rewrite c_str_no_nul by (apply has_char_print_int; [lia | reflexivity]).
    rewrite <- (append_nil_r (print_int a)).
    rewrite run_hu by (assumption || reflexivity). reflexivity. }
  unfold func. rewrite Htext, Hone. repeat split.
Qed.

(** * Instances of the further properties *)

(** ** The parser *)

Lemma lines_after_failed_media_line_witness :
  load toolkit_split toolkit_trim sample_table (fun _ => None (A := sample_descriptor)) zero_slots
    broken_sdp
  = load toolkit_split toolkit_trim sample_table (fun _ => None (A := sample_descriptor)) zero_slots
      mended_sdp.
Proof.
  apply (lines_after_failed_media_line toolkit_split toolkit_trim sample_table
           (fun _ => None (A := sample_descriptor)) zero_slots broken_sdp mended_sdp
           ["v=0"%string] ["a=control:lost"%string]
           ["m=video 0 RTP/AVP 96"; "a=control:kept"]%string "m=broken"%string).
  - reflexivity.
  - reflexivity.
  - reflexivity.
  - repeat constructor.
  - reflexivity.
Defined.

Example load_broken_sdp :
  map (fun tr => (_type tr, _control tr))
    (load toolkit_split toolkit_trim sample_table
       (fun _ => None (A := sample_descriptor)) zero_slots broken_sdp)
  = [(TrackTitle, ""%string); (TrackVideo, "kept"%string)].
Proof. reflexivity. Qed.

Lemma attribute_line_round_trip_witness :
  getAttrSdp [("control", "trackID=1")%string] "" = "a=control:trackID=1" +:+ CRLF
  /\ load_line toolkit_trim sample_table
       {| pushed := []; track := video_track; track_in_vec := true |}
       ("a=control:trackID=1" +:+ CRLF)
     = on_track
         (fun tr => set_attr (mm_emplace "control" "trackID=1" (_attr tr)) tr)
         {| pushed := []; track := video_track; track_in_vec := true |}.
Proof.
  apply (attribute_line_round_trip toolkit_trim sample_table
           {| pushed := []; track := video_track; track_in_vec := true |}
           ("a=control:trackID=1" +:+ CRLF) ("control", "trackID=1")%string);
    solve [discriminate | reflexivity].
Defined.

Lemma attribute_lines_keep_order_witness :
  entries_of "control"
    (_attr (track (load_line toolkit_trim sample_table
                     {| pushed := []; track := video_track; track_in_vec := true |}
                     ("a=control:trackID=1" +:+ CRLF))))
  = [("control", "trackID=0"); ("control", "trackID=1")]%string.
Proof.
  refine (proj1 (proj2 (attribute_lines_keep_order toolkit_trim sample_table
                          {| pushed := []; track := video_track; track_in_vec := true |}
                          ("a=control:trackID=1" +:+ CRLF)
                          ("control", "trackID=1")%string _ _ _ _ _ _)));
    solve [discriminate | reflexivity | exact video_track_sorted].
Defined.

(** ** The payload-type table *)

Lemma sample_table_values : NoDup (map pt_value sample_table).
Proof. apply (bool_decide_unpack _). vm_compute. exact I. Defined.

Lemma lookups_by_number_witness :
  (RtpPayload_getClockRate sample_table 8 = 8000
   /\ RtpPayload_getAudioChannel sample_table 8 = 1
   /\ RtpPayload_getTrackType sample_table 8 = TrackAudio
   /\ RtpPayload_getName sample_table 8 = "PCMA"%string
   /\ RtpPayload_getCodecId sample_table (-1) 8 = 2)
  /\ RtpPayload_getClockRate sample_table 96 = 90000
  /\ RtpPayload_getAudioChannel sample_table 96 = 1
  /\ RtpPayload_getTrackType sample_table 96 = TrackInvalid
  /\ RtpPayload_getName sample_table 96 = "unknown payload type"%string
  /\ RtpPayload_getCodecId sample_table (-1) 96 = -1.
Proof.
  split.
  - apply (proj1 (lookups_by_number sample_table (-1) 8 sample_table_values)
             (XX "PCMA" TrackAudio 8 8000 1 2)); [ | reflexivity].
    apply list_elem_of_In. vm_compute. tauto.
  - apply (proj2 (lookups_by_number sample_table (-1) 96 sample_table_values)).
    intros e He. apply list_elem_of_In in He. vm_compute in He.
    intuition (subst; discriminate).
Defined.

Lemma getPayloadType_round_trip_witness :
  RtpPayload_getCodecId sample_table (-1) 8 = 2
  /\ RtpPayload_getClockRateByCodec sample_table (fun _ => ""%string) 2
     = (RtpPayload_getClockRate sample_table 8, None)
  /\ (TrackAudio = TrackAudio ->
      RtpPayload_getClockRate sample_table 8 = 8000
      /\ RtpPayload_getAudioChannel sample_table 8 = 1).
Proof.
  assert (Hfound : 8 <> -1) by lia.
  exact (getPayloadType_round_trip sample_table (-1) (fun _ => ""%string) pcma_track 8
           sample_table_values eq_refl Hfound).
Defined.

(** ** RTP on the wire *)

Lemma printSSRC_of_getSSRC_witness :
  printSSRC LittleEndian 42 = "0000002A"%string.
Proof.
  exact (printSSRC_of_getSSRC LittleEndian (buffer padded_packet) 29 0 42 eq_refl).
Defined.

Example printSSRC_sample :
  printSSRC LittleEndian 3735928559 = "DEADBEEF"%string
  /\ printSSRC BigEndian 3735928559 = "DEADBEEF"%string
  /\ getSSRC LittleEndian (buffer padded_packet) 11 7 = (false, 7).
Proof. repeat split. Qed.

Lemma RtpPacket_getPayloadSize_unsigned_witness :
  RtpPacket_getPayloadSize sample_packet = 3
  /\ 16 <= RtpPacket_getPayload sample_packet
  /\ RtpPacket_getPayload sample_packet + RtpPacket_getPayloadSize sample_packet + 2 = 33.
Proof.
  assert (Hsize : kRtpTcpHeaderSize <= Rtp.size sample_packet <= SSIZE_MAX).
  { unfold SSIZE_MAX. simpl. unfold kRtpTcpHeaderSize. lia. }
  apply (proj1 (RtpPacket_getPayloadSize_unsigned sample_packet Hsize)).
  vm_compute. discriminate.
Defined.

(** A packet of its prefix and twelve bytes that announce fifteen
    CSRCs. *)
Example RtpPacket_getPayloadSize_malformed :
  RtpPacket_getPayloadSize
    {| data := buffer (makeRtpOverTcpPrefix 12 0 ++ [x8f; x60]%byte); Rtp.size := 16 |}
  = 2 ^ 64 - 60.
Proof. reflexivity. Qed.

Lemma RtpPacket_getStampMS_exact_witness :
  RtpPacket_getStampMS LittleEndian 0 8000 sample_packet false
  = Some (RtpPacket_getStamp LittleEndian sample_packet * 1000 / 8000)
  /\ (8000 = 1000 ->
      RtpPacket_getStampMS LittleEndian 0 8000 sample_packet false
      = Some (RtpPacket_getStamp LittleEndian sample_packet))
  /\ RtpPacket_getStampMS LittleEndian 0 8000 sample_packet true = Some 0.
Proof.
  apply (RtpPacket_getStampMS_exact LittleEndian 0 8000 sample_packet); lia.
Defined.

(** ** [DefaultSdp] *)

Lemma DefaultSdp_rtpmap_read_back_witness :
  (exists head,
      DefaultSdp sample_type_str sample_bit_rate sample_codec_name 96 h264_track
      = head +:+ "a=rtpmap:" +:+ "96 H264/9000" +:+ CRLF)
  /\ rtpmap_body 0 video_track "96 H264/9000"
     = (set_samplerate 9000 (set_codec "H264" (set_pt 96 video_track)), false).
Proof.
  assert (Hpt : 96 <= 96 < 2 ^ 31) by lia.
  assert (Hrate : 0 <= getAudioSampleRate h264_track < 2 ^ 31) by (simpl; lia).
  assert (Hch : 0 <= getAudioChannel h264_track < 2 ^ 31) by (simpl; lia).
  exact (DefaultSdp_rtpmap_read_back sample_type_str sample_bit_rate sample_codec_name 0
           96 h264_track video_track Hpt eq_refl Hrate Hch eq_refl).
Defined.

Example DefaultSdp_sample :
  DefaultSdp sample_type_str sample_bit_rate sample_codec_name 96 h264_track
  = "m=video 0 RTP/AVP 96" +:+ CRLF +:+ "a=rtpmap:96 H264/9000" +:+ CRLF
  /\ DefaultSdp sample_type_str sample_bit_rate sample_codec_name 97 opus_track
     = "m=audio 0 RTP/AVP 97" +:+ CRLF +:+ "a=rtpmap:97 opus/48000/2" +:+ CRLF
  /\ DefaultSdp sample_type_str sample_bit_rate sample_codec_name 8 pcma_track
     = "m=audio 0 RTP/AVP 8" +:+ CRLF.
Proof. repeat split. Qed.

Lemma DefaultSdp_media_line_read_back_witness :
  (exists tail,
      DefaultSdp sample_type_str sample_bit_rate sample_codec_name 96 h264_track
      = "m=" +:+ media_value "video" 0 96 +:+ CRLF +:+ tail)
  /\ load_line toolkit_trim sample_table
       {| pushed := []; track := session_track; track_in_vec := true |}
       ("m=video 0 RTP/AVP 96" +:+ CRLF)
     = {| pushed := [session_track];
          track :=
            set_port 0
              (set_type TrackVideo
                 (set_channel 1 (set_samplerate 90000 (set_pt 96 SdpTrack_new))));
          track_in_vec := true |}.
Proof.
  assert (Hpt : 0 <= 96 < 2 ^ 31) by lia.
  exact (DefaultSdp_media_line_read_back sample_type_str sample_bit_rate
           sample_codec_name toolkit_trim sample_table 96 h264_track
           {| pushed := []; track := session_track; track_in_vec := true |}
           ("m=video 0 RTP/AVP 96" +:+ CRLF) Hpt eq_refl eq_refl).
Defined.

(** ** A track, written and read *)

Lemma loaded_track_sorted : mm_sorted (_attr loaded_track).
Proof.
  unfold mm_sorted. simpl.
  repeat (constructor; [ | repeat (constructor; [exact I | ]); constructor]).
  constructor.
Defined.

Lemma SdpTrack_toString_load_round_trip_witness :
  toString (fun _ => ""%string) loaded_track 5000
  = lines (map (fun line => line +:+ CRLF) (track_lines loaded_track 5000))
  /\ load toolkit_split toolkit_trim sample_table
       (fun _ => None (A := sample_descriptor)) zero_slots
       (toString (fun _ => ""%string) loaded_track 5000)
     = [set_type TrackTitle SdpTrack_new; loaded_track].
Proof.
  assert (Hport : 0 <= 5000 < 2 ^ 16) by lia.
  assert (Hpt : 0 <= _pt loaded_track < 2 ^ 31) by (simpl; lia).
  assert (Hset : _pt loaded_track <> 255) by (simpl; lia).
  assert (Hvalid : Forall (fun pr => attr_valid pr = true) (_attr loaded_track))
    by (repeat constructor).
  assert (Hone : (length (entries_of "control" (_attr loaded_track)) <= 1)%nat)
    by (vm_compute; lia).
  assert (Hall : Forall
                   (fun kv => kv.1 = "rtpmap"%string \/ kv.1 = "fmtp"%string ->
                              has_pt (_pt loaded_track) kv.2 = true)
                   (_attr loaded_track)).
  { repeat (apply Forall_cons_2; [ | ]); [ | | | apply Forall_nil_2].
    - intros [Hk | Hk]; discriminate Hk.
    - intros _. reflexivity.
    - intros _. reflexivity. }
  pose proof (SdpTrack_toString_load_round_trip toolkit_split toolkit_trim sample_table
                (fun _ => None (A := sample_descriptor)) zero_slots
                (fun _ => ""%string) loaded_track 5000
                (toString (fun _ => ""%string) loaded_track 5000)
                (or_intror eq_refl) Hport Hpt Hset loaded_track_sorted Hvalid Hone Hall
                eq_refl) as Hround.
  cbv zeta in Hround. destruct Hround as (Htext & Hload & _).
  split; [exact Htext | exact Hload].
Defined.

Example track_lines_sample :
  track_lines loaded_track 5000
  = ["m=video 5000 RTP/AVP 96"; "b=AS:500"; "a=fmtp:96 packetization-mode=1";
     "a=rtpmap:96 H264/90000"; "a=control:trackID=0"]%string.
Proof. reflexivity. Qed.

(** ** The configured port range *)

Lemma func_range_text_witness :
  func "30000-35000" 0 = 30000 /\ func "30000-35000" 1 = 35000
  /\ func "70000-80000" 0 = 4464.
Proof.
  pose proof (func_range_text 30000 35000 "" ltac:(lia) ltac:(lia) eq_refl eq_refl) as H1.
  pose proof (func_range_text 70000 80000 "" ltac:(lia) ltac:(lia) eq_refl eq_refl) as H2.
  cbv zeta in H1, H2.
  destruct H1 as [[H10 H11] _]. destruct H2 as [[H20 _] _].
  split; [exact H10 | split; [exact H11 | exact H20]].
Defined.
